(** * LearnMate: derived profile state, quiz shuffling, chat streaming,
      live-audio scheduling and image-history persistence

    A shallow embedding of the pure and state-machine parts of the
    LearnMate single-page application, together with the properties its
    specification states about them.

    Conventions of the embedding.
    - A JavaScript [number] that holds a count (scores, totals, points,
      lengths, sample frames) is a [Z]: binary64 arithmetic is exact on
      integers below 2^53, and every such quantity in the program is a sum or
      product of small integers.
    - Where the program divides, the quotient is computed in binary64
      ([Number.number], the IEEE 754 model of [SpecFloat] at precision 53),
      so that rounding happens where the program rounds.
    - JavaScript strings are lists of code units; arrays are lists; an array
      that the code mutates in place lives in a store of arrays.
    - Sources of non-determinism ([Date.now], [Math.random], the audio clock,
      the behaviour of [localStorage.setItem], the timing of callbacks) are
      explicit arguments or events. *)

From Stdlib Require Import ZArith List Lia QArith Qround Ascii.
From Stdlib Require Import Floats.SpecFloat.
From stdpp Require Import gmap list strings pretty sorting.
From Equations Require Import Equations.

Local Open Scope Z_scope.

(* ===================================================================== *)
(** * Part I: the embedding                                               *)
(* ===================================================================== *)

(** ** JavaScript numbers (binary64) *)

Module Number.

Definition prec : Z := 53.
Definition emax : Z := 1024.

Definition number := spec_float.

#[global] Instance number_eq_dec : EqDecision number.
Proof. solve_decision. Defined.

(** The number denoted by an integer literal or held by an integer-valued
    variable. *)
Definition of_Z (z : Z) : number := binary_normalize prec emax z 0 false.

Definition div (x y : number) : number := SFdiv prec emax x y.
Definition mul (x y : number) : number := SFmul prec emax x y.

(** [x >= y] *)
Definition geb (x y : number) : bool := SFleb y x.

(** The literal [0.9]: the double 0x3FECCCCCCCCCCCCD. *)
Definition lit_0_9 : number := S754_finite false 8106479329266893 (-53).
(** The literal [1.5]: the double 0x3FF8000000000000. *)
Definition lit_1_5 : number := S754_finite false 6755399441055744 (-52).
(** The literal [0]. *)
Definition zero : number := S754_zero false.

(** [Math.round]: the integer closest to [x], ties towards +infinity;
    [-0] for [-0.5 <= x < 0] (and for [-0]), [+0] for [0 <= x < 0.5]; NaN
    and the infinities are returned as they are.  For a finite
    [x = (-1)^s * m * 2^e] with [e < 0] the integer is
    [floor (x + 1/2)], computed exactly. *)
Definition Math_round (x : number) : number :=
  match x with
  | S754_finite s m e =>
      if 0 <=? e then x
      else
        let n := (2 * cond_Zopp s (Zpos m) + 2 ^ (- e)) / 2 ^ (1 - e) in
        if n =? 0 then S754_zero s else of_Z n
  | _ => x
  end.

End Number.

(** ** types.ts *)

Inductive Subject :=
| Math | Physics | Chemistry | Biology | History | Geography
| ComputerScience | English | Custom.

Inductive Rank := Bronze | Silver | Gold | Emerald | Diamond.

Inductive BadgeName := MathStar | GrammarPro | QuizChamp | KnowledgeSeeker.

#[global] Instance Subject_eq_dec : EqDecision Subject.
Proof. solve_decision. Defined.
#[global] Instance Rank_eq_dec : EqDecision Rank.
Proof. solve_decision. Defined.
#[global] Instance BadgeName_eq_dec : EqDecision BadgeName.
Proof. solve_decision. Defined.

Record QuizResult := {
  subject : Subject;
  score : Z;
  total : Z;
  date : Z
}.

Record ProgressPoint := { pp_date : Z; pp_points : Z }.

Record User := {
  id : string;
  name : string;
  email : string;
  profilePicture : option string;
  className : option string;
  rank : Rank;
  totalPoints : Z;
  badges : list BadgeName;
  progress : list ProgressPoint
}.

(** ** constants.ts *)

Module Constants.

Definition POINTS_PER_CORRECT_ANSWER : Z := 100.
Definition QUIZ_LENGTH : Z := 10.

(** [RANKS[r].minPoints] *)
Definition minPoints (r : Rank) : Z :=
  match r with
  | Bronze => 0
  | Silver => 500
  | Gold => 1500
  | Emerald => 3000
  | Diamond => 5000
  end.

(** [RANKS[r].nextLevelPoints] *)
Definition nextLevelPoints (r : Rank) : option Z :=
  match r with
  | Bronze => Some 500
  | Silver => Some 1500
  | Gold => Some 3000
  | Emerald => Some 5000
  | Diamond => None
  end.

End Constants.

(** ** utils/profileUtils.ts *)

Module ProfileUtils.
Import Constants.

Definition getRank (points : Z) : Rank :=
  if points >=? minPoints Diamond then Diamond
  else if points >=? minPoints Emerald then Emerald
  else if points >=? minPoints Gold then Gold
  else if points >=? minPoints Silver then Silver
  else Bronze.

(** A [Set<BadgeName>] keeps its members in insertion order, each once. *)
Definition Set_add (x : BadgeName) (s : list BadgeName) : list BadgeName :=
  if decide (x ∈ s) then s else s ++ [x].

(** [new Set(items)] *)
Definition Set_new (items : list BadgeName) : list BadgeName :=
  foldl (fun s x => Set_add x s) [] items.

(** [(r.score / r.total) >= 0.9], the quotient taken in binary64. *)
Definition scored_90_percent (r : QuizResult) : bool :=
  Number.geb (Number.div (Number.of_Z (score r)) (Number.of_Z (total r)))
             Number.lit_0_9.

(** [results.reduce((sum, r) => sum + r.score, 0)] *)
Definition sum_score (results : list QuizResult) : Z :=
  foldl (fun sum r => sum + score r) 0 results.

(** [results.reduce((sum, r) => sum + r.total, 0)] *)
Definition sum_total (results : list QuizResult) : Z :=
  foldl (fun sum r => sum + total r) 0 results.

Definition getNewBadges (currentBadges : list BadgeName)
    (latestResult : QuizResult) (fullHistory : list QuizResult)
  : list BadgeName :=
  let earnedBadges := Set_new currentBadges in
  let fullHistoryWithLatest := fullHistory ++ [latestResult] in
  let earnedBadges :=
    if bool_decide (subject latestResult = Math)
       && scored_90_percent latestResult
    then Set_add MathStar earnedBadges else earnedBadges in
  let earnedBadges :=
    if bool_decide (subject latestResult = English)
       && scored_90_percent latestResult
    then Set_add GrammarPro earnedBadges else earnedBadges in
  let earnedBadges :=
    if Z.of_nat (length fullHistoryWithLatest) >=? 10
    then Set_add QuizChamp earnedBadges else earnedBadges in
  let totalCorrectAnswers := sum_score fullHistoryWithLatest in
  let earnedBadges :=
    if totalCorrectAnswers >=? 100
    then Set_add KnowledgeSeeker earnedBadges else earnedBadges in
  earnedBadges.

Definition calculateAccuracy (quizHistory : list QuizResult)
  : Number.number :=
  if (length quizHistory =? 0)%nat then Number.zero
  else
    let totalCorrect := sum_score quizHistory in
    let totalQuestions := sum_total quizHistory in
    if totalQuestions >? 0
    then Number.Math_round
           (Number.mul
              (Number.div (Number.of_Z totalCorrect)
                          (Number.of_Z totalQuestions))
              (Number.of_Z 100))
    else Number.zero.

End ProfileUtils.

(** ** App.tsx *)

Module App.
Import ProfileUtils.

(** The updater that [addQuizResult] passes to [setUser].  [quizHistory] is
    the history captured by the callback, [now] the value of [Date.now()]. *)
Definition addQuizResult_user (quizHistory : list QuizResult) (now : Z)
    (result : QuizResult) (prevUser : option User) : option User :=
  match prevUser with
  | None => None
  | Some prevUser =>
      let pointsEarned := score result * 25 in
      let newTotalPoints := totalPoints prevUser + pointsEarned in
      let newRank := getRank newTotalPoints in
      let fullHistory := quizHistory ++ [result] in
      let newBadges := getNewBadges (badges prevUser) result fullHistory in
      Some {| id := id prevUser;
              name := name prevUser;
              email := email prevUser;
              profilePicture := profilePicture prevUser;
              className := className prevUser;
              totalPoints := newTotalPoints;
              rank := newRank;
              badges := newBadges;
              progress := progress prevUser ++
                          [{| pp_date := now; pp_points := newTotalPoints |}] |}
  end.

(** The user created on first load when none is saved. *)
Definition defaultUser (now : Z) : User :=
  {| id := "default-user";
     name := "Alex Johnson";
     email := "alex.j@example.com";
     profilePicture := None;
     className := None;
     rank := Bronze;
     totalPoints := 125;
     badges := [];
     progress := [ {| pp_date := now - 86400000; pp_points := 50 |};
                   {| pp_date := now; pp_points := 125 |} ] |}.

(** The part of the component state that [addQuizResult] touches. *)
Record State := {
  user : option User;
  quizHistory : list QuizResult
}.

(** [addQuizResult(result)]: the user is updated by the updater above, run
    on the history of the current render, and the result is appended to the
    history. *)
Definition addQuizResult (now : Z) (result : QuizResult) (st : State)
  : State :=
  {| user := addQuizResult_user (quizHistory st) now result (user st);
     quizHistory := quizHistory st ++ [result] |}.

End App.

(** ** components/Quiz.tsx *)

Module Quiz.

Section ShuffleArray.
Context {T : Type}.

(** Arrays are objects: a value of type [T[]] is a reference into a store
    of arrays. *)
Definition ref := positive.
Abbreviation store := (gmap ref (list T)).

(** The elements of the array at a reference. *)
Definition read (σ : store) (a : ref) : list T := default [] (σ !! a).

(** [[...array]]: a new array holding the elements of [array]. *)
Definition spread (array : ref) (σ : store) : ref * store :=
  let newArray := fresh (dom σ) in
  (newArray, <[newArray := read σ array]> σ).

(** [Math.floor(r * (i + 1))], for [r] the value of [Math.random()]. *)
Definition random_index (r : Q) (i : nat) : nat :=
  Z.to_nat (Qfloor (r * inject_Z (Z.of_nat i + 1))).

(** [[a[i], a[j]] = [a[j], a[i]]]: both elements are read, then [a[i]] and
    [a[j]] are written.  The loop only uses indices [j <= i < a.length]; for
    others (where JavaScript would read [undefined] and grow the array) the
    model leaves the array as it is. *)
Definition swap (i j : nat) (a : list T) : list T :=
  match a !! j, a !! i with
  | Some x, Some y => <[j := y]> (<[i := x]> a)
  | _, _ => a
  end.

(** [for (let i = ...; i > 0; i--) { ... }] entered with index [i], on the
    array at [newArray].  [random k] is the value of the [k]-th call of
    [Math.random()]; [calls] counts the calls made so far. *)
Fixpoint shuffle_loop (random : nat -> Q) (calls : nat) (i : nat)
    (newArray : ref) (σ : store) : store :=
  match i with
  | O => σ
  | S i' =>
      let j := random_index (random calls) i in
      let σ := <[newArray := swap i j (read σ newArray)]> σ in
      shuffle_loop random (S calls) i' newArray σ
  end.

Definition shuffleArray (random : nat -> Q) (array : ref) (σ : store)
  : ref * store :=
  let '(newArray, σ) := spread array σ in
  (newArray,
   shuffle_loop random 0 (length (read σ newArray) - 1) newArray σ).

End ShuffleArray.

End Quiz.

(** ** components/Chat.tsx: streaming chat *)

Module Chat.

(** Message texts are sliced and concatenated: they are lists of code
    units.  Identifiers, names and error messages stay [string]s. *)
Definition text := list ascii.

Inductive Role := user | model.

Inductive Modality := modality_text | modality_voice.

Inductive Feedback := good | bad.

Record Source := { title : string; uri : string }.

#[global] Instance Role_eq_dec : EqDecision Role.
Proof. solve_decision. Defined.

Record ChatMessage := {
  role : Role;
  content : text;
  isStreaming : option bool;
  imageUrl : option string;
  modality : option Modality;
  thinkingMode : option bool;
  feedback : option Feedback;
  sources : option (list Source)
}.

Record ChatSession := {
  id : string;
  name : string;
  messages : list ChatMessage;
  createdAt : Z
}.

(** Truthiness of the optional flag [m.isStreaming]. *)
Definition streaming (m : ChatMessage) : bool :=
  match isStreaming m with Some b => b | None => false end.

(** [{ ...session, messages: msgs }] *)
Definition with_messages (session : ChatSession) (msgs : list ChatMessage)
  : ChatSession :=
  {| id := id session; name := name session; messages := msgs;
     createdAt := createdAt session |}.

(** [{ ...s, name: title }] *)
Definition with_name (session : ChatSession) (title : string) : ChatSession :=
  {| id := id session; name := title; messages := messages session;
     createdAt := createdAt session |}.

(** [{ ...m, content: c }] *)
Definition with_content (m : ChatMessage) (c : text) : ChatMessage :=
  {| role := role m; content := c; isStreaming := isStreaming m;
     imageUrl := imageUrl m; modality := modality m;
     thinkingMode := thinkingMode m; feedback := feedback m;
     sources := sources m |}.

(** [{ ...m, isStreaming: false, sources: s }] *)
Definition finalized (m : ChatMessage) (s : option (list Source))
  : ChatMessage :=
  {| role := role m; content := content m; isStreaming := Some false;
     imageUrl := imageUrl m; modality := modality m;
     thinkingMode := thinkingMode m; feedback := feedback m;
     sources := s |}.

(** [{ role: 'user', content, imageUrl, thinkingMode }] *)
Definition newMessage (userMessageText : text) (image : option string)
    (isThinkingMode : bool) : ChatMessage :=
  {| role := user; content := userMessageText; isStreaming := None;
     imageUrl := image; modality := None;
     thinkingMode := Some isThinkingMode; feedback := None;
     sources := None |}.

(** [{ role: 'model', content: '', isStreaming: true }] *)
Definition placeholder : ChatMessage :=
  {| role := model; content := []; isStreaming := Some true;
     imageUrl := None; modality := None; thinkingMode := None;
     feedback := None; sources := None |}.

(** [setSessions(prev => prev.map(s => s.id === sessionId ? updater(s) : s))] *)
Definition updateSession (sessionId : string)
    (updater : ChatSession -> ChatSession) (sessions : list ChatSession)
  : list ChatSession :=
  map (fun s => if bool_decide (id s = sessionId) then updater s else s)
      sessions.

(** [sessions.find(s => s.id === sessionId)] *)
Definition findSession (sessionId : string) (sessions : list ChatSession)
  : option ChatSession :=
  find (fun s => bool_decide (id s = sessionId)) sessions.

(** The state of one exchange: the buffers local to [handleSendMessage],
    whether an animation frame is requested, and the component state the
    exchange writes. *)
Record Exchange := {
  streamText : text;
  displayedText : text;
  isComplete : bool;
  frameRequested : bool;
  finalSources : option (list Source);
  sessions : list ChatSession;
  isLoading : bool;
  error : option string
}.

(** [Math.round(delta / 1.5)] for a length [delta]: the quotient has
    fractional part 0, 1/3 or 2/3, so below 2^50 the binary64 quotient
    rounds to the same integer as the exact one, [floor (2 delta / 3 + 1/2)]. *)
Definition round_div_1_5 (delta : Z) : Z := (4 * delta + 3) / 6.

(** [s.slice(0, e)] for [e >= 0]. *)
Definition slice0 (s : text) (e : Z) : text := take (Z.to_nat e) s.

Definition len (s : text) : Z := Z.of_nat (length s).

(** The updater of the streaming step: the last message, if it is the bot
    message being streamed, gets the revealed text. *)
Definition reveal (nextContent : text) (session : ChatSession)
  : ChatSession :=
  let msgs := messages session in
  match last msgs with
  | None => session
  | Some lastMsg =>
      if bool_decide (role lastMsg = model) && streaming lastMsg
      then with_messages session
             (<[(length msgs - 1)%nat := with_content lastMsg nextContent]>
                msgs)
      else session
  end.

(** The updater of the final step.  (On an empty list JavaScript would
    spread [undefined]; the streamed message is there, see
    [exchange_invariant], and the model leaves an empty list empty.) *)
Definition finalize (srcs : option (list Source)) (session : ChatSession)
  : ChatSession :=
  let msgs := messages session in
  match last msgs with
  | None => session
  | Some lastMsg =>
      with_messages session (removelast msgs ++ [finalized lastMsg srcs])
  end.

(** One run of [animateStream] for the session [sid]. *)
Definition animateStream (sid : string) (st : Exchange) : Exchange :=
  let st :=
    if len (displayedText st) <? len (streamText st) then
      let delta := len (streamText st) - len (displayedText st) in
      let chunk := Z.max 1 (round_div_1_5 delta) in
      let nextContent :=
        slice0 (streamText st) (len (displayedText st) + chunk) in
      {| streamText := streamText st;
         displayedText := nextContent;
         isComplete := isComplete st;
         frameRequested := frameRequested st;
         finalSources := finalSources st;
         sessions := updateSession sid (reveal nextContent) (sessions st);
         isLoading := isLoading st;
         error := error st |}
    else st in
  if negb (isComplete st) || (len (displayedText st) <? len (streamText st))
  then
    {| streamText := streamText st;
       displayedText := displayedText st;
       isComplete := isComplete st;
       frameRequested := true;
       finalSources := finalSources st;
       sessions := sessions st;
       isLoading := isLoading st;
       error := error st |}
  else
    {| streamText := streamText st;
       displayedText := displayedText st;
       isComplete := isComplete st;
       frameRequested := false;
       finalSources := finalSources st;
       sessions := updateSession sid (finalize (finalSources st)) (sessions st);
       isLoading := false;
       error := error st |}.

(** What happens to an exchange after [handleSendMessage] has set it up. *)
Inductive Event :=
| Frame                                   (* the browser runs the requested frame *)
| Chunk (chunk : text)                    (* the remote call delivers text *)
| Resolve (srcs : option (list Source))   (* the remote call returns *)
| Reject (message : option string)        (* the remote call throws; the
                                             message of the [Error], if it is one *)
| Titled (title : string).                (* [generateChatTitle] returns *)

Definition step (sid : string) (e : Event) (st : Exchange) : Exchange :=
  match e with
  | Frame => if frameRequested st then animateStream sid st else st
  | Chunk chunk =>
      match chunk with
      | [] => st
      | _ =>
          {| streamText := streamText st ++ chunk;
             displayedText := displayedText st;
             isComplete := isComplete st;
             frameRequested := frameRequested st;
             finalSources := finalSources st;
             sessions := sessions st;
             isLoading := isLoading st;
             error := error st |}
      end
  | Resolve srcs =>
      {| streamText := streamText st;
         displayedText := displayedText st;
         isComplete := true;
         frameRequested := frameRequested st;
         finalSources := srcs;
         sessions := sessions st;
         isLoading := isLoading st;
         error := error st |}
  | Reject message =>
      {| streamText := streamText st;
         displayedText := displayedText st;
         isComplete := true;
         frameRequested := false;
         finalSources := finalSources st;
         sessions :=
           updateSession sid
             (fun session =>
                with_messages session
                  (filter (fun m => streaming m = false) (messages session)))
             (sessions st);
         isLoading := false;
         error := Some (default "Failed to send message." message) |}
  | Titled title =>
      {| streamText := streamText st;
         displayedText := displayedText st;
         isComplete := isComplete st;
         frameRequested := frameRequested st;
         finalSources := finalSources st;
         sessions :=
           updateSession sid (fun s => with_name s title) (sessions st);
         isLoading := isLoading st;
         error := error st |}
  end.

(** The first part of [handleSendMessage], after its guards: the user's
    message and the placeholder are appended to the session, the buffers
    are empty and the first frame is requested. *)
Definition handleSendMessage_begin (sid : string) (userMessageText : text)
    (image : option string) (isThinkingMode : bool)
    (sessions0 : list ChatSession) : Exchange :=
  let sessions1 :=
    updateSession sid
      (fun session =>
         with_messages session
           (messages session ++
            [newMessage userMessageText image isThinkingMode]))
      sessions0 in
  let sessions2 :=
    updateSession sid
      (fun session => with_messages session (messages session ++ [placeholder]))
      sessions1 in
  {| streamText := [];
     displayedText := [];
     isComplete := false;
     frameRequested := true;
     finalSources := None;
     sessions := sessions2;
     isLoading := true;
     error := None |}.

(** The exchange after a sequence of events. *)
Definition run (sid : string) (events : list Event) (st : Exchange)
  : Exchange :=
  foldl (fun st e => step sid e st) st events.

End Chat.

(** ** components/Chat.tsx: playback of the live session's audio *)

Module LiveSession.

(** Times are counted in sample frames of the output audio context (24 kHz):
    its clock [currentTime] and the [duration] of a decoded buffer are both
    whole numbers of frames. *)

(** A call [source.start(startTime)] for a buffer of the given duration. *)
Record Started := { startTime : Z; duration : Z }.

(** [nextStartTimeRef.current], and the sources started so far, in order. *)
Record Playback := {
  nextStartTime : Z;
  started : list Started
}.

(** [useRef(0)]; [cleanupLiveSession] resets the cursor to 0 as well. *)
Definition initial : Playback := {| nextStartTime := 0; started := [] |}.

(** An inbound message that carries audio. *)
Record AudioMessage := {
  currentTime : Z;     (* [outputCtx.currentTime] when the message is handled *)
  bufferDuration : Z   (* [audioBuffer.duration] of the decoded chunk *)
}.

(** The audio part of [onmessage].  The handler of a message finishes before
    the next message is handled. *)
Definition onmessage (message : AudioMessage) (st : Playback) : Playback :=
  let next := Z.max (nextStartTime st) (currentTime message) in
  {| nextStartTime := next + bufferDuration message;
     started := started st ++
                [{| startTime := next; duration := bufferDuration message |}] |}.

(** The playback state after a sequence of audio messages of one session. *)
Definition session (messages : list AudioMessage) : Playback :=
  foldl (fun st m => onmessage m st) initial messages.

End LiveSession.

(** ** components/ImageGenerator.tsx: saving the history *)

Module ImageGenerator.

Record ImageGenerationResult := {
  id : string;
  prompt : string;
  aspectRatio : string;
  numImages : Z;
  images : list string;
  createdAt : Z
}.

(** A value thrown by [localStorage.setItem]. *)
Record Thrown := {
  isDOMException : bool;   (* [error instanceof DOMException] *)
  errorName : string       (* [error.name] *)
}.

(** The test of the [catch] block for quota errors. *)
Definition isQuotaExceeded (error : Thrown) : bool :=
  isDOMException error &&
  (bool_decide (errorName error = "QuotaExceededError") ||
   bool_decide (errorName error = "NS_ERROR_DOM_QUOTA_REACHED")).

Inductive ConsoleEntry :=
| warn_quota      (* "Local storage quota exceeded. Trimming history to fit." *)
| error_save (error : Thrown).
                  (* "Failed to save image generation history:" *)

(** What the save routine reads and writes: the value stored under
    ['imageGenerationHistory'], the arguments of the calls of [setItem] made
    so far, and the console. *)
Record Storage := {
  item : option (list ImageGenerationResult);
  setItemCalls : list (list ImageGenerationResult);
  console : list ConsoleEntry
}.

Definition called (data : list ImageGenerationResult) (st : Storage)
  : Storage :=
  {| item := item st; setItemCalls := setItemCalls st ++ [data];
     console := console st |}.

Definition stored (data : list ImageGenerationResult) (st : Storage)
  : Storage :=
  {| item := Some data; setItemCalls := setItemCalls st;
     console := console st |}.

Definition logged (entry : ConsoleEntry) (st : Storage) : Storage :=
  {| item := item st; setItemCalls := setItemCalls st;
     console := console st ++ [entry] |}.

Section SaveHistory.

(* The unfolding equation of the recursion is proved without functional
   extensionality. *)
#[local] Unset Equations With Funext.

(** What [localStorage.setItem('imageGenerationHistory', JSON.stringify(data))]
    does in the browser at hand: it stores the value ([None]) or throws. *)
Variable setItem : list ImageGenerationResult -> option Thrown.

Equations? saveHistoryWithRetry (data : list ImageGenerationResult)
    (st : Storage) : Storage by wf (length data) lt :=
  saveHistoryWithRetry data st with setItem data := {
    | None := stored data (called data st);
    | Some error with isQuotaExceeded error := {
      | true with data := {
        | [] := logged warn_quota (called [] st);
        | x :: rest :=
            (* data.slice(0, -1) *)
            saveHistoryWithRetry (removelast (x :: rest))
              (logged warn_quota (called (x :: rest) st)) };
      | false := logged (error_save error) (called data st) } }.
Proof.
  change (length (removelast (x :: rest)) < length (x :: rest))%nat.
  rewrite (app_removelast_last x (l := x :: rest)) at 2 by done.
  rewrite length_app. simpl. lia.
Qed.

(** The effect that saves the history whenever it changes. *)
Definition saveEffect (history : list ImageGenerationResult) (st : Storage)
  : Storage :=
  if (0 <? length history)%nat then saveHistoryWithRetry history st
  else {| item := None; setItemCalls := setItemCalls st;
          console := console st |}.

End SaveHistory.

(** [setHistory(prev => [newHistoryItem, ...prev].slice(0, 20))] *)
Definition addToHistory (newHistoryItem : ImageGenerationResult)
    (prev : list ImageGenerationResult) : list ImageGenerationResult :=
  take 20 (newHistoryItem :: prev).

End ImageGenerator.

(** ** Vocabulary of the properties *)

Section Vocabulary.
Import ProfileUtils.

(** The order Bronze < Silver < Gold < Emerald < Diamond. *)
Definition Rank_index (r : Rank) : Z :=
  match r with
  | Bronze => 0 | Silver => 1 | Gold => 2 | Emerald => 3 | Diamond => 4
  end.

Definition Rank_le (r1 r2 : Rank) : Prop := Rank_index r1 <= Rank_index r2.

(** A sequence of evaluations: each quiz result is evaluated, with the
    history it is evaluated against, on the badges the previous
    evaluation returned. *)
Definition evaluate_all (current : list BadgeName)
    (evaluations : list (QuizResult * list QuizResult)) : list BadgeName :=
  foldl (fun earned e => getNewBadges earned e.1 e.2) current evaluations.

(** [n] is an integer closest to the percentage [100 * tc / tq]. *)
Definition nearest_percent (n tc tq : Z) : Prop :=
  Z.abs (2 * (n * tq - 100 * tc)) <= tq.

(** The rounded percentage as the program computes it from the totals. *)
Definition percent (tc tq : Z) : Number.number :=
  Number.Math_round
    (Number.mul (Number.div (Number.of_Z tc) (Number.of_Z tq))
                (Number.of_Z 100)).

(** The integer a number holds, when it is one written canonically. *)
Definition integer_of (x : Number.number) : option Z :=
  match x with
  | S754_zero _ => Some 0
  | S754_finite s m e =>
      let n := cond_Zopp s (if 0 <=? e then Zpos m * 2 ^ e
                            else Zpos m / 2 ^ (- e)) in
      if bool_decide (Number.of_Z n = x) then Some n else None
  | _ => None
  end.

Definition percent_ok (tc tq : Z) : bool :=
  match integer_of (percent tc tq) with
  | Some n => Z.abs (2 * (n * tq - 100 * tc)) <=? tq
  | None => false
  end.

(** Totals for which the rounding is checked by evaluation: up to 10
    quizzes of [QUIZ_LENGTH] questions. *)
Definition checked_total : Z := 100.

Definition percent_table_ok : bool :=
  forallb (fun tq : nat =>
             forallb (fun tc : nat => percent_ok (Z.of_nat tc) (Z.of_nat tq))
                     (seq 0 (S tq)))
          (seq 1 (Z.to_nat checked_total)).

(** *** Shuffling *)

(** The indices a run of the loop of [shuffleArray] draws, entered with
    index [i]: one [j] in [0..i] for [i], then one in [0..i-1], down to
    index 1.  [index_draws i] lists all such sequences. *)
Fixpoint index_draws (i : nat) : list (list nat) :=
  match i with
  | O => [[]]
  | S i' => j ← seq 0 (S i); (fun js => j :: js) <$> index_draws i'
  end.

(** Values of [Math.random()] that make the loop on [n] elements draw the
    indices [js]: the [k]-th call, made at index [i = n - 1 - k], returns
    [j / (i + 1)]. *)
Definition random_of (n : nat) (js : list nat) : nat -> Q :=
  fun k => Z.of_nat (default O (js !! k)) # Pos.of_nat (n - k).

(** The indices the loop draws when entered with index [i] after [calls]
    calls of [Math.random()]. *)
Fixpoint drawn (random : nat -> Q) (calls : nat) (i : nat) : list nat :=
  match i with
  | O => []
  | S i' => Quiz.random_index (random calls) i :: drawn random (S calls) i'
  end.

(** The array the loop leaves when it draws the indices [js]. *)
Fixpoint shuffled {T : Type} (js : list nat) (i : nat) (a : list T)
  : list T :=
  match i, js with
  | S i', j :: js' => shuffled js' i' (Quiz.swap i j a)
  | _, _ => a
  end.

(** *** Streaming chat *)

(** The last message of the session of the exchange: the message the
    steps of [animateStream] write to.  It is the bot message of the
    exchange as long as nothing is appended after it (see
    [bot_message_of] for the bot message itself). *)
Definition rendered (sid : string) (st : Chat.Exchange)
  : option Chat.ChatMessage :=
  Chat.findSession sid (Chat.sessions st) ≫= fun s => last (Chat.messages s).

(** Its text (empty when there is none). *)
Definition rendered_content (sid : string) (st : Chat.Exchange) : Chat.text :=
  default [] (Chat.content <$> rendered sid st).

(** The text the remote call has delivered in a sequence of events. *)
Definition received (events : list Chat.Event) : Chat.text :=
  foldl (fun acc e => match e with Chat.Chunk c => acc ++ c | _ => acc end)
        [] events.

(** Events of an exchange in which the remote call does not fail. *)
Definition succeeds (e : Chat.Event) : Prop :=
  match e with Chat.Reject _ => False | _ => True end.

(** Events that happen while the remote call is pending. *)
Definition pending (e : Chat.Event) : Prop :=
  match e with Chat.Reject _ | Chat.Resolve _ => False | _ => True end.

(** The text still to be revealed. *)
Definition backlog (st : Chat.Exchange) : nat :=
  length (Chat.streamText st) - length (Chat.displayedText st).

(** The bot message of an exchange: the placeholder with the revealed text,
    streaming while frames are requested, final with its sources
    afterwards. *)
Definition bot_message (streamingNow : bool) (revealed : Chat.text)
    (srcs : option (list Chat.Source)) : Chat.ChatMessage :=
  if streamingNow then Chat.with_content Chat.placeholder revealed
  else Chat.finalized (Chat.with_content Chat.placeholder revealed) srcs.

(** The shape of the session during an exchange: the messages that were
    there, the user's message, and the bot message; the revealed text is a
    prefix of the received text. *)
Definition exchange_invariant (sid : string) (prior : list Chat.ChatMessage)
    (userMsg : Chat.ChatMessage) (st : Chat.Exchange) : Prop :=
  Chat.displayedText st `prefix_of` Chat.streamText st /\
  exists s srcs,
    Chat.findSession sid (Chat.sessions st) = Some s /\
    Chat.messages s =
      prior ++ [userMsg;
                bot_message (Chat.frameRequested st) (Chat.displayedText st)
                            srcs].

(** *** Audio scheduling *)

(** The sum of the durations of the first [k] buffers. *)
Definition durations_before (k : nat) (messages : list LiveSession.AudioMessage)
  : Z :=
  foldr Z.add 0 (LiveSession.bufferDuration <$> take k messages).

(** The schedule in which every buffer starts at the clock of the session's
    start plus the durations of the buffers before it. *)
Definition back_to_back_from (clock0 : Z)
    (messages : list LiveSession.AudioMessage) : Prop :=
  forall k s,
    LiveSession.started (LiveSession.session messages) !! k = Some s ->
    LiveSession.startTime s = clock0 + durations_before k messages.

(** The end of a started buffer. *)
Definition endTime (s : LiveSession.Started) : Z :=
  LiveSession.startTime s + LiveSession.duration s.

(** *** Saving the image history *)

(** The history without its [k] oldest entries (the history is kept newest
    first, so these are its last [k] elements). *)
Definition evicted (k : nat) (data : list ImageGenerator.ImageGenerationResult)
  : list ImageGenerator.ImageGenerationResult :=
  take (length data - k) data.

(** A history is newest first when no entry is older than a later one. *)
Definition newest_first (data : list ImageGenerator.ImageGenerationResult)
  : Prop :=
  forall i j x y,
    (i <= j)%nat -> data !! i = Some x -> data !! j = Some y ->
    ImageGenerator.createdAt y <= ImageGenerator.createdAt x.

End Vocabulary.

(** ** components/Profile.tsx: derived figures *)

Module Profile.
Import Constants ProfileUtils.

(** [accuracy], computed inline from the quiz history. *)
Definition accuracy (quizHistory : list QuizResult) : Number.number :=
  let totalCorrectAnswers := sum_score quizHistory in
  let totalQuestions := sum_total quizHistory in
  if totalQuestions >? 0
  then Number.Math_round
         (Number.mul
            (Number.div (Number.of_Z totalCorrectAnswers)
                        (Number.of_Z totalQuestions))
            (Number.of_Z 100))
  else Number.zero.

(** [pointsForNextLevel]: a missing or zero [nextLevelPoints] is falsy. *)
Definition pointsForNextLevel (u : User) : Z :=
  match nextLevelPoints (rank u) with
  | Some next => if next =? 0 then 0 else next - minPoints (rank u)
  | None => 0
  end.

Definition pointsInCurrentLevel (u : User) : Z :=
  totalPoints u - minPoints (rank u).

(** The figure of "... more points needed":
    [currentRankInfo.nextLevelPoints - user.totalPoints]. *)
Definition pointsNeeded (u : User) : option Z :=
  match nextLevelPoints (rank u) with
  | Some next => if next =? 0 then None else Some (next - totalPoints u)
  | None => None
  end.

(** [handleSave] without a new picture: [{ ...user, name, className }]. *)
Definition handleSave (newName newClassName : string) (u : User) : User :=
  {| id := id u; name := newName; email := email u;
     profilePicture := profilePicture u; className := Some newClassName;
     rank := rank u; totalPoints := totalPoints u; badges := badges u;
     progress := progress u |}.

End Profile.

(** *** Vocabulary: badges and results *)

Section BadgeVocabulary.
Import ProfileUtils.

(** What a quiz result, evaluated after [history], earns. *)
Definition earns (b : BadgeName) (latest : QuizResult)
    (history : list QuizResult) : Prop :=
  match b with
  | MathStar => subject latest = Math /\ scored_90_percent latest = true
  | GrammarPro => subject latest = English /\ scored_90_percent latest = true
  | QuizChamp => 10 <= Z.of_nat (length history) + 1
  | KnowledgeSeeker => 100 <= sum_score history + score latest
  end.

(** A sequence of quiz results, each with the value of [Date.now()] at the
    time it is added. *)
Definition addQuizResults (results : list (Z * QuizResult)) (st : App.State)
  : App.State :=
  foldl (fun st nr => App.addQuizResult nr.1 nr.2 st) st results.

(** The rank stored for a user is the rank of the user's points. *)
Definition rank_in_sync (u : User) : Prop :=
  rank u = getRank (totalPoints u).

End BadgeVocabulary.

(** ** App.tsx: custom topics and favorites *)

Module Topics.

Record CustomTopic := {
  id : string;
  name : string;
  color : string;
  icon : string;
  createdAt : Z
}.

(** What the add-topic dialog passes: a topic without [id] and [createdAt]. *)
Record NewTopic := {
  new_name : string;
  new_color : string;
  new_icon : string
}.

(** The part of the component state these handlers touch.  [favorites] is a
    [Record<string, boolean>]. *)
Record State := {
  customTopics : list CustomTopic;
  favorites : gmap string bool
}.

(** Truthiness of [favorites[id]]: a missing key reads [undefined]. *)
Definition isFavorite (favs : gmap string bool) (topicId : string) : bool :=
  default false (favs !! topicId).

(** [handleAddTopic]; [now1] and [now2] are the values of the two calls of
    [Date.now()]. *)
Definition handleAddTopic (topic : NewTopic) (now1 now2 : Z) (st : State)
  : State :=
  let newTopic :=
    {| id := "custom-" +:+ pretty now1;
       name := new_name topic; color := new_color topic;
       icon := new_icon topic; createdAt := now2 |} in
  {| customTopics := newTopic :: customTopics st;
     favorites := favorites st |}.

(** [handleDeleteTopic]; [confirmed] is the answer to [window.confirm]. *)
Definition handleDeleteTopic (confirmed : bool) (topicId : string)
    (st : State) : State :=
  if confirmed then
    {| customTopics := filter (fun t => id t <> topicId) (customTopics st);
       favorites := delete topicId (favorites st) |}
  else st.

(** [handleToggleFavorite]: [{ ...prev, [id]: !prev[id] }]. *)
Definition handleToggleFavorite (topicId : string) (st : State) : State :=
  {| customTopics := customTopics st;
     favorites := <[topicId := negb (isFavorite (favorites st) topicId)]>
                    (favorites st) |}.

End Topics.

(** ** components/Quiz.tsx: starting, answering and finishing a quiz *)

Module QuizFlow.

Record QuizQuestion := {
  question : string;
  options : list string;
  correctAnswer : string;
  explanation : string
}.

Section ShuffledValues.
Context {T : Type}.

(** The loop of [shuffleArray] on the elements of the new array, and the
    array [shuffleArray] returns, as values; [calls] counts the calls of
    [Math.random()] made before. *)
Fixpoint shuffle_values (random : nat -> Q) (calls : nat) (i : nat)
    (newArray : list T) : list T :=
  match i with
  | O => newArray
  | S i' =>
      let j := Quiz.random_index (random calls) i in
      shuffle_values random (S calls) i' (Quiz.swap i j newArray)
  end.

Definition shuffledArray (random : nat -> Q) (calls : nat) (array : list T)
  : list T :=
  shuffle_values random calls (length array - 1) array.

End ShuffledValues.

(** [{ ...question, options: shuffleArray(question.options) }], mapped over
    the questions in order. *)
Fixpoint shuffle_options (random : nat -> Q) (calls : nat)
    (qs : list QuizQuestion) : list QuizQuestion :=
  match qs with
  | [] => []
  | q :: rest =>
      {| question := question q;
         options := shuffledArray random calls (options q);
         correctAnswer := correctAnswer q;
         explanation := explanation q |}
      :: shuffle_options random (calls + (length (options q) - 1)) rest
  end.

(** [shuffledQuestions] of [startQuiz]. *)
Definition shuffledQuestions (random : nat -> Q)
    (originalQuestions : list QuizQuestion) : list QuizQuestion :=
  shuffle_options random (length originalQuestions - 1)
    (shuffledArray random 0 originalQuestions).

(** The values a [setTimeout] callback of [handleAnswer] has captured. *)
Record Closure := {
  c_answers : list (option string);    (* [newAnswers] *)
  c_index : nat;                       (* [currentQuestionIndex] *)
  c_questions : list QuizQuestion;     (* [questions] *)
  c_subject : option Subject           (* [subject] *)
}.

(** The component state of a running quiz.  [userAnswers] is an array that
    may have holes ([None]); [timers] are the pending callbacks, in the
    order they fire; [reported] are the results passed to
    [addQuizResult]. *)
Record State := {
  subject : option Subject;
  questions : list QuizQuestion;
  currentQuestionIndex : nat;
  userAnswers : list (option string);
  selectedOption : option string;
  showResults : bool;
  timers : list Closure;
  reported : list QuizResult
}.

(** The state [startQuiz] sets once the questions have arrived. *)
Definition startQuiz (random : nat -> Q) (selectedSubject : Subject)
    (originalQuestions : list QuizQuestion) (st : State) : State :=
  {| subject := Some selectedSubject;
     questions := shuffledQuestions random originalQuestions;
     currentQuestionIndex := 0;
     userAnswers := [];
     selectedOption := selectedOption st;
     showResults := false;
     timers := timers st;
     reported := reported st |}.

(** Truthiness of a [string | null]. *)
Definition truthy (s : option string) : bool :=
  match s with
  | Some s => negb (bool_decide (s = ""))
  | None => false
  end.

(** [a[i] = v] on an array with holes. *)
Definition write (i : nat) (v : string) (a : list (option string))
  : list (option string) :=
  if (i <? length a)%nat then <[i := Some v]> a
  else a ++ replicate (i - length a) None ++ [Some v].

Definition handleAnswer (answer : string) (st : State) : State :=
  if truthy (selectedOption st) then st
  else
    let newAnswers :=
      write (currentQuestionIndex st) answer (userAnswers st) in
    {| subject := subject st;
       questions := questions st;
       currentQuestionIndex := currentQuestionIndex st;
       userAnswers := newAnswers;
       selectedOption := Some answer;
       showResults := showResults st;
       timers := timers st ++
                 [{| c_answers := newAnswers;
                     c_index := currentQuestionIndex st;
                     c_questions := questions st;
                     c_subject := subject st |}];
       reported := reported st |}.

(** The [reduce] of [finishQuiz]: holes are skipped; reading
    [questions[index].correctAnswer] beyond the questions throws
    ([None]). *)
Fixpoint reduce_score (acc : Z) (index : nat)
    (answers : list (option string)) (qs : list QuizQuestion) : option Z :=
  match answers with
  | [] => Some acc
  | None :: rest => reduce_score acc (S index) rest qs
  | Some answer :: rest =>
      match qs !! index with
      | None => None
      | Some q =>
          reduce_score
            (if bool_decide (answer = correctAnswer q) then acc + 1 else acc)
            (S index) rest qs
      end
  end.

(** [finishQuiz(finalAnswers)] as called from the callback [c], at time
    [now]; a thrown error leaves the state as it is. *)
Definition finishQuiz (now : Z) (c : Closure) (st : State) : State :=
  match c_subject c with
  | None => st
  | Some subj =>
      match reduce_score 0 0 (c_answers c) (c_questions c) with
      | None => st
      | Some score =>
          {| subject := subject st;
             questions := questions st;
             currentQuestionIndex := currentQuestionIndex st;
             userAnswers := userAnswers st;
             selectedOption := selectedOption st;
             showResults := true;
             timers := timers st;
             reported :=
               reported st ++
               [Build_QuizResult subj score
                  (Z.of_nat (length (c_questions c))) now] |}
      end
  end.

(** The callback of [setTimeout] runs. *)
Definition timeout (now : Z) (st : State) : State :=
  match timers st with
  | [] => st
  | c :: rest =>
      let st :=
        {| subject := subject st;
           questions := questions st;
           currentQuestionIndex := currentQuestionIndex st;
           userAnswers := userAnswers st;
           selectedOption := None;
           showResults := showResults st;
           timers := rest;
           reported := reported st |} in
      if Z.of_nat (c_index c) <? Z.of_nat (length (c_questions c)) - 1
      then
        {| subject := subject st;
           questions := questions st;
           currentQuestionIndex := c_index c + 1;
           userAnswers := userAnswers st;
           selectedOption := selectedOption st;
           showResults := showResults st;
           timers := timers st;
           reported := reported st |}
      else finishQuiz now c st
  end.

Inductive Event :=
| Click (answer : string)
| Timeout (now : Z).

Definition step (e : Event) (st : State) : State :=
  match e with
  | Click answer => handleAnswer answer st
  | Timeout now => timeout now st
  end.

Definition run (events : list Event) (st : State) : State :=
  foldl (fun st e => step e st) st events.

End QuizFlow.

(** *** Vocabulary: quizzes *)

Section QuizVocabulary.
Import QuizFlow.

(** Two questions that differ at most in the order of their options. *)
Definition same_question (q' q : QuizQuestion) : Prop :=
  question q' = question q /\
  correctAnswer q' = correctAnswer q /\
  explanation q' = explanation q /\
  options q' ≡ₚ options q.

(** The number of answers that are the correct answer of their question. *)
Fixpoint correct_answers (answers : list string) (qs : list QuizQuestion)
  : Z :=
  match answers, qs with
  | answer :: answers', q :: qs' =>
      (if bool_decide (answer = correctAnswer q) then 1 else 0)
      + correct_answers answers' qs'
  | _, _ => 0
  end.

(** Answering one question: the click that counts, further clicks before
    the delay has passed, and the end of the delay. *)
Definition answer_round (r : string * list string * Z) : list Event :=
  Click r.1.1 :: (Click <$> r.1.2) ++ [Timeout r.2].

(** The quiz as [startQuiz] leaves it. *)
Definition fresh_quiz (s : Subject) (qs : list QuizQuestion) : State :=
  {| subject := Some s; questions := qs; currentQuestionIndex := 0;
     userAnswers := []; selectedOption := None; showResults := false;
     timers := []; reported := [] |}.

(** The state of a quiz on [qs] in which the answers [given] have been
    recorded and no click is pending. *)
Definition answered (s : Subject) (qs : list QuizQuestion)
    (given : list string) : State :=
  {| subject := Some s; questions := qs;
     currentQuestionIndex := length given;
     userAnswers := Some <$> given; selectedOption := None;
     showResults := false; timers := []; reported := [] |}.

End QuizVocabulary.

(** ** components/Chat.tsx: the session list and the live transcripts *)

Module ChatSessions.
Import Chat.

(** [onDeleteSession]: [setSessions(prev => prev.filter(s => s.id !== id))],
    applied to the sessions of a running exchange. *)
Definition onDeleteSession (sessionId : string) (st : Exchange) : Exchange :=
  {| streamText := streamText st;
     displayedText := displayedText st;
     isComplete := isComplete st;
     frameRequested := frameRequested st;
     finalSources := finalSources st;
     sessions := filter (fun s => id s <> sessionId) (sessions st);
     isLoading := isLoading st;
     error := error st |}.

(** The part of an inbound live message that carries transcripts: the text
    of [serverContent.outputTranscription] and of
    [serverContent.inputTranscription], when present, and
    [serverContent.turnComplete]. *)
Record ServerContent := {
  outputTranscription : option text;
  inputTranscription : option text;
  turnComplete : bool
}.

(** [currentInputTranscription.current], [currentOutputTranscription.current]
    and the calls [onTurnComplete(input, output)] made so far. *)
Record Transcripts := {
  currentInputTranscription : text;
  currentOutputTranscription : text;
  completedTurns : list (text * text)
}.

Section Transcription.

(** [!s.trim()]: the string is empty once trimmed. *)
Variable blank : text -> bool.

(** The transcript part of [onmessage]. *)
Definition onmessage (m : ServerContent) (st : Transcripts) : Transcripts :=
  let output :=
    match outputTranscription m with
    | Some t => currentOutputTranscription st ++ t
    | None => currentOutputTranscription st
    end in
  let input :=
    match inputTranscription m with
    | Some t => currentInputTranscription st ++ t
    | None => currentInputTranscription st
    end in
  if turnComplete m then
    let finalInput := input in
    let finalOutput := output in
    {| currentInputTranscription := [];
       currentOutputTranscription := [];
       completedTurns :=
         if negb (blank finalInput) && negb (blank finalOutput)
         then completedTurns st ++ [(finalInput, finalOutput)]
         else completedTurns st |}
  else
    {| currentInputTranscription := input;
       currentOutputTranscription := output;
       completedTurns := completedTurns st |}.

Definition onmessages (ms : list ServerContent) (st : Transcripts)
  : Transcripts :=
  foldl (fun st m => onmessage m st) st ms.

End Transcription.

(** [startSession] empties both buffers. *)
Definition startSession (st : Transcripts) : Transcripts :=
  {| currentInputTranscription := [];
     currentOutputTranscription := [];
     completedTurns := completedTurns st |}.

End ChatSessions.

(** *** Vocabulary: live transcripts *)

Section TranscriptVocabulary.
Import ChatSessions.

(** What was heard in a run of messages: the pieces of the input transcript
    and of the output transcript, each joined in order. *)
Definition heard (ms : list ServerContent) : Chat.text * Chat.text :=
  (mjoin (omap inputTranscription ms), mjoin (omap outputTranscription ms)).

(** A turn: messages of which the last one, and only the last one, signals
    [turnComplete]. *)
Definition is_turn (ms : list ServerContent) : Prop :=
  exists body m, ms = body ++ [m] /\ turnComplete m = true /\
                 Forall (fun m => turnComplete m = false) body.

End TranscriptVocabulary.

(** ** Arrays: [Array.prototype.sort] *)

Module JSArray.

Section Sort.
Context {A : Type}.

(** [a.sort(compareFn)].  The sort of ECMAScript is stable, and for a
    consistent comparator its result is determined: the elements in
    non-decreasing order, equal ones in their original order.  The model
    inserts each element, from the last to the first, before the first
    element it does not come after. *)
Fixpoint insert (compareFn : A -> A -> Z) (x : A) (l : list A) : list A :=
  match l with
  | [] => [x]
  | y :: l' =>
      if compareFn x y <=? 0 then x :: y :: l'
      else y :: insert compareFn x l'
  end.

Definition sort (compareFn : A -> A -> Z) (l : list A) : list A :=
  foldr (insert compareFn) [] l.

End Sort.

End JSArray.

(** ** components/ImageGenerator.tsx: the history view *)

Module HistoryView.
Import ImageGenerator.

Inductive SortOrder := newest | oldest.

(** The value of the aspect-ratio filter: ['All'] or a ratio. *)
Definition filteredHistory (history : list ImageGenerationResult)
    (historyFilterRatio : string) (historySortOrder : SortOrder)
  : list ImageGenerationResult :=
  JSArray.sort
    (fun a b =>
       match historySortOrder with
       | newest => createdAt b - createdAt a
       | oldest => createdAt a - createdAt b
       end)
    (filter (fun item => historyFilterRatio = "All" \/
                         aspectRatio item = historyFilterRatio)
            history).

(** [handleDeleteHistory] *)
Definition handleDeleteHistory (itemId : string)
    (prev : list ImageGenerationResult) : list ImageGenerationResult :=
  filter (fun item => id item <> itemId) prev.

End HistoryView.

(** *** Vocabulary: histories and sorting *)

Section HistoryVocabulary.
Import ImageGenerator.

(** Generated results added to the history one after the other. *)
Definition addAllToHistory (items prev : list ImageGenerationResult)
  : list ImageGenerationResult :=
  foldl (fun h item => addToHistory item h) prev items.

(** A comparator that orders consistently: swapping the arguments swaps the
    sign, and "not after" is transitive. *)
Definition consistent {A} (compareFn : A -> A -> Z) : Prop :=
  (forall a b, compareFn a b < 0 <-> 0 < compareFn b a) /\
  (forall a b c, compareFn a b <= 0 -> compareFn b c <= 0 ->
                 compareFn a c <= 0).

(** No element comes after a later one. *)
Definition ordered {A} (compareFn : A -> A -> Z) (l : list A) : Prop :=
  StronglySorted (fun a b => compareFn a b <= 0) l.

(** A list of results is oldest first when no entry is newer than a later
    one. *)
Definition oldest_first (data : list ImageGenerationResult) : Prop :=
  forall i j x y,
    (i <= j)%nat -> data !! i = Some x -> data !! j = Some y ->
    createdAt x <= createdAt y.

(** The results an aspect-ratio filter lets through, in stored order. *)
Definition of_ratio (historyFilterRatio : string)
    (history : list ImageGenerationResult) : list ImageGenerationResult :=
  filter (fun item => historyFilterRatio = "All" \/
                      aspectRatio item = historyFilterRatio) history.

(** The results created at a given time, in the order of the list. *)
Definition created_at (t : Z) (data : list ImageGenerationResult)
  : list ImageGenerationResult :=
  filter (fun item => createdAt item = t) data.

End HistoryVocabulary.


(** * components/Todo.tsx *)

Module Todo.

Inductive TaskPriority := High | Medium | Low.

#[global] Instance TaskPriority_eq_dec : EqDecision TaskPriority.
Proof. solve_decision. Defined.

Record Task := {
  id : string;
  text : string;
  completed : bool;
  createdAt : Z;
  priority : TaskPriority;
  reminder : option Z
}.

Inductive Filter := all | active | completed_only.

Record State := {
  tasks : list Task;
  newTaskText : string;
  newTaskPriority : TaskPriority
}.

Section Handlers.

(** [s.trim()] *)
Variable trim : string -> string.

(** [handleAddTask].  [Date.now()] is read twice, for the id and for
    the creation time. *)
Definition handleAddTask (now1 now2 : Z) (st : State) : State :=
  if String.eqb (trim (newTaskText st)) EmptyString then st
  else
    let newTask := {| id := pretty now1;
                      text := trim (newTaskText st);
                      completed := false;
                      createdAt := now2;
                      priority := newTaskPriority st;
                      reminder := None |} in
    {| tasks := newTask :: tasks st;
       newTaskText := EmptyString;
       newTaskPriority := Medium |}.

End Handlers.

Definition handleToggleTask (id' : string) (tasks : list Task) : list Task :=
  map (fun task =>
         if String.eqb (id task) id'
         then {| id := id task; text := text task;
                 completed := negb (completed task);
                 createdAt := createdAt task; priority := priority task;
                 reminder := reminder task |}
         else task)
      tasks.

Definition handleDeleteTask (id' : string) (tasks : list Task) : list Task :=
  filter (fun task => id task <> id') tasks.




Definition activeTasksCount (tasks : list Task) : Z :=
  Z.of_nat (length (filter (fun task => negb (completed task)) tasks)).

Definition completedTasksCount (tasks : list Task) : Z :=
  Z.of_nat (length (filter (fun task => completed task) tasks)).

Definition totalTasksCount (tasks : list Task) : Z :=
  Z.of_nat (length tasks).

Definition completionPercentage (tasks : list Task) : Number.number :=
  if totalTasksCount tasks =? 0 then Number.of_Z 0
  else Number.Math_round
         (Number.mul
            (Number.div (Number.of_Z (completedTasksCount tasks))
                        (Number.of_Z (totalTasksCount tasks)))
            (Number.of_Z 100)).

(** The callback of [tasks.filter] in [filteredTasks]. *)
Definition shown (filter' : Filter) (task : Task) : bool :=
  match filter' with
  | completed_only => completed task
  | active => negb (completed task)
  | all => true
  end.

Definition filteredTasks (filter' : Filter) (tasks : list Task) : list Task :=
  filter (fun task => shown filter' task) tasks.

End Todo.

(** *** Vocabulary: task lists *)

Section TaskVocabulary.
Import Todo.





End TaskVocabulary.

(** * components/Chat.tsx: feedback and the turns of a live session *)

Module ChatHandlers.
Import Chat.

(** The sessions of the chat and the id of the one shown. *)
Record View := {
  sessions : list ChatSession;
  activeSessionId : option string
}.



(** [{ role, content, modality: 'voice' }] *)
Definition voiceMessage (r : Role) (c : text) : ChatMessage :=
  {| role := r; content := c; isStreaming := None; imageUrl := None;
     modality := Some modality_voice; thinkingMode := None;
     feedback := None; sources := None |}.

(** The callback given to [useLiveSession], up to its timer.  [startSession]
    keeps the callback of the render it was called in, so [activeSessionId]
    is the id that was active when the live session was started, however
    the view has changed since.  [Date.now()] is read twice. *)
Definition onTurnComplete (activeSessionId' : option string) (now1 now2 : Z)
    (input output : text) (st : View) : View :=
  if negb (QuizFlow.truthy activeSessionId') then
    let newId := pretty now1 in
    let newSession := {| id := newId; name := "Live Conversation";
                         messages := []; createdAt := now2 |} in
    {| sessions := newSession :: sessions st;
       activeSessionId := Some newId |}
  else
    match activeSessionId' with
    | Some sid =>
        {| sessions :=
             updateSession sid
               (fun s => with_messages s
                           (messages s ++ [voiceMessage user input;
                                           voiceMessage model output]))
               (sessions st);
           activeSessionId := activeSessionId st |}
    | None => st
    end.

(** The callback of [setTimeout(..., 0)] of that turn, if one was set. *)
Definition onTurnComplete_timer (activeSessionId' : option string) (now1 : Z)
    (input output : text) (st : View) : View :=
  if negb (QuizFlow.truthy activeSessionId') then
    {| sessions :=
         updateSession (pretty now1)
           (fun s => with_messages s [voiceMessage user input;
                                      voiceMessage model output])
           (sessions st);
       activeSessionId := activeSessionId st |}
  else st.

(** A completed turn of a live session: the two readings of the clock and
    the two transcripts. *)
Record Turn := {
  now1 : Z;
  now2 : Z;
  input : text;
  output : text
}.

(** A turn whose timer runs before anything else touches the view. *)
Definition turn (activeSessionId' : option string) (st : View) (t : Turn)
  : View :=
  onTurnComplete_timer activeSessionId' (now1 t) (input t) (output t)
    (onTurnComplete activeSessionId' (now1 t) (now2 t) (input t) (output t)
       st).

Definition turns (activeSessionId' : option string) (ts : list Turn)
    (st : View) : View :=
  foldl (turn activeSessionId') st ts.

End ChatHandlers.

(** * components/Chat.tsx: an exchange with a live session beside it

    The live-voice button is not disabled while an answer is loading, and
    [handleSendMessage] does not look at the live session: the turns of a
    live session are delivered between the events of an exchange, and
    both write the sessions through [setSessions]. *)

Module ChatInterleaving.

(** What happens while an exchange is running: an event of the exchange,
    or a completed turn of the live session. *)
Inductive Event :=
| OfExchange (e : Chat.Event)
| LiveTurn (t : ChatHandlers.Turn).

(** [setSessions] called from outside the exchange. *)
Definition with_sessions (st : Chat.Exchange)
    (sessions' : list Chat.ChatSession) : Chat.Exchange :=
  {| Chat.streamText := Chat.streamText st;
     Chat.displayedText := Chat.displayedText st;
     Chat.isComplete := Chat.isComplete st;
     Chat.frameRequested := Chat.frameRequested st;
     Chat.finalSources := Chat.finalSources st;
     Chat.sessions := sessions';
     Chat.isLoading := Chat.isLoading st;
     Chat.error := Chat.error st |}.

(** One event, for the exchange of the session [sid], shown as the active
    one, beside a live session that was started when [liveSessionId] was
    the active id. *)
Definition step (sid : string) (liveSessionId : option string) (e : Event)
    (st : Chat.Exchange) : Chat.Exchange :=
  match e with
  | OfExchange e => Chat.step sid e st
  | LiveTurn t =>
      with_sessions st
        (ChatHandlers.sessions
           (ChatHandlers.turn liveSessionId
              {| ChatHandlers.sessions := Chat.sessions st;
                 ChatHandlers.activeSessionId := Some sid |}
              t))
  end.

Definition run (sid : string) (liveSessionId : option string)
    (events : list Event) (st : Chat.Exchange) : Chat.Exchange :=
  foldl (fun st e => step sid liveSessionId e st) st events.

End ChatInterleaving.

(** *** Vocabulary: the bot message of an exchange *)

Section InterleavingVocabulary.

(** The bot message of the exchange: the message that
    [handleSendMessage] put after the user's message, which follows the
    [prior] messages of the session. *)
Definition bot_message_of (sid : string) (prior : list Chat.ChatMessage)
    (st : Chat.Exchange) : option Chat.ChatMessage :=
  Chat.findSession sid (Chat.sessions st) ≫=
    fun s => Chat.messages s !! S (length prior).

(** Events in which the remote call does not fail and the turns of the
    live session, if any, belong to a live session started in the
    session of the exchange. *)
Definition undisturbed (e : ChatInterleaving.Event) : Prop :=
  match e with
  | ChatInterleaving.OfExchange e => succeeds e
  | ChatInterleaving.LiveTurn _ => True
  end.

(** The session of the exchange once something was appended after the bot
    message: the last message is not a bot message being streamed. *)
Definition overtaken (sid : string) (prior : list Chat.ChatMessage)
    (userMsg bot : Chat.ChatMessage) (st : Chat.Exchange) : Prop :=
  exists s later m,
    Chat.findSession sid (Chat.sessions st) = Some s /\
    Chat.messages s = prior ++ [userMsg; bot] ++ later ++ [m] /\
    (Chat.role m = Chat.model -> Chat.streaming m = false).

End InterleavingVocabulary.

(** * components/ChatHistorySidebar.tsx *)

Module ChatHistorySidebar.
Import Chat.

(** The object [groups]; its keys in the order they are inserted, which
    is the order [Object.entries] lists them in. *)
Record Groups := {
  Today : list ChatSession;
  Yesterday : list ChatSession;
  Previous_7_Days : list ChatSession;
  Older : list ChatSession
}.

Definition entries (groups : Groups) : list (string * list ChatSession) :=
  [("Today", Today groups); ("Yesterday", Yesterday groups);
   ("Previous 7 Days", Previous_7_Days groups); ("Older", Older groups)].

Section GroupedSessions.

(** [!searchQuery.trim()], and the callback of [sorted.filter]: whether the
    name or a message of the session contains the query. *)
Variable noQuery : bool.
Variable found : ChatSession -> bool.

(** The body of [filtered.forEach]. *)
Definition push (todayStart : Z) (groups : Groups) (session : ChatSession)
  : Groups :=
  let yesterdayStart := todayStart - 86400000 in
  let lastWeekStart := todayStart - 86400000 * 7 in
  if createdAt session >=? todayStart then
    {| Today := Today groups ++ [session]; Yesterday := Yesterday groups;
       Previous_7_Days := Previous_7_Days groups; Older := Older groups |}
  else if createdAt session >=? yesterdayStart then
    {| Today := Today groups; Yesterday := Yesterday groups ++ [session];
       Previous_7_Days := Previous_7_Days groups; Older := Older groups |}
  else if createdAt session >=? lastWeekStart then
    {| Today := Today groups; Yesterday := Yesterday groups;
       Previous_7_Days := Previous_7_Days groups ++ [session];
       Older := Older groups |}
  else
    {| Today := Today groups; Yesterday := Yesterday groups;
       Previous_7_Days := Previous_7_Days groups;
       Older := Older groups ++ [session] |}.

Definition filtered (sessions : list ChatSession) : list ChatSession :=
  let sorted := JSArray.sort (fun a b => createdAt b - createdAt a) sessions in
  if noQuery then sorted else filter (fun session => found session) sorted.

(** [groupedSessions]; [todayStart] is the local midnight before now. *)
Definition groupedSessions (todayStart : Z) (sessions : list ChatSession)
  : Groups :=
  foldl (push todayStart)
        {| Today := []; Yesterday := []; Previous_7_Days := [];
           Older := [] |}
        (filtered sessions).

Definition hasFilteredSessions (groups : Groups) : bool :=
  existsb (fun group => (0 <? length group)%nat) (map snd (entries groups)).

End GroupedSessions.

End ChatHistorySidebar.

(** *** Vocabulary: live turns *)

Section LiveTurnVocabulary.
Import Chat ChatHandlers.

(** The voice messages of completed turns, in order. *)
Definition spoken (ts : list Turn) : list ChatMessage :=
  ts ≫= fun t => [voiceMessage user (input t); voiceMessage model (output t)].

(** The session a turn gets when none was active. *)
Definition live_session (t : Turn) : ChatSession :=
  {| id := pretty (now1 t); name := "Live Conversation";
     messages := spoken [t]; createdAt := now2 t |}.

End LiveTurnVocabulary.

(** *** Vocabulary: the sidebar *)

Section SidebarVocabulary.
Import Chat ChatHistorySidebar.

(** The sessions of the sidebar in the order they are displayed, group
    after group. *)
Definition displayed (groups : Groups) : list ChatSession :=
  mjoin (map snd (entries groups)).

(** No session is older than a later one. *)
Definition sessions_newest_first (sessions : list ChatSession) : Prop :=
  forall i j a b,
    (i <= j)%nat -> sessions !! i = Some a -> sessions !! j = Some b ->
    createdAt b <= createdAt a.

(** The age, in whole days before the start of today, that a group
    stands for: from [since] days back up to [before] days back. *)
Definition created_within (todayStart : Z) (before since : option Z)
    (s : ChatSession) : Prop :=
  match since with
  | Some d => todayStart - 86400000 * d <= createdAt s
  | None => True
  end /\
  match before with
  | Some d => createdAt s < todayStart - 86400000 * d
  | None => True
  end.

End SidebarVocabulary.
(* ===================================================================== *)
(** * Part II: properties                                                 *)
(* ===================================================================== *)

(** ** Ranks *)

Section RankProperties.
Import Constants ProfileUtils.

Lemma getRank_cases (p : Z) :
  (p < 500 /\ getRank p = Bronze) \/
  (500 <= p < 1500 /\ getRank p = Silver) \/
  (1500 <= p < 3000 /\ getRank p = Gold) \/
  (3000 <= p < 5000 /\ getRank p = Emerald) \/
  (5000 <= p /\ getRank p = Diamond).
Proof.
  unfold getRank, minPoints.
  repeat match goal with
         | |- context [?a >=? ?b] => destruct (Z.geb_spec a b)
         end;
    repeat first [ split; [lia | reflexivity]
                 | left; split; [lia | reflexivity]
                 | right ].
Qed.

(** C1. [getRank] is a step function of the points: the five thresholds
    0, 500, 1500, 3000 and 5000 map to Bronze, Silver, Gold, Emerald and
    Diamond; a rank is returned exactly on the interval from its
    [minPoints] (for Bronze: from below) up to the next rank's; and it is
    monotone in the points. *)
Theorem getRank_step_monotone :
  (getRank 0 = Bronze /\ getRank 500 = Silver /\ getRank 1500 = Gold /\
   getRank 3000 = Emerald /\ getRank 5000 = Diamond) /\
  (forall p r,
      getRank p = r <->
      (r = Bronze \/ minPoints r <= p) /\
      match nextLevelPoints r with Some n => p < n | None => True end) /\
  (forall p1 p2, p1 <= p2 -> Rank_le (getRank p1) (getRank p2)).
Proof.
  split; [repeat split; reflexivity |]. split.
  - intros p r. split.
    + intros <-.
      destruct (getRank_cases p) as [[H ->]|[[H ->]|[[H ->]|[[H ->]|[H ->]]]]];
        simpl; split; try lia; auto.
    + intros [Hlo Hhi].
      destruct (getRank_cases p) as [[H ->]|[[H ->]|[[H ->]|[[H ->]|[H ->]]]]];
        destruct r; simpl in *; try reflexivity;
        try (destruct Hlo as [Hlo | Hlo]; [discriminate Hlo | lia]); lia.
  - intros p1 p2 Hle. unfold Rank_le.
    destruct (getRank_cases p1) as [[H1 ->]|[[H1 ->]|[[H1 ->]|[[H1 ->]|[H1 ->]]]]];
      destruct (getRank_cases p2) as [[H2 ->]|[[H2 ->]|[[H2 ->]|[[H2 ->]|[H2 ->]]]]];
      simpl; lia.
Qed.

Lemma getRank_step_monotone_witness :
  499 <= 500 /\ Rank_le (getRank 499) (getRank 500).
Proof.
  split; [lia |].
  apply (proj2 (proj2 getRank_step_monotone) 499 500). lia.
Defined.

End RankProperties.

(** ** Badges *)

Section BadgeProperties.
Import ProfileUtils.

Lemma Set_add_incl (x : BadgeName) (s : list BadgeName) : s ⊆ Set_add x s.
Proof.
  unfold Set_add. destruct (decide (x ∈ s)); [done |].
  intros y Hy. apply elem_of_app. by left.
Qed.

Lemma Set_add_elem (x : BadgeName) (s : list BadgeName) : x ∈ Set_add x s.
Proof.
  unfold Set_add. destruct (decide (x ∈ s)); [done |].
  apply elem_of_app. right. by apply list_elem_of_singleton.
Qed.

Lemma Set_new_fold (items acc : list BadgeName) :
  forall x, x ∈ acc \/ x ∈ items ->
            x ∈ foldl (fun s y => Set_add y s) acc items.
Proof.
  revert acc. induction items as [| b items IH]; intros acc x Hx; simpl.
  - destruct Hx as [Hx | Hx]; [done | by apply elem_of_nil in Hx].
  - apply IH. destruct Hx as [Hx | Hx].
    + left. by apply Set_add_incl.
    + apply elem_of_cons in Hx as [-> | Hx]; [left; apply Set_add_elem | by right].
Qed.

Lemma Set_new_incl (items : list BadgeName) : items ⊆ Set_new items.
Proof. intros x Hx. apply Set_new_fold. by right. Qed.

Lemma getNewBadges_incl current latest history :
  current ⊆ getNewBadges current latest history.
Proof.
  unfold getNewBadges.
  repeat match goal with
         | |- context [if ?c then _ else _] => destruct c
         end;
    repeat (etrans; [| apply Set_add_incl]); apply Set_new_incl.
Qed.

(** C2. Badge awarding is monotonic: the badges [getNewBadges] returns
    include every badge of its input, whatever the latest result and the
    history are; hence no badge disappears across any sequence of
    evaluations. *)
Theorem getNewBadges_monotone :
  (forall current latest history,
      current ⊆ getNewBadges current latest history) /\
  (forall evaluations current,
      current ⊆ evaluate_all current evaluations).
Proof.
  split; [apply getNewBadges_incl |].
  induction evaluations as [| e evaluations IH]; intros current; simpl.
  - done.
  - etrans; [apply getNewBadges_incl | apply IH].
Qed.

End BadgeProperties.

(** ** Accuracy *)

Section AccuracyProperties.
Import ProfileUtils.

Lemma percent_table : percent_table_ok = true.
Proof. vm_compute. reflexivity. Qed.

Lemma integer_of_sound x n :
  integer_of x = Some n -> n <> 0 -> x = Number.of_Z n.
Proof.
  destruct x as [s | s | | s m e]; simpl; try discriminate.
  - intros [= <-] H. done.
  - case_bool_decide as Heq; [| discriminate]. intros [= <-] _. by symmetry.
Qed.

Lemma percent_table_ok_eq :
  percent_table_ok =
    forallb (fun tq : nat =>
               forallb (fun tc : nat => percent_ok (Z.of_nat tc) (Z.of_nat tq))
                       (seq 0 (S tq)))
            (seq 1 (Z.to_nat checked_total)).
Proof. reflexivity. Qed.

Lemma percent_table_lookup (tq tc : nat) :
  In tq (seq 1 (Z.to_nat checked_total)) -> In tc (seq 0 (S tq)) ->
  percent_ok (Z.of_nat tc) (Z.of_nat tq) = true.
Proof.
  intros Hq Hc. pose proof percent_table as Htab.
  rewrite percent_table_ok_eq in Htab.
  rewrite forallb_forall in Htab. specialize (Htab tq Hq).
  rewrite forallb_forall in Htab. exact (Htab tc Hc).
Qed.

Lemma percent_nearest tc tq :
  0 <= tc <= tq -> 0 < tq <= checked_total ->
  exists n, integer_of (percent tc tq) = Some n /\ nearest_percent n tc tq.
Proof.
  intros Htc Htq.
  assert (Htab : percent_ok (Z.of_nat (Z.to_nat tc)) (Z.of_nat (Z.to_nat tq))
                 = true).
  { apply percent_table_lookup; apply in_seq; [| lia].
    split; [lia |].
    enough (Z.of_nat (Z.to_nat tq) < Z.of_nat (1 + Z.to_nat checked_total))
      by lia.
    rewrite Nat2Z.inj_add, !Z2Nat.id by (unfold checked_total; lia). lia. }
  rewrite !Z2Nat.id in Htab by lia.
  unfold percent_ok in Htab.
  destruct (integer_of (percent tc tq)) as [n |]; [| discriminate].
  exists n. split; [reflexivity |].
  unfold nearest_percent. by apply Z.leb_le.
Qed.




End AccuracyProperties.

(** ** Points and rank under [addQuizResult] *)

Section AppProperties.
Import Constants ProfileUtils App.

Lemma addQuizResult_user_some now result st u :
  user st = Some u ->
  exists u', user (addQuizResult now result st) = Some u' /\
             totalPoints u' = totalPoints u + 25 * score result /\
             rank u' = getRank (totalPoints u').
Proof.
  intros Hu. unfold addQuizResult, addQuizResult_user. simpl. rewrite Hu.
  eexists. split; [reflexivity |]. simpl. split; [lia | reflexivity].
Qed.

(** C6. For a quiz result with a non-negative score, [addQuizResult] never
    decreases the user's [totalPoints], and the stored [rank] of the updated
    user is [getRank] of the new [totalPoints]; a missing user stays
    missing. *)
Theorem addQuizResult_points_rank now result st :
  0 <= score result ->
  match user st, user (addQuizResult now result st) with
  | Some u, Some u' =>
      totalPoints u <= totalPoints u' /\
      rank u' = getRank (totalPoints u')
  | None, None => True
  | _, _ => False
  end.
Proof.
  intros Hscore. destruct (user st) as [u |] eqn:Hu.
  - destruct (addQuizResult_user_some now result st u Hu)
      as (u' & -> & Hpts & Hrank).
    split; [lia | exact Hrank].
  - unfold addQuizResult, addQuizResult_user. simpl. by rewrite Hu.
Qed.

Lemma addQuizResult_points_rank_witness :
  let r := {| subject := Math; score := 9; total := 10; date := 1 |} in
  let st := {| user := Some (defaultUser 0); quizHistory := [] |} in
  match user st, user (addQuizResult 2 r st) with
  | Some u, Some u' =>
      totalPoints u <= totalPoints u' /\ rank u' = getRank (totalPoints u')
  | None, None => True
  | _, _ => False
  end.
Proof.
  intros r st. apply (addQuizResult_points_rank 2 r st). simpl. lia.
Defined.

(** C10. [addQuizResult] adds exactly 25 points per correct answer to the
    user's [totalPoints], although the constants module declares
    [POINTS_PER_CORRECT_ANSWER] to be 100: for a non-zero score the new
    total is not the one that constant would give. *)
Theorem addQuizResult_25_per_correct_answer now result st :
  totalPoints <$> user (addQuizResult now result st) =
  (fun u => totalPoints u + 25 * score result) <$> user st /\
  POINTS_PER_CORRECT_ANSWER = 100 /\
  (forall u, user st = Some u -> score result <> 0 ->
             totalPoints <$> user (addQuizResult now result st) <>
             Some (totalPoints u + POINTS_PER_CORRECT_ANSWER * score result)).
Proof.
  unfold addQuizResult, addQuizResult_user, POINTS_PER_CORRECT_ANSWER.
  destruct (user st) as [u |]; simpl.
  - split; [f_equal; lia |]. split; [reflexivity |].
    intros u' [= <-] Hscore [= Heq]. lia.
  - split; [reflexivity |]. split; [reflexivity | discriminate].
Qed.

Lemma addQuizResult_25_per_correct_answer_witness :
  let r := {| subject := English; score := 7; total := 10; date := 1 |} in
  let st := {| user := Some (defaultUser 0); quizHistory := [] |} in
  totalPoints <$> user (addQuizResult 2 r st) = Some 300 /\
  totalPoints <$> user (addQuizResult 2 r st) <> Some 825.
Proof.
  intros r st.
  destruct (addQuizResult_25_per_correct_answer 2 r st) as (H1 & _ & H2).
  split; [exact H1 |]. apply (H2 (defaultUser 0)); [reflexivity |].
  simpl. lia.
Defined.

End AppProperties.

(** ** Quiz shuffling *)

Section ShuffleProperties.
Import Quiz.
Context {T : Type}.
Implicit Types (a : list T) (σ : gmap ref (list T)).

Lemma swap_length i j a : length (swap i j a) = length a.
Proof.
  unfold swap. destruct (a !! j), (a !! i); by rewrite ?length_insert.
Qed.

Lemma swap_lookup i j k a :
  (i < length a)%nat -> (j < length a)%nat ->
  swap i j a !! k =
  if decide (k = j) then a !! i else if decide (k = i) then a !! j else a !! k.
Proof.
  intros Hi Hj. unfold swap.
  destruct (lookup_lt_is_Some_2 a j Hj) as [x Hx].
  destruct (lookup_lt_is_Some_2 a i Hi) as [y Hy].
  rewrite Hx, Hy.
  destruct (decide (k = j)) as [-> | Hkj].
  - by rewrite list_lookup_insert_eq by (by rewrite length_insert).
  - rewrite list_lookup_insert_ne by done.
    destruct (decide (k = i)) as [-> | Hki].
    + by rewrite list_lookup_insert_eq.
    + by rewrite list_lookup_insert_ne.
Qed.

Lemma swap_Permutation i j a : swap i j a ≡ₚ a.
Proof.
  unfold swap.
  destruct (a !! j) as [x |] eqn:Hx; [| done].
  destruct (a !! i) as [y |] eqn:Hy; [| done].
  destruct (decide (i = j)) as [-> | Hij].
  - assert (x = y) as -> by congruence.
    by rewrite list_insert_insert_eq, list_insert_id.
  - symmetry. apply (Permutation_inj _ _).
    split; [by rewrite !length_insert |].
    exists (fun k => if decide (k = j) then i else if decide (k = i) then j else k).
    split.
    + intros k1 k2. repeat case_decide; intros; subst; congruence.
    + intros k.
      assert (Hi : (i < length a)%nat) by (by eapply lookup_lt_Some).
      assert (Hj : (j < length a)%nat) by (by eapply lookup_lt_Some).
      destruct (decide (k = j)) as [-> | Hkj].
      * rewrite list_lookup_insert_ne by done.
        rewrite list_lookup_insert_eq by done. done.
      * destruct (decide (k = i)) as [-> | Hki].
        -- rewrite list_lookup_insert_eq by (by rewrite length_insert). done.
        -- by rewrite !list_lookup_insert_ne by done.
Qed.

Lemma shuffled_length js i a : length (shuffled js i a) = length a.
Proof.
  revert js a. induction i as [| i IH]; intros [| j js] a; simpl; try done.
  by rewrite IH, swap_length.
Qed.

Lemma shuffled_Permutation js i a : shuffled js i a ≡ₚ a.
Proof.
  revert js a. induction i as [| i IH]; intros [| j js] a; simpl; try done.
  by rewrite IH, swap_Permutation.
Qed.

Lemma shuffle_loop_store random calls i newArray σ a :
  σ !! newArray = Some a ->
  shuffle_loop random calls i newArray σ =
  <[newArray := shuffled (drawn random calls i) i a]> σ.
Proof.
  revert calls σ a. induction i as [| i IH]; intros calls σ a Ha; simpl.
  - by rewrite insert_id.
  - erewrite IH by apply lookup_insert_eq.
    rewrite insert_insert_eq. unfold read. by rewrite Ha.
Qed.

Lemma shuffleArray_store random array σ :
  let a := read σ array in
  let newArray := fresh (dom σ) in
  shuffleArray random array σ =
  (newArray,
   <[newArray :=
       shuffled (drawn random 0 (length a - 1)) (length a - 1) a]> σ).
Proof.
  intros a newArray. unfold shuffleArray, spread. fold a newArray.
  f_equal. unfold read at 1. rewrite lookup_insert_eq. simpl.
  erewrite shuffle_loop_store by apply lookup_insert_eq.
  by rewrite insert_insert_eq.
Qed.

Lemma fresh_ref_unused σ : σ !! fresh (dom σ) = None.
Proof. apply not_elem_of_dom, is_fresh. Qed.

(** The copy is a new array, every array of the store is left as it was,
    and the new array holds a permutation of the input. *)
Lemma shuffleArray_permutation random array σ :
  let '(newArray, σ') := shuffleArray random array σ in
  σ !! newArray = None /\
  (forall r, r <> newArray -> σ' !! r = σ !! r) /\
  read σ' array = read σ array /\
  read σ' newArray ≡ₚ read σ array /\
  length (read σ' newArray) = length (read σ array).
Proof.
  rewrite shuffleArray_store.
  split; [apply fresh_ref_unused |].
  split; [intros r Hr; by rewrite lookup_insert_ne |].
  assert (Hnew : forall X, read (<[fresh (dom σ) := X]> σ) (fresh (dom σ)) = X).
  { intros X. unfold read. by rewrite lookup_insert_eq. }
  split.
  - destruct (decide (array = fresh (dom σ))) as [-> | Hne].
    + rewrite Hnew. unfold read. by rewrite fresh_ref_unused.
    + unfold read. by rewrite lookup_insert_ne.
  - rewrite Hnew. split; [apply shuffled_Permutation | apply shuffled_length].
Qed.

(** *** The indices drawn *)

Lemma random_index_range (r : Q) (i : nat) :
  (0 <= r)%Q -> (r < 1)%Q -> (random_index r i <= i)%nat.
Proof.
  intros H0 H1. unfold random_index.
  set (n := Z.of_nat i + 1).
  assert (Hn : (0 < inject_Z n)%Q).
  { change 0%Q with (inject_Z 0). rewrite <- Zlt_Qlt. lia. }
  assert (Hlt : (r * inject_Z n < inject_Z n)%Q).
  { rewrite <- (Qmult_1_l (inject_Z n)) at 2.
    by apply Qmult_lt_compat_r. }
  assert (Hfl : Qfloor (r * inject_Z n) < n).
  { rewrite Zlt_Qlt. eapply Qle_lt_trans; [apply Qfloor_le | exact Hlt]. }
  lia.
Qed.

Lemma random_index_fraction (j i : nat) :
  random_index (Z.of_nat j # Pos.of_nat (S i)) i = j.
Proof.
  unfold random_index. unfold Qmult, inject_Z, Qfloor. simpl Qnum. simpl Qden.
  rewrite Pos.mul_1_r.
  replace (Z.pos (Pos.of_nat (S i))) with (Z.of_nat i + 1)
    by (rewrite <- Pos.of_nat_succ, Zpos_P_of_succ_nat; lia).
  rewrite Z.div_mul by lia. apply Nat2Z.id.
Qed.

Lemma index_draws_S i :
  index_draws (S i) =
  seq 0 (S (S i)) ≫= fun j => (fun js => j :: js) <$> index_draws i.
Proof. reflexivity. Qed.

Lemma index_draws_length i js : js ∈ index_draws i -> length js = i.
Proof.
  revert js. induction i as [| i IH]; intros js.
  - intros ->%list_elem_of_singleton. done.
  - rewrite index_draws_S. intros (j & Hjs & _)%list_elem_of_bind.
    apply list_elem_of_fmap in Hjs as (js' & -> & Hjs'). simpl.
    by rewrite (IH js').
Qed.

Lemma drawn_random_of i : forall n calls pre js,
  length pre = calls -> n = (calls + S i)%nat -> length js = i ->
  drawn (random_of n (pre ++ js)) calls i = js.
Proof.
  induction i as [| i IH]; intros n calls pre js Hpre Hn Hjs; simpl.
  - by destruct js.
  - destruct js as [| j js]; [done |]. f_equal.
    + unfold random_of at 1.
      rewrite lookup_app_r by lia.
      replace (calls - length pre)%nat with O by lia. simpl.
      replace (n - calls)%nat with (S (S i)) by lia.
      apply random_index_fraction.
    + rewrite (cons_middle j pre js), app_assoc.
      apply IH; [rewrite length_app; simpl; lia | lia | by inversion Hjs].
Qed.

Lemma length_index_draws i : length (index_draws i) = fact (S i).
Proof.
  induction i as [| i IH]; [done |].
  rewrite index_draws_S.
  generalize (seq 0 (S (S i))) (length_seq (S (S i)) 0).
  intros l Hl.
  assert (H : length (l ≫= fun j => (fun js => j :: js) <$> index_draws i)
              = (length l * fact (S i))%nat).
  { clear Hl. induction l as [| j l IHl]; [done |].
    rewrite bind_cons, length_app, length_fmap, IHl, IH. simpl. lia. }
  rewrite H, Hl. reflexivity.
Qed.

(** *** Counting the runs that put an element at a position *)

Lemma length_filter_bind {A B} (P : B -> Prop) `{!forall x, Decision (P x)}
    (f : A -> list B) (l : list A) :
  length (filter P (l ≫= f)) =
  sum_list ((fun x => length (filter P (f x))) <$> l).
Proof.
  induction l as [| x l IH]; [done |].
  rewrite bind_cons, filter_app, length_app, IH. done.
Qed.

Lemma length_filter_fmap {A B} (P : B -> Prop) `{!forall x, Decision (P x)}
    (g : A -> B) (l : list A) :
  length (filter P (g <$> l)) = length (filter (fun x => P (g x)) l).
Proof.
  induction l as [| x l IH]; [done |]. rewrite fmap_cons, !filter_cons.
  destruct (decide (P (g x))); simpl; by rewrite IH.
Qed.

Lemma length_filter_all {A} (P : A -> Prop) `{!forall x, Decision (P x)}
    (l : list A) :
  (forall x, x ∈ l -> P x) -> length (filter P l) = length l.
Proof.
  induction l as [| x l IH]; intros HP; [done |].
  rewrite filter_cons_True by (apply HP; left). simpl.
  rewrite IH; [done |]. intros y Hy. apply HP. by right.
Qed.

Lemma length_filter_none {A} (P : A -> Prop) `{!forall x, Decision (P x)}
    (l : list A) :
  (forall x, x ∈ l -> ~ P x) -> length (filter P l) = O.
Proof.
  induction l as [| x l IH]; intros HP; [done |].
  rewrite filter_cons_False by (apply HP; left).
  apply IH. intros y Hy. apply HP. by right.
Qed.

Lemma length_filter_ext_in {A} (P Q : A -> Prop)
    `{!forall x, Decision (P x)} `{!forall x, Decision (Q x)} (l : list A) :
  (forall x, x ∈ l -> P x <-> Q x) ->
  length (filter P l) = length (filter Q l).
Proof.
  induction l as [| x l IH]; intros HPQ; [done |].
  rewrite !filter_cons.
  assert (Hx : P x <-> Q x) by (apply HPQ; left).
  assert (Hl : length (filter P l) = length (filter Q l)).
  { apply IH. intros y Hy. apply HPQ. by right. }
  destruct (decide (P x)), (decide (Q x)); simpl; tauto || by rewrite Hl.
Qed.

Lemma sum_list_indicator (p c1 c2 : nat) : forall n s,
  sum_list ((fun j => if decide (j = p) then c1 else c2) <$> seq s n) =
  if decide (s <= p < s + n)%nat then (c1 + (n - 1) * c2)%nat
  else (n * c2)%nat.
Proof.
  induction n as [| n IH]; intros s; simpl.
  - case_decide; lia.
  - rewrite IH. repeat case_decide; nia.
Qed.

Lemma index_draws_cons j js i :
  j :: js ∈ index_draws (S i) <-> (j <= S i)%nat /\ js ∈ index_draws i.
Proof.
  rewrite index_draws_S, list_elem_of_bind. split.
  - intros (j' & Hjs & Hj').
    apply list_elem_of_fmap in Hjs as (js' & [= -> ->] & Hjs').
    apply elem_of_seq in Hj'. split; [lia | done].
  - intros [Hj Hjs]. exists j. split.
    + apply list_elem_of_fmap. by exists js.
    + apply elem_of_seq. lia.
Qed.

Lemma shuffled_above i : forall js a k,
  js ∈ index_draws i -> (i < length a)%nat -> (i < k)%nat ->
  shuffled js i a !! k = a !! k.
Proof.
  induction i as [| i IH]; intros js a k Hjs Hi Hk.
  - by destruct js.
  - destruct js as [| j js]; [done |].
    apply index_draws_cons in Hjs as [Hj Hjs]. simpl.
    rewrite IH by (rewrite ?swap_length; done || lia).
    rewrite swap_lookup by lia.
    repeat case_decide; done || lia.
Qed.

Context `{!EqDecision T}.

Lemma count_lands i : forall a x p q,
  NoDup a -> (i < length a)%nat -> a !! p = Some x ->
  (p <= i)%nat -> (q <= i)%nat ->
  length (filter (fun js => shuffled js i a !! q = Some x) (index_draws i))
  = fact i.
Proof.
  induction i as [| i IH]; intros a x p q Hnd Hi Hp Hpi Hqi.
  - assert (p = O) as -> by lia. assert (q = O) as -> by lia.
    simpl. rewrite filter_cons_True by done. done.
  - rewrite index_draws_S, length_filter_bind.
    erewrite list_fmap_ext; last first.
    { intros _ j _. rewrite length_filter_fmap. simpl. reflexivity. }
    assert (Htop : forall j, (j <= S i)%nat -> swap (S i) j a !! S i = a !! j).
    { intros j Hj. rewrite swap_lookup by lia.
      repeat case_decide; subst; done. }
    assert (Hnd' : forall j, NoDup (swap (S i) j a)).
    { intros j. by rewrite swap_Permutation. }
    destruct (decide (q = S i)) as [-> | Hq].
    + (* the top position: [x] lands there exactly when [j = p] *)
      erewrite list_fmap_ext with
        (g := fun j => if decide (j = p) then length (index_draws i) else O);
        last first.
      { intros k j Hj. apply lookup_seq in Hj as [-> Hk]. simpl.
        case_decide as Hjp.
        - subst. apply length_filter_all. intros js Hjs.
          rewrite shuffled_above by (rewrite ?swap_length; done || lia).
          rewrite Htop by lia. done.
        - apply length_filter_none. intros js Hjs.
          rewrite shuffled_above by (rewrite ?swap_length; done || lia).
          rewrite Htop by lia. intros Hk'.
          apply Hjp. by eapply NoDup_lookup. }
      rewrite sum_list_indicator, length_index_draws.
      case_decide; simpl in *; lia.
    + (* a lower position: [x] must stay below the top, so [j <> p] *)
      erewrite list_fmap_ext with
        (g := fun j => if decide (j = p) then O else fact i); last first.
      { intros k j Hj. apply lookup_seq in Hj as [-> Hk]. simpl.
        case_decide as Hjp.
        - subst. apply length_filter_none. intros js Hjs Hland.
          assert (Hx : shuffled js i (swap (S i) p a) !! S i = Some x).
          { rewrite shuffled_above by (rewrite ?swap_length; done || lia).
            rewrite Htop by lia. done. }
          apply Hq. eapply NoDup_lookup; [| exact Hland | exact Hx].
          rewrite shuffled_Permutation. apply Hnd'.
        - apply (IH _ _ (if decide (p = S i) then k else p));
            [apply Hnd' | rewrite swap_length; lia | | case_decide; lia | lia].
          rewrite swap_lookup by lia.
          repeat case_decide; subst; done || lia. }
      rewrite sum_list_indicator.
      case_decide; simpl in *; lia.
Qed.

Lemma random_index_interval (r : Q) (i j : nat) :
  (0 <= r)%Q ->
  random_index r i = j <->
  (inject_Z (Z.of_nat j) <= r * inject_Z (Z.of_nat i + 1))%Q /\
  (r * inject_Z (Z.of_nat i + 1) < inject_Z (Z.of_nat j + 1))%Q.
Proof.
  intros Hr. unfold random_index.
  set (y := (r * inject_Z (Z.of_nat i + 1))%Q).
  assert (Hy : (0 <= y)%Q).
  { apply Qmult_le_0_compat; [done |].
    change 0%Q with (inject_Z 0). rewrite <- Zle_Qle. lia. }
  assert (Hfl : 0 <= Qfloor y).
  { rewrite <- (Qfloor_Z 0). by apply Qfloor_resp_le. }
  split.
  - intros <-. rewrite Z2Nat.id by done.
    split; [apply Qfloor_le | apply Qlt_floor].
  - intros [Hlo Hhi].
    assert (Z.of_nat j <= Qfloor y).
    { rewrite <- (Qfloor_Z (Z.of_nat j)). by apply Qfloor_resp_le. }
    assert (Qfloor y < Z.of_nat j + 1).
    { rewrite Zlt_Qlt. eapply Qle_lt_trans; [apply Qfloor_le | exact Hhi]. }
    lia.
Qed.

(** C7. [shuffleArray] returns a new array that holds a permutation of the
    input array (same elements with the same multiplicities, same length),
    and leaves the input array and every other array as they were.  Each
    value of [Math.random()] in [0, 1) selects an index [j <= i], the index
    [j] being selected on the interval [j <= r * (i + 1) < j + 1]; and over
    the [n!] equally likely sequences of selected indices, each element of
    an [n]-element array of distinct elements lands at each position in
    exactly [(n - 1)!] of them, that is with probability [1 / n]. *)
Theorem shuffleArray_permutation_uniform :
  (forall random array σ,
      let newArray := (shuffleArray random array σ).1 in
      let σ' := (shuffleArray random array σ).2 in
      σ !! newArray = None /\
      (forall r, r <> newArray -> σ' !! r = σ !! r) /\
      read σ' array = read σ array /\
      read σ' newArray ≡ₚ read σ array /\
      length (read σ' newArray) = length (read σ array)) /\
  (forall (r : Q) (i : nat),
      (0 <= r)%Q -> (r < 1)%Q ->
      (random_index r i <= i)%nat /\
      forall j, random_index r i = j <->
                (inject_Z (Z.of_nat j) <= r * inject_Z (Z.of_nat i + 1))%Q /\
                (r * inject_Z (Z.of_nat i + 1) < inject_Z (Z.of_nat j + 1))%Q) /\
  (forall array σ x q,
      let a := read σ array in
      let n := length a in
      NoDup a -> x ∈ a -> (q < n)%nat ->
      length (index_draws (n - 1)) = fact n /\
      length
        (filter
           (fun js =>
              let out := shuffleArray (random_of n js) array σ in
              read out.2 out.1 !! q = Some x)
           (index_draws (n - 1)))
      = fact (n - 1)).
Proof.
  split; [| split].
  - intros random array σ.
    pose proof (shuffleArray_permutation random array σ) as H.
    destruct (shuffleArray random array σ) as [newArray σ']. exact H.
  - intros r i H0 H1. split; [by apply random_index_range |].
    intros j. by apply random_index_interval.
  - intros array σ x q a n Hnd Hx Hq.
    apply list_elem_of_lookup in Hx as [p Hp].
    assert (Hpn : (p < n)%nat) by (by eapply lookup_lt_Some).
    split.
    { rewrite length_index_draws. f_equal. lia. }
    rewrite <- (count_lands (n - 1) a x p q) by (done || lia).
    apply length_filter_ext_in. intros js Hjs.
    assert (Hjs' : drawn (random_of n js) 0 (n - 1) = js).
    { apply (drawn_random_of (n - 1) n 0 [] js);
        [done | lia | by apply index_draws_length]. }
    rewrite shuffleArray_store. cbn [fst snd]. fold a n. rewrite Hjs'.
    unfold read at 1. by rewrite lookup_insert_eq.
Qed.

End ShuffleProperties.

Lemma shuffleArray_permutation_uniform_witness :
  let σ : gmap Quiz.ref (list nat) := {[ 1%positive := [10; 20; 30]%nat ]} in
  length
    (filter
       (fun js =>
          let out := Quiz.shuffleArray (random_of 3 js) 1%positive σ in
          Quiz.read out.2 out.1 !! 0%nat = Some 20%nat)
       (index_draws 2))
  = 2%nat.
Proof.
  intros σ.
  refine (proj2 (proj2 (proj2 shuffleArray_permutation_uniform)
                   1%positive σ 20%nat 0%nat _ _ _)).
  - exact (bool_decide_unpack (NoDup [10; 20; 30]%nat) I).
  - exact (bool_decide_unpack (20%nat ∈ [10; 20; 30]%nat) I).
  - vm_compute. lia.
Defined.

(** ** Streaming chat *)

Section ChatProperties.
Import Chat.
Implicit Types (st : Exchange) (e : Event) (events : list Event).

Ltac simpl_exchange :=
  cbn [streamText displayedText isComplete frameRequested finalSources
       sessions isLoading error] in *.

Lemma findSession_updateSession sid f ss :
  (forall s, id (f s) = id s) ->
  findSession sid (updateSession sid f ss) = f <$> findSession sid ss.
Proof.
  intros Hid. unfold findSession, updateSession.
  induction ss as [| s ss IH]; [done |]. simpl.
  destruct (bool_decide (id s = sid)) eqn:Hs.
  - apply bool_decide_eq_true in Hs.
    rewrite bool_decide_true by (by rewrite Hid). done.
  - rewrite Hs. exact IH.
Qed.

Lemma last_two {A} (l : list A) x y : last (l ++ [x; y]) = Some y.
Proof. change (l ++ [x; y]) with (l ++ [x] ++ [y]). by rewrite app_assoc, last_snoc. Qed.

Lemma removelast_two {A} (l : list A) x y : removelast (l ++ [x; y]) = l ++ [x].
Proof.
  change (l ++ [x; y]) with (l ++ [x] ++ [y]).
  by rewrite app_assoc, removelast_last.
Qed.

Lemma insert_last_two {A} (l : list A) x y z :
  <[(length (l ++ [x; y]) - 1)%nat := z]> (l ++ [x; y]) = l ++ [x; z].
Proof.
  rewrite length_app. simpl.
  replace (length l + 2 - 1)%nat with (length l + 1)%nat by lia.
  rewrite insert_app_r. done.
Qed.

Lemma received_snoc events e :
  received (events ++ [e]) =
  match e with Chunk c => received events ++ c | _ => received events end.
Proof. unfold received. by rewrite foldl_snoc. Qed.

Lemma run_snoc sid events e st :
  run sid (events ++ [e]) st = step sid e (run sid events st).
Proof. unfold run. by rewrite foldl_snoc. Qed.

Lemma rendered_invariant sid prior userMsg st :
  exchange_invariant sid prior userMsg st ->
  exists srcs,
    rendered sid st =
    Some (bot_message (frameRequested st) (displayedText st) srcs).
Proof.
  intros (_ & s & srcs & Hs & Hmsgs). exists srcs.
  unfold rendered. rewrite Hs. simpl. rewrite Hmsgs. apply last_two.
Qed.

Lemma rendered_content_invariant sid prior userMsg st :
  exchange_invariant sid prior userMsg st ->
  rendered_content sid st = displayedText st.
Proof.
  intros [srcs Hr]%rendered_invariant. unfold rendered_content.
  rewrite Hr. unfold bot_message. by destruct (frameRequested st).
Qed.

Lemma handleSendMessage_begin_invariant sid userMessageText image thinking
    sessions0 s0 :
  findSession sid sessions0 = Some s0 ->
  exchange_invariant sid (messages s0)
    (newMessage userMessageText image thinking)
    (handleSendMessage_begin sid userMessageText image thinking sessions0).
Proof.
  intros Hs0. split; [done |]. simpl.
  rewrite !findSession_updateSession by done. rewrite Hs0. simpl.
  eexists _, None. split; [reflexivity |]. simpl.
  by rewrite <- (assoc_L (++)).
Qed.

Lemma prefix_take_ge (d s : text) n :
  d `prefix_of` s -> (length d <= n)%nat -> d `prefix_of` take n s.
Proof.
  intros [k ->] Hn. rewrite take_app.
  rewrite take_ge by done. by apply prefix_app_r.
Qed.

Lemma reveal_streaming (s : ChatSession) prior userMsg bot next :
  messages s = prior ++ [userMsg; bot] ->
  role bot = model -> streaming bot = true ->
  reveal next s =
  with_messages s (prior ++ [userMsg; with_content bot next]).
Proof.
  intros Hmsgs Hrole Hstr. unfold reveal.
  rewrite Hmsgs, last_two, Hrole, Hstr, bool_decide_true by done. simpl.
  by rewrite insert_last_two.
Qed.

Lemma finalize_last (s : ChatSession) prior userMsg bot srcs :
  messages s = prior ++ [userMsg; bot] ->
  finalize srcs s =
  with_messages s (prior ++ [userMsg; finalized bot srcs]).
Proof.
  intros Hmsgs. unfold finalize.
  rewrite Hmsgs, last_two, removelast_two. by rewrite <- (assoc_L (++)).
Qed.

(** One frame: the revealed text grows within the received text, and the
    session keeps its shape. *)
Lemma animateStream_invariant sid prior userMsg st :
  exchange_invariant sid prior userMsg st ->
  frameRequested st = true ->
  exchange_invariant sid prior userMsg (animateStream sid st) /\
  streamText (animateStream sid st) = streamText st /\
  displayedText st `prefix_of` displayedText (animateStream sid st) /\
  (backlog (animateStream sid st) <= backlog st - 1)%nat /\
  isComplete (animateStream sid st) = isComplete st /\
  frameRequested (animateStream sid st) =
    negb (isComplete st) || negb (backlog (animateStream sid st) =? 0)%nat /\
  (frameRequested (animateStream sid st) = false ->
   isLoading (animateStream sid st) = false /\
   displayedText (animateStream sid st) = streamText st /\
   (rendered sid (animateStream sid st)) ≫= sources = finalSources st).
Proof.
  intros (Hpre & s & srcs & Hs & Hmsgs) Hreq.
  rewrite Hreq in Hmsgs. simpl in Hmsgs.
  set (bot := with_content placeholder (displayedText st)) in *.
  pose proof (prefix_length _ _ Hpre) as Hlen.
  unfold animateStream, backlog, len.
  destruct (Z.ltb_spec (Z.of_nat (length (displayedText st)))
                       (Z.of_nat (length (streamText st)))) as [Hlt | Hge].
  - (* text is revealed *)
    set (chunk := Z.max 1 _).
    set (next := slice0 (streamText st) _).
    assert (Hchunk : 1 <= chunk) by (unfold chunk; lia).
    assert (Hnext : displayedText st `prefix_of` next).
    { apply prefix_take_ge; [done | lia]. }
    assert (Hnext' : next `prefix_of` streamText st) by apply prefix_take.
    assert (Hnlen : (length (displayedText st) < length next)%nat).
    { unfold next, slice0. rewrite length_take. lia. }
    pose proof (prefix_length _ _ Hnext') as Hlen'.
    assert (Hs' : findSession sid (updateSession sid (reveal next) (sessions st))
                  = Some (with_messages s
                            (prior ++ [userMsg; with_content bot next]))).
    { rewrite findSession_updateSession.
      - rewrite Hs. simpl. f_equal. by erewrite reveal_streaming by done.
      - intros s1. unfold reveal.
        destruct (last (messages s1)); [| done]. by case_match. }
    simpl_exchange.
    destruct (isComplete st) eqn:Hc; cbn [negb orb].
    + destruct (Z.ltb_spec (Z.of_nat (length next))
                           (Z.of_nat (length (streamText st)))) as [Hlt' | Hge'].
      * simpl_exchange.
        repeat split; try done; try lia.
        -- eexists _, None. split; [exact Hs' |]. by simpl.
        -- destruct (Nat.eqb_spec (length (streamText st) - length next) 0);
             [lia | done].
      * assert (Heq : next = streamText st)
          by (apply prefix_length_eq; [done | lia]).
        simpl_exchange.
        assert (Hs'' : findSession sid
                         (updateSession sid (finalize (finalSources st))
                            (updateSession sid (reveal next) (sessions st)))
                = Some (with_messages s
                          (prior ++ [userMsg;
                                     finalized (with_content bot next)
                                               (finalSources st)]))).
        { rewrite findSession_updateSession.
          - rewrite Hs'. simpl. f_equal.
            by erewrite finalize_last by reflexivity.
          - intros s1. unfold finalize. by destruct (last (messages s1)). }
        repeat split; try done; try lia.
        -- eexists _, _. split; [exact Hs'' |]. by simpl.
        -- by rewrite Heq, Nat.sub_diag.
        -- unfold rendered. simpl_exchange. rewrite Hs''. simpl.
           by rewrite last_two.
    + simpl_exchange.
      repeat split; try done; try lia.
      eexists _, None. split; [exact Hs' |]. by simpl.
  - (* nothing to reveal *)
    assert (Heq : displayedText st = streamText st)
      by (apply prefix_length_eq; [done | lia]).
    destruct (isComplete st) eqn:Hc; cbn [negb orb].
    + destruct (Z.ltb_spec (Z.of_nat (length (displayedText st)))
                           (Z.of_nat (length (streamText st)))); [lia |].
      simpl_exchange.
      assert (Hs'' : findSession sid
                       (updateSession sid (finalize (finalSources st))
                          (sessions st))
              = Some (with_messages s
                        (prior ++ [userMsg;
                                   finalized bot (finalSources st)]))).
      { rewrite findSession_updateSession.
        - rewrite Hs. simpl. f_equal. by eapply finalize_last.
        - intros s1. unfold finalize. by destruct (last (messages s1)). }
      repeat split; try done; try lia.
      * eexists _, _. split; [exact Hs'' |]. by simpl.
      * by rewrite Heq, Nat.sub_diag.
      * unfold rendered. simpl_exchange. rewrite Hs''. simpl.
        by rewrite last_two.
    + simpl_exchange.
      repeat split; try done; try lia.
      eexists _, None. simpl. split; [exact Hs |]. done.
Qed.

(** Any event other than a failure keeps the shape of the session, and
    only extends the received and the revealed text. *)
Lemma step_invariant sid prior userMsg st e :
  succeeds e ->
  exchange_invariant sid prior userMsg st ->
  exchange_invariant sid prior userMsg (step sid e st) /\
  streamText (step sid e st) =
    streamText st ++ match e with Chunk c => c | _ => [] end /\
  displayedText st `prefix_of` displayedText (step sid e st).
Proof.
  intros He Hinv. destruct e as [| chunk | srcs | message | title];
    [| | | done |]; simpl.
  - destruct (frameRequested st) eqn:Hreq.
    + destruct (animateStream_invariant sid prior userMsg st Hinv Hreq)
        as (Hinv' & Hstream & Hdisp & _).
      by rewrite Hstream, app_nil_r.
    + by rewrite app_nil_r.
  - destruct chunk as [| c chunk]; [by rewrite app_nil_r |].
    simpl_exchange. split; [| done].
    destruct Hinv as (Hpre & Hsess). split; [by apply prefix_app_r | done].
  - rewrite app_nil_r. split; [| done]. exact Hinv.
  - rewrite app_nil_r. split; [| done].
    destruct Hinv as (Hpre & s & srcs & Hs & Hmsgs). split; [done |].
    exists (with_name s title), srcs. simpl_exchange.
    rewrite findSession_updateSession by done. by rewrite Hs.
Qed.

Lemma run_invariant sid prior userMsg events st :
  Forall succeeds events ->
  exchange_invariant sid prior userMsg st ->
  exchange_invariant sid prior userMsg (run sid events st) /\
  streamText (run sid events st) = streamText st ++ received events /\
  displayedText st `prefix_of` displayedText (run sid events st).
Proof.
  intros Hev Hinv. induction events as [| e events IH] using rev_ind.
  - simpl. by rewrite app_nil_r.
  - apply Forall_app in Hev as [Hev He%Forall_inv].
    destruct (IH Hev) as (Hinv' & Hstream & Hdisp).
    rewrite run_snoc, received_snoc.
    destruct (step_invariant sid prior userMsg _ e He Hinv')
      as (Hinv'' & Hstream' & Hdisp').
    split; [done |]. split.
    + rewrite Hstream', Hstream, <- (assoc_L (++)).
      f_equal. destruct e; by rewrite ?app_nil_r.
    + by etrans.
Qed.

Lemma run_app sid events1 events2 st :
  run sid (events1 ++ events2) st = run sid events2 (run sid events1 st).
Proof. unfold run. by rewrite foldl_app. Qed.

Lemma pending_succeeds events : Forall pending events -> Forall succeeds events.
Proof. intros H. eapply Forall_impl; [exact H |]. by intros []. Qed.

(** While the remote call is pending, frames stay requested. *)
Lemma run_pending sid prior userMsg events st :
  Forall pending events ->
  exchange_invariant sid prior userMsg st ->
  isComplete st = false -> frameRequested st = true ->
  isComplete (run sid events st) = false /\
  frameRequested (run sid events st) = true.
Proof.
  intros Hev Hinv Hc Hreq. induction events as [| e events IH] using rev_ind.
  - done.
  - apply Forall_app in Hev as [Hev He%Forall_inv].
    destruct (IH Hev) as (Hc' & Hreq').
    destruct (run_invariant sid prior userMsg events st
                (pending_succeeds _ Hev) Hinv) as (Hinv' & _).
    rewrite run_snoc. destruct e as [| chunk | | |]; try done; simpl.
    + rewrite Hreq'.
      destruct (animateStream_invariant sid prior userMsg _ Hinv' Hreq')
        as (_ & _ & _ & _ & Hc'' & Hreq'' & _).
      rewrite Hreq'', Hc''. by rewrite Hc'.
    + by destruct chunk.
Qed.

(** Once the remote call has returned, the text is revealed and the message
    made final within as many frames as there are code units to reveal
    (and at least one). *)
Lemma drain sid prior userMsg k : forall st,
  exchange_invariant sid prior userMsg st ->
  isComplete st = true -> frameRequested st = true ->
  (1 <= k)%nat -> (backlog st <= k)%nat ->
  let fin := run sid (replicate k Frame) st in
  rendered sid fin =
    Some (bot_message false (streamText st) (finalSources st)) /\
  isLoading fin = false /\ frameRequested fin = false.
Proof.
  induction k as [| k IH]; intros st Hinv Hc Hreq Hk Hback; [lia |].
  simpl. rewrite Hreq.
  destruct (animateStream_invariant sid prior userMsg st Hinv Hreq)
    as (Hinv' & Hstream & Hdisp & Hback' & Hc' & Hreq' & Hfin).
  rewrite Hc in Hreq', Hc'. simpl in Hreq'.
  destruct (backlog (animateStream sid st) =? 0)%nat eqn:Hzero;
    simpl in Hreq'.
  - (* this frame made the message final; later frames do nothing *)
    destruct (Hfin Hreq') as (Hload & Hdisp' & Hsrc).
    assert (Hidle : forall n st1, frameRequested st1 = false ->
                                  run sid (replicate n Frame) st1 = st1).
    { clear. induction n as [| n IHn]; intros st1 Hst1; [done |].
      simpl. rewrite Hst1. by apply IHn. }
    fold (run sid (replicate k Frame) (animateStream sid st)).
    rewrite Hidle by done.
    destruct (rendered_invariant _ _ _ _ Hinv') as [srcs Hr].
    rewrite Hreq', Hdisp' in Hr. rewrite Hr in Hsrc |- *. simpl in Hsrc.
    by rewrite Hsrc.
  - apply Nat.eqb_neq in Hzero.
    fold (run sid (replicate k Frame) (animateStream sid st)).
    destruct (IH (animateStream sid st)) as (Hr & Hload & Hreq'');
      [done | done | done | lia | lia |].
    rewrite Hstream in Hr.
    assert (Hsrcs : finalSources (animateStream sid st) = finalSources st).
    { unfold animateStream. repeat case_match; done. }
    by rewrite Hsrcs in Hr.
Qed.

Lemma filter_Forall_id {A} (P : A -> Prop) `{!forall x, Decision (P x)}
    (l : list A) :
  Forall P l -> filter P l = l.
Proof.
  induction 1 as [| x l Hx Hl IH]; [done |].
  rewrite filter_cons_True by done. by rewrite IH.
Qed.

Lemma begin_state sid userMessageText image thinking sessions0 :
  let st0 :=
    handleSendMessage_begin sid userMessageText image thinking sessions0 in
  streamText st0 = [] /\ displayedText st0 = [] /\
  isComplete st0 = false /\ frameRequested st0 = true.
Proof. done. Qed.

(** While nothing but the events of the exchange writes its session, and
    the remote call does not fail,
    the rendered bot message only ever holds prefixes of the text received:
    what is rendered at any moment is a prefix of what is rendered at every
    later moment and of the text received so far, hence of the final text.
    While the call is pending the message is marked streaming.  Once the
    call has returned, after as many frames as there are code units left to
    reveal (and at least one), the rendered message holds exactly the text
    received, is marked non-streaming and carries the sources; loading is
    over and no further frame is requested. *)
Theorem streaming_reveal sid userMessageText image thinking sessions0 s0 :
  findSession sid sessions0 = Some s0 ->
  let st0 :=
    handleSendMessage_begin sid userMessageText image thinking sessions0 in
  (forall events1 events2,
      Forall succeeds (events1 ++ events2) ->
      rendered_content sid (run sid events1 st0)
        `prefix_of` rendered_content sid (run sid (events1 ++ events2) st0) /\
      rendered_content sid (run sid (events1 ++ events2) st0)
        `prefix_of` received (events1 ++ events2)) /\
  (forall events,
      Forall pending events ->
      exists revealed,
        rendered sid (run sid events st0) =
        Some (with_content placeholder revealed)) /\
  (forall events srcs k,
      Forall pending events ->
      (1 <= k)%nat -> (backlog (run sid events st0) <= k)%nat ->
      let fin := run sid (events ++ Resolve srcs :: replicate k Frame) st0 in
      rendered sid fin =
        Some (finalized (with_content placeholder (received events)) srcs) /\
      isLoading fin = false /\ frameRequested fin = false).
Proof.
  intros Hs0 st0.
  pose proof (handleSendMessage_begin_invariant sid userMessageText image
                thinking sessions0 s0 Hs0) as Hinv0.
  fold st0 in Hinv0.
  set (prior := messages s0) in *.
  set (userMsg := newMessage userMessageText image thinking) in *.
  split; [| split].
  - intros events1 events2 Hev.
    pose proof Hev as Hev'. apply Forall_app in Hev' as [Hev1 Hev2].
    destruct (run_invariant sid prior userMsg events1 st0 Hev1 Hinv0)
      as (Hinv1 & _ & _).
    destruct (run_invariant sid prior userMsg (events1 ++ events2) st0 Hev
                Hinv0) as (Hinv & Hstream & _).
    rewrite (rendered_content_invariant _ _ _ _ Hinv1).
    rewrite (rendered_content_invariant _ _ _ _ Hinv).
    split.
    + rewrite run_app.
      by destruct (run_invariant sid prior userMsg events2 _ Hev2 Hinv1)
        as (_ & _ & Hdisp).
    + destruct Hinv as (Hpre & _). by rewrite Hstream in Hpre.
  - intros events Hev.
    destruct (run_invariant sid prior userMsg events st0
                (pending_succeeds _ Hev) Hinv0) as (Hinv & _).
    destruct (run_pending sid prior userMsg events st0 Hev Hinv0)
      as (_ & Hreq); [done | done |].
    destruct (rendered_invariant _ _ _ _ Hinv) as [srcs Hr].
    rewrite Hreq in Hr. by eexists.
  - intros events srcs k Hev Hk Hback fin.
    destruct (run_invariant sid prior userMsg events st0
                (pending_succeeds _ Hev) Hinv0) as (Hinv & Hstream & _).
    destruct (run_pending sid prior userMsg events st0 Hev Hinv0)
      as (_ & Hreq); [done | done |].
    unfold fin.
    change (Resolve srcs :: replicate k Frame)
      with ([Resolve srcs] ++ replicate k Frame).
    rewrite !run_app.
    set (st := run sid events st0) in *.
    change (run sid [Resolve srcs] st) with (step sid (Resolve srcs) st).
    set (st1 := step sid (Resolve srcs) st).
    assert (Hinv1 : exchange_invariant sid prior userMsg st1).
    { by apply step_invariant. }
    destruct (drain sid prior userMsg k st1 Hinv1) as (Hr & Hload & Hreq1);
      try done.
    rewrite Hr. simpl. by rewrite Hstream.
Qed.

Lemma streaming_reveal_witness :
  let s0 := {| id := "s1"; name := "New Conversation"; messages := [];
               createdAt := 0 |} in
  let st0 := handleSendMessage_begin "s1" [] None false [s0] in
  exists revealed,
    rendered "s1" (run "s1" [Chunk ["H"; "i"]%char; Frame] st0) =
    Some (with_content placeholder revealed).
Proof.
  intros s0 st0.
  apply (proj1 (proj2 (streaming_reveal "s1" [] None false [s0] s0 eq_refl))).
  repeat constructor.
Defined.

(** *** A live turn during the exchange *)

Lemma bot_message_of_overtaken sid prior userMsg bot st :
  overtaken sid prior userMsg bot st ->
  bot_message_of sid prior st = Some bot.
Proof.
  intros (s & later & m & Hs & Hmsgs & _). unfold bot_message_of.
  rewrite Hs. simpl. rewrite Hmsgs.
  rewrite lookup_app_r by lia.
  by replace (S (length prior) - length prior)%nat with 1%nat by lia.
Qed.

Lemma overtaken_step sid prior userMsg bot (e : ChatInterleaving.Event) st :
  sid <> EmptyString -> undisturbed e ->
  overtaken sid prior userMsg bot st ->
  overtaken sid prior userMsg bot
            (ChatInterleaving.step sid (Some sid) e st).
Proof.
  intros Hsid He (s & later & m & Hs & Hmsgs & Hm).
  assert (Hlast : last (messages s) = Some m).
  { rewrite Hmsgs, !(assoc_L (++)). apply last_snoc. }
  assert (Hreveal : forall next, reveal next s = s).
  { intros next. unfold reveal. rewrite Hlast.
    destruct (bool_decide (role m = model)) eqn:Hr; [| done].
    apply bool_decide_eq_true in Hr. by rewrite (Hm Hr). }
  assert (Hrevid : forall next s1, id (reveal next s1) = id s1).
  { intros next s1. unfold reveal. destruct (last (messages s1)); [| done].
    by case_match. }
  assert (Hfinid : forall srcs s1, id (finalize srcs s1) = id s1).
  { intros srcs s1. unfold finalize. by destruct (last (messages s1)). }
  assert (Hfinal : forall srcs,
             overtaken sid prior userMsg bot
               (ChatInterleaving.with_sessions st
                  (updateSession sid (finalize srcs) (sessions st)))).
  { intros srcs. exists (finalize srcs s), later, (finalized m srcs).
    split; [| split; [| done]].
    - simpl. rewrite findSession_updateSession by apply Hfinid.
      by rewrite Hs.
    - unfold finalize. rewrite Hlast. simpl. rewrite Hmsgs.
      rewrite !(assoc_L (++)), removelast_last.
      by rewrite <- !(assoc_L (++)). }
  destruct e as [[| chunk | srcs | message | title] | t]; simpl.
  - destruct (frameRequested st) eqn:Hfr; [| by exists s, later, m].
    unfold animateStream.
    destruct (len (displayedText st) <? len (streamText st)); simpl;
      match goal with
      | |- context [if ?c then _ else _] => destruct c
      end.
    + exists s, later, m. split; [| done]. simpl.
      rewrite findSession_updateSession by apply Hrevid.
      rewrite Hs. simpl. by rewrite Hreveal.
    + destruct (Hfinal (finalSources st)) as (s' & later' & m' & Hs' & H').
      exists s', later', m'. split; [| exact H']. simpl. simpl in Hs'.
      rewrite findSession_updateSession in Hs' |- * by apply Hfinid.
      rewrite findSession_updateSession by apply Hrevid.
      rewrite Hs in Hs' |- *. simpl in Hs' |- *. by rewrite Hreveal.
    + by exists s, later, m.
    + exact (Hfinal (finalSources st)).
  - destruct chunk; by exists s, later, m.
  - by exists s, later, m.
  - done.
  - exists (with_name s title), later, m. split; [| done]. simpl.
    rewrite findSession_updateSession by done. by rewrite Hs.
  - unfold ChatHandlers.turn, ChatHandlers.onTurnComplete_timer,
      ChatHandlers.onTurnComplete.
    assert (Htr : QuizFlow.truthy (Some sid) = true).
    { unfold QuizFlow.truthy. by rewrite bool_decide_false. }
    rewrite Htr. simpl.
    eexists _, (later ++ [m; ChatHandlers.voiceMessage user
                                (ChatHandlers.input t)]),
      (ChatHandlers.voiceMessage model (ChatHandlers.output t)).
    split; [| split; [| done]].
    + unfold ChatInterleaving.with_sessions. simpl.
      rewrite findSession_updateSession by done. by rewrite Hs.
    + simpl. rewrite Hmsgs. by rewrite <- !(assoc_L (++)).
Qed.

Lemma overtaken_run sid prior userMsg bot
    (events : list ChatInterleaving.Event) st :
  sid <> EmptyString -> Forall undisturbed events ->
  overtaken sid prior userMsg bot st ->
  overtaken sid prior userMsg bot
            (ChatInterleaving.run sid (Some sid) events st).
Proof.
  intros Hsid Hev. revert st.
  induction Hev as [| e events He _ IH]; intros st H; [done |].
  apply IH. by apply overtaken_step.
Qed.

(** Once a turn of a live session started in the session of the exchange
    has been delivered while the answer is streaming, the bot message
    stays as it was at that moment, marked streaming, whatever the
    exchange receives and reveals afterwards. *)
Lemma live_turn_freezes_bot_message sid prior userMsg t
    (events : list ChatInterleaving.Event) st :
  sid <> EmptyString ->
  exchange_invariant sid prior userMsg st -> frameRequested st = true ->
  Forall undisturbed events ->
  bot_message_of sid prior
    (ChatInterleaving.run sid (Some sid)
       (ChatInterleaving.LiveTurn t :: events) st) =
  Some (with_content placeholder (displayedText st)).
Proof.
  intros Hsid (_ & s & srcs & Hs & Hmsgs) Hfr Hev.
  rewrite Hfr in Hmsgs. simpl in Hmsgs.
  apply (bot_message_of_overtaken sid prior userMsg).
  change (ChatInterleaving.run sid (Some sid)
            (ChatInterleaving.LiveTurn t :: events) st)
    with (ChatInterleaving.run sid (Some sid) events
            (ChatInterleaving.step sid (Some sid)
               (ChatInterleaving.LiveTurn t) st)).
  apply overtaken_run; [done | done |].
  { simpl.
    unfold ChatHandlers.turn, ChatHandlers.onTurnComplete_timer,
      ChatHandlers.onTurnComplete.
    assert (Htr : QuizFlow.truthy (Some sid) = true).
    { unfold QuizFlow.truthy. by rewrite bool_decide_false. }
    rewrite Htr. simpl.
    eexists _, [ChatHandlers.voiceMessage user (ChatHandlers.input t)],
      (ChatHandlers.voiceMessage model (ChatHandlers.output t)).
    split; [| split; [| done]].
    - unfold ChatInterleaving.with_sessions. simpl.
      rewrite findSession_updateSession by done. by rewrite Hs.
    - simpl. rewrite Hmsgs. by rewrite <- !(assoc_L (++)). }
Qed.

(** C3 (defect).  A streaming exchange does not end with the bot message
    holding the full text when a turn of a live session is delivered
    meanwhile.  A session holds no message; a live session was started in
    it; the user sends a text message and the remote call delivers
    ["Hello world"].  The first frame reveals
    ["Hello w"].  Then a turn of the live session completes, and its two
    voice messages are appended to the session.  The remote call returns
    and two more frames run: the loop reveals the rest into its own buffer
    only, because the last message of the session is no longer the bot
    message, and the final step marks the last message, the voice
    message, as non-streaming.  The exchange is over (complete, drained,
    not loading, no frame requested), and the bot message still holds
    ["Hello w"] and is still marked streaming.  The revealing step checks
    that the last message is the bot message being streamed; the final
    step does not. *)
Theorem streaming_reveal_live_turn :
  let s0 := {| id := "s1"; name := "New Conversation"; messages := [];
               createdAt := 0 |} in
  let st0 :=
    handleSendMessage_begin "s1" (String.list_ascii_of_string "hi") None false
                            [s0] in
  let t := {| ChatHandlers.now1 := 1; ChatHandlers.now2 := 1;
              ChatHandlers.input := String.list_ascii_of_string "a";
              ChatHandlers.output := String.list_ascii_of_string "b" |} in
  let events :=
    [ChatInterleaving.OfExchange
       (Chunk (String.list_ascii_of_string "Hello world"));
     ChatInterleaving.OfExchange Frame;
     ChatInterleaving.LiveTurn t;
     ChatInterleaving.OfExchange (Resolve None);
     ChatInterleaving.OfExchange Frame;
     ChatInterleaving.OfExchange Frame] in
  let fin := ChatInterleaving.run "s1" (Some "s1") events st0 in
  isComplete fin = true /\
  streamText fin = String.list_ascii_of_string "Hello world" /\
  displayedText fin = String.list_ascii_of_string "Hello world" /\
  isLoading fin = false /\ frameRequested fin = false /\
  bot_message_of "s1" [] fin =
    Some (with_content placeholder (String.list_ascii_of_string "Hello w")) /\
  (bot_message_of "s1" [] fin ≫= isStreaming) = Some true /\
  (findSession "s1" (sessions fin) ≫= fun s => last (messages s)) =
    Some (finalized (ChatHandlers.voiceMessage model
                       (String.list_ascii_of_string "b")) None) /\
  (findSession "s1" (sessions fin) ≫= fun s => Some (length (messages s)))
    = Some 4%nat.
Proof. vm_compute. repeat split; reflexivity. Qed.

(** C8. If the remote call throws, at whatever point of the streaming, the
    placeholder bot message is removed from the session together with the
    text revealed so far: the session holds its earlier messages that are
    not marked streaming, followed by the user's message, and no message
    marked streaming; the error message is set (the message of the error,
    or a default), loading is over, and the cancelled animation writes
    nothing afterwards. *)
Theorem stream_failure sid userMessageText image thinking sessions0 s0
    events message :
  findSession sid sessions0 = Some s0 ->
  Forall pending events ->
  let st0 :=
    handleSendMessage_begin sid userMessageText image thinking sessions0 in
  let fin := run sid (events ++ [Reject message]) st0 in
  (exists s,
      findSession sid (sessions fin) = Some s /\
      messages s =
        filter (fun m => streaming m = false) (messages s0) ++
        [newMessage userMessageText image thinking] /\
      Forall (fun m => streaming m = false) (messages s) /\
      (Forall (fun m => streaming m = false) (messages s0) ->
       messages s =
         messages s0 ++ [newMessage userMessageText image thinking])) /\
  error fin = Some (default "Failed to send message." message) /\
  isLoading fin = false /\
  (forall k, run sid (replicate k Frame) fin = fin).
Proof.
  intros Hs0 Hev st0 fin.
  pose proof (handleSendMessage_begin_invariant sid userMessageText image
                thinking sessions0 s0 Hs0) as Hinv0.
  fold st0 in Hinv0.
  destruct (run_invariant sid _ _ events st0 (pending_succeeds _ Hev) Hinv0)
    as ((_ & s & srcs & Hs & Hmsgs) & _).
  destruct (run_pending sid _ _ events st0 Hev Hinv0) as (_ & Hreq);
    [done | done |].
  rewrite Hreq in Hmsgs. simpl in Hmsgs.
  unfold fin. rewrite run_snoc. simpl.
  split; [| split; [done | split; [done |]]].
  - eexists. rewrite findSession_updateSession by done.
    rewrite Hs. simpl. split; [reflexivity |].
    rewrite Hmsgs, filter_app. simpl.
    assert (Hfil : filter (fun m => streaming m = false)
                     [newMessage userMessageText image thinking;
                      with_content placeholder
                        (displayedText (run sid events st0))]
                   = [newMessage userMessageText image thinking]).
    { rewrite filter_cons_True by done.
      rewrite filter_cons_False by done. done. }
    rewrite Hfil. split; [done |]. split.
    + apply Forall_app. split.
      * apply Forall_forall. by intros m [Hm _]%list_elem_of_filter.
      * by apply Forall_singleton.
    + intros Hprior. f_equal. by apply filter_Forall_id.
  - induction k as [| k IH]; [done |]. simpl. exact IH.
Qed.

Lemma stream_failure_witness :
  let s0 := {| id := "s1"; name := "New Conversation"; messages := [];
               createdAt := 0 |} in
  let st0 := handleSendMessage_begin "s1" ["?"]%char None false [s0] in
  let fin := run "s1" ([Chunk ["H"; "i"]%char; Frame] ++ [Reject None]) st0 in
  error fin = Some "Failed to send message." /\ isLoading fin = false.
Proof.
  intros s0 st0 fin.
  destruct (stream_failure "s1" ["?"]%char None false [s0] s0
              [Chunk ["H"; "i"]%char; Frame] None eq_refl)
    as (_ & Herr & Hload & _).
  - repeat constructor.
  - split; [exact Herr | exact Hload].
Defined.

End ChatProperties.

(** ** Audio scheduling *)

Section AudioProperties.
Import LiveSession.
Implicit Types (ms : list AudioMessage) (m : AudioMessage).

Lemma session_snoc ms m : session (ms ++ [m]) = onmessage m (session ms).
Proof. unfold session. by rewrite foldl_snoc. Qed.

Lemma started_length ms : length (started (session ms)) = length ms.
Proof.
  induction ms as [| m ms IH] using rev_ind; [done |].
  rewrite session_snoc. simpl. rewrite !length_app, IH. done.
Qed.

Lemma started_take ms n :
  started (session (take n ms)) = take n (started (session ms)).
Proof.
  induction ms as [| m ms IH] using rev_ind.
  - rewrite take_nil. simpl. by rewrite take_nil.
  - destruct (decide (n <= length ms)%nat) as [Hle | Hgt].
    + rewrite take_app_le by done. rewrite session_snoc. simpl.
      rewrite take_app_le by (by rewrite started_length). exact IH.
    + rewrite !take_ge; [done | | rewrite length_app; simpl; lia].
      rewrite started_length, length_app. simpl. lia.
Qed.

(** The [k]-th buffer starts at the cursor left by the buffers before it,
    or at the clock if the clock has passed the cursor. *)
Lemma started_lookup ms k m :
  ms !! k = Some m ->
  started (session ms) !! k =
  Some {| startTime := Z.max (nextStartTime (session (take k ms)))
                             (currentTime m);
          duration := bufferDuration m |}.
Proof.
  intros Hm.
  assert (Hk : (k < length ms)%nat) by (by eapply lookup_lt_Some).
  assert (Htake : started (session (take (S k) ms)) !! k =
                  started (session ms) !! k).
  { rewrite started_take. apply lookup_take_lt. lia. }
  rewrite <- Htake. erewrite take_S_r by done.
  rewrite session_snoc. simpl.
  rewrite lookup_app_r by (rewrite started_length, length_take; lia).
  rewrite started_length, length_take.
  replace (k - k `min` length ms)%nat with O by lia. done.
Qed.

(** The cursor is the end of the last buffer started. *)
Lemma cursor_end ms :
  nextStartTime (session ms) =
  default 0 (endTime <$> last (started (session ms))).
Proof.
  destruct ms as [| m ms _] using rev_ind; [done |].
  rewrite session_snoc. simpl. by rewrite last_snoc.
Qed.

Lemma durations_before_S k ms m :
  ms !! k = Some m ->
  durations_before (S k) ms = durations_before k ms + bufferDuration m.
Proof.
  intros Hm. unfold durations_before. erewrite take_S_r by done.
  rewrite fmap_app, foldr_app. simpl.
  generalize (bufferDuration <$> take k ms). intros l.
  induction l as [| d l IH]; simpl; lia.
Qed.

(** Without under-runs the cursor advances by the durations alone. *)
Lemma cursor_back_to_back ms m1 :
  ms !! O = Some m1 -> 0 <= currentTime m1 ->
  (forall k m, ms !! S k = Some m ->
               currentTime m <= currentTime m1 + durations_before (S k) ms) ->
  forall n, (n < length ms)%nat ->
    nextStartTime (session (take (S n) ms)) =
    currentTime m1 + durations_before (S n) ms.
Proof.
  intros Hm1 Hpos Hlate n. induction n as [| n IH]; intros Hn.
  - erewrite take_S_r by done. rewrite session_snoc. simpl.
    erewrite durations_before_S by done. unfold durations_before.
    simpl. lia.
  - destruct (lookup_lt_is_Some_2 ms (S n) Hn) as [m Hm].
    erewrite take_S_r by done. rewrite session_snoc. simpl.
    rewrite IH by lia.
    erewrite (durations_before_S (S n)) by done.
    specialize (Hlate n m Hm). lia.
Qed.

(** C4 (amended). The [k]-th buffer starts at the cursor, which is the end
    of the buffer before it (0 for the first), or at the clock of its
    arrival if that is later.  So two consecutive buffers never overlap, and
    there is a gap between them exactly when the later one arrives after
    the earlier one has ended, in which case it starts at its arrival.  When
    no buffer arrives after its predecessor's end, the [k]-th buffer starts
    at the clock of the first buffer's arrival plus the durations of the
    buffers before it. *)
Theorem audio_schedule ms :
  let schedule := started (session ms) in
  length schedule = length ms /\
  (forall m,
      ms !! O = Some m ->
      schedule !! O =
      Some {| startTime := Z.max 0 (currentTime m);
              duration := bufferDuration m |}) /\
  (forall k m s,
      schedule !! k = Some s -> ms !! S k = Some m ->
      schedule !! S k =
      Some {| startTime := Z.max (endTime s) (currentTime m);
              duration := bufferDuration m |}) /\
  (forall k s s',
      schedule !! k = Some s -> schedule !! S k = Some s' ->
      endTime s <= startTime s') /\
  (forall k s s' m,
      schedule !! k = Some s -> schedule !! S k = Some s' ->
      ms !! S k = Some m ->
      (currentTime m <= endTime s /\ startTime s' = endTime s) \/
      (endTime s < currentTime m /\ startTime s' = currentTime m)) /\
  (forall m1,
      ms !! O = Some m1 -> 0 <= currentTime m1 ->
      (forall k m, ms !! S k = Some m ->
                   currentTime m <= currentTime m1 + durations_before (S k) ms) ->
      back_to_back_from (currentTime m1) ms).
Proof.
  intros schedule.
  assert (Hnext : forall k m s,
             schedule !! k = Some s -> ms !! S k = Some m ->
             schedule !! S k =
             Some {| startTime := Z.max (endTime s) (currentTime m);
                     duration := bufferDuration m |}).
  { intros k m s Hs Hm. unfold schedule. rewrite (started_lookup ms (S k) m Hm).
    rewrite cursor_end, started_take.
    assert (Hk : (k < length (started (session ms)))%nat)
      by (by eapply lookup_lt_Some).
    rewrite (take_S_r _ _ s) by done. by rewrite last_snoc. }
  split; [apply started_length |].
  split; [intros m Hm; unfold schedule; by rewrite (started_lookup ms O m Hm) |].
  split; [exact Hnext |].
  split; [| split].
  - intros k s s' Hs Hs'.
    assert (Hk : (S k < length ms)%nat).
    { rewrite <- started_length. by eapply lookup_lt_Some. }
    destruct (lookup_lt_is_Some_2 ms (S k) Hk) as [m Hm].
    rewrite (Hnext k m s Hs Hm) in Hs'. injection Hs' as <-. simpl. lia.
  - intros k s s' m Hs Hs' Hm.
    rewrite (Hnext k m s Hs Hm) in Hs'. injection Hs' as <-. simpl. lia.
  - intros m1 Hm1 Hpos Hlate k s Hs.
    assert (Hk : (k < length ms)%nat).
    { rewrite <- started_length. by eapply lookup_lt_Some. }
    destruct (lookup_lt_is_Some_2 ms k Hk) as [m Hm].
    unfold schedule in Hs. rewrite (started_lookup ms k m Hm) in Hs.
    injection Hs as <-. simpl.
    destruct k as [| k].
    + assert (m = m1) as -> by congruence.
      rewrite take_0. unfold durations_before. simpl. lia.
    + rewrite (cursor_back_to_back ms m1 Hm1 Hpos Hlate k) by lia.
      specialize (Hlate k m Hm). lia.
Qed.

Lemma audio_schedule_witness :
  let ms := [ {| currentTime := 5; bufferDuration := 10 |};
              {| currentTime := 6; bufferDuration := 20 |};
              {| currentTime := 30; bufferDuration := 10 |} ] in
  back_to_back_from 5 ms.
Proof.
  intros ms.
  apply (proj2 (proj2 (proj2 (proj2 (proj2 (audio_schedule ms)))))
           {| currentTime := 5; bufferDuration := 10 |}).
  - reflexivity.
  - simpl. lia.
  - intros [| [| k]] m; simpl; intros [= <-]; vm_compute; discriminate.
Defined.

(** C4 as stated fails: a buffer that arrives after its predecessor has
    ended starts at the clock of its arrival, not at the sum of the
    durations before it (here the clock is 0 at the session's start and at
    the first buffer's arrival). *)
Lemma audio_schedule_not_back_to_back :
  ~ back_to_back_from 0
      [ {| currentTime := 0; bufferDuration := 10 |};
        {| currentTime := 25; bufferDuration := 10 |} ].
Proof.
  intros H.
  specialize (H 1%nat {| startTime := 25; duration := 10 |} eq_refl).
  vm_compute in H. discriminate H.
Qed.

End AudioProperties.

(** ** Saving the image history *)

Section SaveHistoryProperties.
Import ImageGenerator.
Variable setItem : list ImageGenerationResult -> option Thrown.
Implicit Types (data : list ImageGenerationResult) (st : Storage).

Lemma evicted_0 data : evicted 0 data = data.
Proof. unfold evicted. rewrite Nat.sub_0_r. apply firstn_all. Qed.


Lemma evicted_removelast k data :
  evicted k (removelast data) = evicted (S k) data.
Proof.
  unfold evicted. rewrite removelast_firstn_len, length_take, take_take.
  f_equal. lia.
Qed.

(** The run of the save routine: it makes [n + 1] attempts, the [k]-th on
    the history without its [k] last entries; all but the last attempt
    failed on the quota. *)
Lemma saveHistoryWithRetry_run data st :
  exists n : nat,
    (n <= length data)%nat /\
    let fin := saveHistoryWithRetry setItem data st in
    setItemCalls fin =
      setItemCalls st ++ ((fun k => evicted k data) <$> seq 0 (S n)) /\
    (forall k, (k < n)%nat ->
               exists error, setItem (evicted k data) = Some error /\
                             isQuotaExceeded error = true) /\
    console fin =
      console st ++ replicate n warn_quota ++
      match setItem (evicted n data) with
      | None => []
      | Some error =>
          if isQuotaExceeded error then [warn_quota] else [error_save error]
      end /\
    match setItem (evicted n data) with
    | None => item fin = Some (evicted n data)
    | Some error =>
        item fin = item st /\
        (isQuotaExceeded error = true -> n = length data)
    end.
Proof.
  funelim (saveHistoryWithRetry setItem data st).
  - (* stored *)
    exists O. rewrite evicted_0, Heq. simpl.
    rewrite evicted_0, app_nil_r. repeat split; (done || lia).
  - (* another failure *)
    exists O. rewrite evicted_0, Heq0, Heq. simpl.
    rewrite evicted_0. repeat split; (done || lia).
  - (* quota exceeded, nothing left to evict *)
    exists O. rewrite evicted_0, Heq0, Heq. simpl.
    repeat split; (done || lia).
  - (* quota exceeded: the last entry is evicted and the rest is saved *)
    destruct H as (n & Hn & Hcalls & Hquota & Hconsole & Hlast).
    exists (S n). cbv zeta in *.
    assert (Hlen : length (removelast (x :: rest)) = length rest).
    { rewrite removelast_firstn_len, length_take. simpl. lia. }
    rewrite evicted_removelast in Hconsole, Hlast.
    split; [simpl; lia |]. split; [| split; [| split]].
    + rewrite Hcalls. simpl setItemCalls. rewrite <- (assoc_L (++)).
      f_equal. change (seq 0 (S (S n))) with (O :: seq 1 (S n)).
      rewrite fmap_cons, evicted_0. refine (f_equal (cons _) _).
      rewrite <- fmap_S_seq, <- list_fmap_compose.
      apply list_fmap_ext. intros _ k _.
      exact (evicted_removelast k (x :: rest)).
    + intros [| k] Hk.
      * exists error. by rewrite evicted_0.
      * rewrite <- evicted_removelast. apply Hquota. lia.
    + rewrite Hconsole. simpl console. rewrite <- (assoc_L (++)). done.
    + destruct (setItem (evicted (S n) (x :: rest))) as [error' |].
      * destruct Hlast as [Hitem Hfull]. split; [done |].
        intros Hq. specialize (Hfull Hq). simpl. lia.
      * done.
Qed.



End SaveHistoryProperties.


(* ===================================================================== *)
(** * Part III: further properties of the code                            *)
(* ===================================================================== *)

(** ** Badges, points and profile figures *)

Section MoreProfileProperties.
Import Constants ProfileUtils App.

Lemma Set_add_spec (x y : BadgeName) (s : list BadgeName) :
  y ∈ Set_add x s <-> y = x \/ y ∈ s.
Proof.
  unfold Set_add. destruct (decide (x ∈ s)) as [Hin | Hnin].
  - split; [by right | intros [-> | H]; done].
  - rewrite elem_of_app, list_elem_of_singleton. tauto.
Qed.


Lemma Set_new_spec_fold (items acc : list BadgeName) (y : BadgeName) :
  y ∈ foldl (fun s x => Set_add x s) acc items <-> y ∈ acc \/ y ∈ items.
Proof.
  revert acc. induction items as [| b items IH]; intros acc; simpl.
  - rewrite elem_of_nil. tauto.
  - rewrite IH, Set_add_spec, elem_of_cons. tauto.
Qed.


Lemma sum_score_snoc (h : list QuizResult) (r : QuizResult) :
  sum_score (h ++ [r]) = sum_score h + score r.
Proof. unfold sum_score. by rewrite foldl_snoc. Qed.

Lemma Set_add_if_spec (c : bool) (x y : BadgeName) (s : list BadgeName) :
  y ∈ (if c then Set_add x s else s) <-> (c = true /\ y = x) \/ y ∈ s.
Proof.
  destruct c; [rewrite Set_add_spec |]; intuition congruence.
Qed.

Lemma getNewBadges_elem b current latest history :
  b ∈ getNewBadges current latest history <->
  b ∈ current \/ earns b latest history.
Proof.
  unfold getNewBadges.
  rewrite sum_score_snoc, length_app. simpl length.
  rewrite !Set_add_if_spec.
  assert (Hnew : b ∈ Set_new current <-> b ∈ current).
  { unfold Set_new. rewrite Set_new_spec_fold, elem_of_nil. tauto. }
  rewrite Hnew, !andb_true_iff, !bool_decide_eq_true.
  rewrite !Z.geb_le, Nat2Z.inj_add.
  destruct b; unfold earns; simpl Z.of_nat; intuition (try congruence; lia).
Qed.



(** X2. The accuracy the profile page computes inline is the one
    [calculateAccuracy] returns, for every history: the explicit test for
    the empty history in [calculateAccuracy] changes nothing. *)
Theorem Profile_accuracy_calculateAccuracy (quizHistory : list QuizResult) :
  Profile.accuracy quizHistory = calculateAccuracy quizHistory.
Proof.
  unfold Profile.accuracy, calculateAccuracy.
  destruct quizHistory as [| r h]; [reflexivity |].
  simpl length. cbn [Nat.eqb]. reflexivity.
Qed.

(** X3. For a user with non-negative points whose stored rank is the rank
    of these points, the profile page's level figures are sound: below
    Diamond the points in the current level are at least 0 and less than
    the points of the level, and the points still needed are positive; at
    Diamond there is no next level.  Editing the profile keeps the rank in
    step with the points. *)
Theorem Profile_level_figures (u : User) :
  rank_in_sync u -> 0 <= totalPoints u ->
  (rank u <> Diamond ->
   0 <= Profile.pointsInCurrentLevel u < Profile.pointsForNextLevel u /\
   exists needed, Profile.pointsNeeded u = Some needed /\ 0 < needed) /\
  (rank u = Diamond ->
   Profile.pointsNeeded u = None /\ 0 <= Profile.pointsInCurrentLevel u) /\
  (forall newName newClassName,
      rank_in_sync (Profile.handleSave newName newClassName u)).
Proof.
  intros Hsync Hpos.
  assert (Hsave : forall newName newClassName,
             rank_in_sync (Profile.handleSave newName newClassName u)).
  { intros. exact Hsync. }
  unfold rank_in_sync in Hsync.
  unfold Profile.pointsInCurrentLevel, Profile.pointsForNextLevel,
    Profile.pointsNeeded.
  rewrite Hsync.
  destruct (getRank_cases (totalPoints u))
    as [[H ->]|[[H ->]|[[H ->]|[[H ->]|[H ->]]]]]; simpl;
    (split; [| split; [| exact Hsave]]).
  all: try (intros _; split; [lia | eexists; split; [reflexivity | lia]]).
  all: try (intros Heq; discriminate Heq).
  - intros Hne. done.
  - intros _. split; [done | lia].
Qed.

Lemma Profile_level_figures_witness :
  0 <= Profile.pointsInCurrentLevel (defaultUser 0)
    < Profile.pointsForNextLevel (defaultUser 0).
Proof.
  refine (proj1 (proj1 (Profile_level_figures (defaultUser 0) _ _) _)).
  - reflexivity.
  - simpl. lia.
  - discriminate.
Defined.

(** X4. [addQuizResult] passes [getNewBadges] a history that already ends
    with the new result, and [getNewBadges] appends the result once more.
    So the user holds Quiz Champ after a quiz exactly if it was held before
    or the history held at least 8 earlier results (the badge comes with
    the ninth quiz, not the tenth), and Knowledge Seeker exactly if it was
    held before or the earlier correct answers plus twice the new score
    reach 100. *)
Theorem addQuizResult_counts_latest_twice now result st u :
  user st = Some u ->
  exists u',
    user (addQuizResult now result st) = Some u' /\
    (QuizChamp ∈ badges u' <->
     QuizChamp ∈ badges u \/ 8 <= Z.of_nat (length (quizHistory st))) /\
    (KnowledgeSeeker ∈ badges u' <->
     KnowledgeSeeker ∈ badges u \/
     100 <= sum_score (quizHistory st) + 2 * score result).
Proof.
  intros Hu. unfold addQuizResult, addQuizResult_user. simpl. rewrite Hu.
  eexists. split; [reflexivity |]. simpl.
  rewrite !getNewBadges_elem. unfold earns.
  rewrite sum_score_snoc, length_app. simpl length.
  split; (split; intros [H | H]; [by left | right; lia | by left | right; lia]).
Qed.

Lemma addQuizResult_counts_latest_twice_witness :
  let r := {| subject := History; score := 5; total := 10; date := 0 |} in
  let st := {| user := Some (defaultUser 0);
               quizHistory := replicate 8 r |} in
  exists u', user (addQuizResult 1 r st) = Some u' /\ QuizChamp ∈ badges u'.
Proof.
  intros r st.
  destruct (addQuizResult_counts_latest_twice 1 r st (defaultUser 0) eq_refl)
    as (u' & Hu' & Hq & _).
  exists u'. split; [exact Hu' |]. apply Hq. right. simpl. lia.
Defined.

Lemma addQuizResults_snoc results nr st :
  addQuizResults (results ++ [nr]) st =
  addQuizResult nr.1 nr.2 (addQuizResults results st).
Proof. unfold addQuizResults. by rewrite foldl_snoc. Qed.

(** X5. Over any sequence of quiz results added to a state with a user, the
    history is the old history followed by the results in order; the
    user's points are the old points plus 25 points per correct answer of
    all the results; the progress log gains one snapshot per result, the
    last one showing the current points; the identity of the user is
    unchanged; and the badges held before are all still held. *)
Theorem addQuizResults_accumulate results st u :
  user st = Some u ->
  exists u',
    user (addQuizResults results st) = Some u' /\
    quizHistory (addQuizResults results st) =
      quizHistory st ++ results.*2 /\
    totalPoints u' = totalPoints u + 25 * sum_score results.*2 /\
    length (progress u') = (length (progress u) + length results)%nat /\
    (results <> [] -> pp_points <$> last (progress u') = Some (totalPoints u')) /\
    (id u', name u', email u') = (id u, name u, email u) /\
    badges u ⊆ badges u'.
Proof.
  intros Hu. induction results as [| nr results IH] using rev_ind.
  - exists u. simpl. rewrite app_nil_r.
    split; [done |]. split; [done |]. split; [unfold sum_score; simpl; lia |].
    split; [lia |]. done.
  - destruct IH as (u1 & Hu1 & Hhist & Hpts & Hlen & _ & Hid & Hb).
    rewrite addQuizResults_snoc.
    unfold addQuizResult at 1 2. unfold addQuizResult_user. simpl.
    rewrite Hu1. eexists. split; [reflexivity |]. simpl.
    rewrite Hhist, fmap_app. simpl fmap.
    rewrite sum_score_snoc, !length_app, last_snoc. simpl.
    split; [by rewrite <- (assoc_L (++)) |].
    split; [lia |]. split; [lia |]. split; [done |]. split; [done |].
    etrans; [exact Hb |]. intros b Hin. apply getNewBadges_elem. by left.
Qed.

Lemma addQuizResults_accumulate_witness :
  let r := {| subject := Math; score := 9; total := 10; date := 0 |} in
  let st := {| user := Some (defaultUser 0); quizHistory := [] |} in
  exists u', user (addQuizResults [(1, r); (2, r)] st) = Some u' /\
             totalPoints u' = 575.
Proof.
  intros r st.
  destruct (addQuizResults_accumulate [(1, r); (2, r)] st (defaultUser 0)
              eq_refl) as (u' & Hu' & _ & Hpts & _).
  exists u'. split; [exact Hu' | exact Hpts].
Defined.

End MoreProfileProperties.

(** ** Custom topics and favorites *)

Section TopicProperties.
Import Topics.
Implicit Types (st : State).

(** X6. Toggling a favorite flips it for that topic only, and toggling
    twice restores every topic's state.  Deleting a topic, once confirmed,
    removes every topic of that id and its favorite entry, keeps the other
    topics in order and their favorites as they were; unconfirmed, it
    changes nothing.  Deleting a topic right after adding it gives back the
    earlier list, provided no earlier topic had the same id. *)
Theorem topics_favorites st topicId :
  (forall other,
      isFavorite (favorites (handleToggleFavorite topicId st)) other =
      if decide (other = topicId) then negb (isFavorite (favorites st) other)
      else isFavorite (favorites st) other) /\
  (forall other,
      isFavorite (favorites (handleToggleFavorite topicId
                               (handleToggleFavorite topicId st))) other =
      isFavorite (favorites st) other) /\
  (let st' := handleDeleteTopic true topicId st in
   Forall (fun t => id t <> topicId) (customTopics st') /\
   customTopics st' = filter (fun t => id t <> topicId) (customTopics st) /\
   isFavorite (favorites st') topicId = false /\
   forall other, other <> topicId ->
                 favorites st' !! other = favorites st !! other) /\
  handleDeleteTopic false topicId st = st /\
  (forall topic now1 now2,
      Forall (fun t => id t <> "custom-" +:+ pretty now1) (customTopics st) ->
      customTopics (handleDeleteTopic true ("custom-" +:+ pretty now1)
                      (handleAddTopic topic now1 now2 st)) =
      customTopics st).
Proof.
  assert (Htoggle : forall st0 other,
      isFavorite (favorites (handleToggleFavorite topicId st0)) other =
      if decide (other = topicId) then negb (isFavorite (favorites st0) other)
      else isFavorite (favorites st0) other).
  { intros st0 other. unfold handleToggleFavorite, isFavorite. simpl.
    destruct (decide (other = topicId)) as [-> | Hne].
    - by rewrite lookup_insert_eq.
    - by rewrite lookup_insert_ne. }
  split; [apply Htoggle |]. split.
  { intros other. rewrite !Htoggle.
    destruct (decide (other = topicId)); [apply negb_involutive | done]. }
  split.
  { simpl. split.
    - apply Forall_forall. by intros t [Ht _]%list_elem_of_filter.
    - split; [done |]. split.
      + unfold isFavorite. by rewrite lookup_delete_eq.
      + intros other Hne. by rewrite lookup_delete_ne. }
  split; [done |].
  intros topic now1 now2 Hfresh. simpl.
  rewrite filter_cons_False by (simpl; tauto).
  induction Hfresh as [| t ts Ht Hts IH]; [done |].
  rewrite filter_cons_True by done. by rewrite IH.
Qed.

Lemma topics_favorites_witness :
  let t := {| id := "custom-1"; name := "Algebra"; color := "bg-red-500";
              icon := "CalculatorIcon"; createdAt := 1 |} in
  let st := {| customTopics := [t]; favorites := ∅ |} in
  let new := {| new_name := "Optics"; new_color := "bg-sky-500";
                new_icon := "PhysicsIcon" |} in
  customTopics (handleDeleteTopic true ("custom-" +:+ pretty 2)
                  (handleAddTopic new 2 3 st)) = [t].
Proof.
  intros t st new.
  apply (proj2 (proj2 (proj2 (proj2 (topics_favorites st "custom-1"))))).
  repeat constructor. vm_compute. discriminate.
Defined.

End TopicProperties.

(** ** Starting, answering and finishing a quiz *)

Section QuizFlowProperties.
Import QuizFlow.

Lemma shuffle_values_shuffled {T} (random : nat -> Q) (i : nat) :
  forall calls (a : list T),
    shuffle_values random calls i a = shuffled (drawn random calls i) i a.
Proof.
  induction i as [| i IH]; intros calls a; simpl; [done |]. apply IH.
Qed.

Lemma shuffledArray_Permutation {T} (random : nat -> Q) calls (a : list T) :
  shuffledArray random calls a ≡ₚ a.
Proof.
  unfold shuffledArray. rewrite shuffle_values_shuffled.
  apply shuffled_Permutation.
Qed.

Lemma shuffleArray_returns_shuffledArray {T} (random : nat -> Q)
    (σ : gmap Quiz.ref (list T)) array :
  Quiz.read (Quiz.shuffleArray random array σ).2
            (Quiz.shuffleArray random array σ).1 =
  shuffledArray random 0 (Quiz.read σ array).
Proof.
  rewrite shuffleArray_store. cbn [fst snd].
  unfold Quiz.read at 1. rewrite lookup_insert_eq. simpl.
  unfold shuffledArray. by rewrite shuffle_values_shuffled.
Qed.

Lemma shuffle_options_same random qs :
  forall calls, Forall2 same_question (shuffle_options random calls qs) qs.
Proof.
  induction qs as [| q qs IH]; intros calls; simpl; constructor.
  - repeat split; simpl; try done. apply shuffledArray_Permutation.
  - apply IH.
Qed.

Lemma same_question_offers_answer shown qs :
  Forall2 same_question shown qs ->
  Forall (fun q => correctAnswer q ∈ options q) qs ->
  Forall (fun q => correctAnswer q ∈ options q) shown.
Proof.
  induction 1 as [| q' q l' l Hq Hl IH]; [done |].
  intros [Hin Hrest]%Forall_cons. constructor; [| by apply IH].
  destruct Hq as (_ & Hc & _ & Ho). by rewrite Hc, Ho.
Qed.

(** X7. [startQuiz] shows the generated questions in a shuffled order, each
    with its options shuffled: the shown questions are, one for one, the
    questions of a permutation of the generated list, with the same text,
    correct answer and explanation and a permutation of the options.  So
    none is lost or repeated, and a correct answer that was among the
    options of its question still is.  The values are those the in-place
    [shuffleArray] leaves in the array it returns. *)
Theorem startQuiz_shuffles random selectedSubject originalQuestions st :
  let shown :=
    questions (startQuiz random selectedSubject originalQuestions st) in
  (exists qs, qs ≡ₚ originalQuestions /\ Forall2 same_question shown qs) /\
  length shown = length originalQuestions /\
  (Forall (fun q => correctAnswer q ∈ options q) originalQuestions ->
   Forall (fun q => correctAnswer q ∈ options q) shown) /\
  (forall (σ : gmap Quiz.ref (list QuizQuestion)) array,
      let out := Quiz.shuffleArray random array σ in
      Quiz.read out.2 out.1 = shuffledArray random 0 (Quiz.read σ array)).
Proof.
  intros shown. unfold shown, startQuiz. simpl. unfold shuffledQuestions.
  set (qs := shuffledArray random 0 originalQuestions).
  assert (Hperm : qs ≡ₚ originalQuestions) by apply shuffledArray_Permutation.
  pose proof (shuffle_options_same random qs (length originalQuestions - 1))
    as Hsame.
  split; [by exists qs |]. split.
  { rewrite (Forall2_length _ _ _ Hsame). by rewrite Hperm. }
  split.
  { intros Horig. rewrite <- Hperm in Horig.
    by eapply same_question_offers_answer. }
  intros σ array. apply shuffleArray_returns_shuffledArray.
Qed.

Lemma startQuiz_shuffles_witness :
  let q := {| question := "2 + 2?"; options := ["3"; "4"; "5"; "22"];
              correctAnswer := "4"; explanation := "Count." |} in
  let st := fresh_quiz Math [] in
  Forall (fun q => correctAnswer q ∈ options q)
         (questions (startQuiz (fun _ => 1 # 2) Math [q; q] st)).
Proof.
  intros q st.
  apply (proj1 (proj2 (proj2 (startQuiz_shuffles (fun _ => 1 # 2) Math
                                [q; q] st)))).
  repeat constructor.
Defined.

(** *** A quiz answered question by question *)

Lemma reduce_score_present (answers : list string) (qs : list QuizQuestion) :
  forall acc index,
    (index + length answers <= length qs)%nat ->
    reduce_score acc index (Some <$> answers) qs =
    Some (acc + correct_answers answers (drop index qs)).
Proof.
  induction answers as [| a answers IH]; intros acc index Hlen; simpl.
  - destruct (drop index qs); f_equal; lia.
  - simpl in Hlen.
    destruct (lookup_lt_is_Some_2 qs index) as [q Hq]; [lia |].
    rewrite Hq, (drop_S _ _ _ Hq). simpl.
    rewrite IH by lia. f_equal. case_bool_decide; lia.
Qed.

Lemma correct_answers_bounds (answers : list string) (qs : list QuizQuestion) :
  0 <= correct_answers answers qs <= Z.of_nat (length qs).
Proof.
  revert qs. induction answers as [| a answers IH]; intros [| q qs]; simpl;
    try lia.
  specialize (IH qs). case_bool_decide; lia.
Qed.

Lemma write_end (v : string) (a : list (option string)) :
  write (length a) v a = a ++ [Some v].
Proof.
  unfold write. rewrite Nat.ltb_irrefl, Nat.sub_diag. done.
Qed.

Lemma quiz_run_app events1 events2 st :
  run (events1 ++ events2) st = run events2 (run events1 st).
Proof. unfold run. by rewrite foldl_app. Qed.

Lemma clicks_ignored (extras : list string) st :
  truthy (selectedOption st) = true -> run (Click <$> extras) st = st.
Proof.
  intros Hsel. induction extras as [| e extras IH]; [done |].
  rewrite fmap_cons. change (run (Click e :: (Click <$> extras)) st)
    with (run (Click <$> extras) (handleAnswer e st)).
  unfold handleAnswer. rewrite Hsel. exact IH.
Qed.

Lemma answer_round_run s qs given (r : string * list string * Z) :
  r.1.1 <> "" ->
  run (answer_round r) (answered s qs given) =
  if Z.of_nat (length given) <? Z.of_nat (length qs) - 1
  then
    {| subject := Some s; questions := qs;
       currentQuestionIndex := length given + 1;
       userAnswers := Some <$> (given ++ [r.1.1]); selectedOption := None;
       showResults := false; timers := []; reported := [] |}
  else
    match reduce_score 0 0 (Some <$> (given ++ [r.1.1])) qs with
    | Some score =>
        {| subject := Some s; questions := qs;
           currentQuestionIndex := length given;
           userAnswers := Some <$> (given ++ [r.1.1]);
           selectedOption := None; showResults := true; timers := [];
           reported :=
             [Build_QuizResult s score (Z.of_nat (length qs)) r.2] |}
    | None =>
        {| subject := Some s; questions := qs;
           currentQuestionIndex := length given;
           userAnswers := Some <$> (given ++ [r.1.1]);
           selectedOption := None; showResults := false; timers := [];
           reported := [] |}
    end.
Proof.
  intros Hne. destruct r as [[a extras] now]. simpl in Hne.
  unfold answer_round. cbn [fst snd].
  change (Click a :: (Click <$> extras) ++ [Timeout now])
    with ([Click a] ++ (Click <$> extras) ++ [Timeout now]).
  rewrite !quiz_run_app.
  assert (Hclick : run [Click a] (answered s qs given) =
            {| subject := Some s; questions := qs;
               currentQuestionIndex := length given;
               userAnswers := Some <$> (given ++ [a]);
               selectedOption := Some a; showResults := false;
               timers := [{| c_answers := Some <$> (given ++ [a]);
                             c_index := length given;
                             c_questions := qs; c_subject := Some s |}];
               reported := [] |}).
  { unfold run, answered. simpl. unfold handleAnswer. simpl.
    assert (Hw : write (length given) a (Some <$> given) =
                 Some <$> (given ++ [a])).
    { rewrite <- (length_fmap Some given), write_end, fmap_app. done. }
    by rewrite Hw. }
  rewrite Hclick.
  rewrite clicks_ignored
    by (simpl; by rewrite bool_decide_false).
  unfold run. simpl. unfold timeout. simpl.
  destruct (Z.of_nat (length given) <? Z.of_nat (length qs) - 1); [done |].
  unfold finishQuiz. simpl.
  by destruct (reduce_score 0 0 (Some <$> given ++ [a]) qs).
Qed.

Lemma answer_rounds_run s qs (rs : list (string * list string * Z)) :
  Forall (fun r => r.1.1 <> "") rs ->
  (length rs < length qs)%nat ->
  run (mjoin (answer_round <$> rs)) (fresh_quiz s qs) =
  answered s qs rs.*1.*1.
Proof.
  induction rs as [| r rs IH] using rev_ind; intros Hne Hlen; [done |].
  apply Forall_app in Hne as [Hne Hr%Forall_inv].
  rewrite length_app in Hlen. simpl in Hlen.
  rewrite fmap_app, join_app, quiz_run_app, IH by (done || lia).
  change (mjoin (answer_round <$> [r])) with (answer_round r ++ []).
  rewrite app_nil_r, answer_round_run by done.
  rewrite !length_fmap.
  destruct (Z.ltb_spec (Z.of_nat (length rs)) (Z.of_nat (length qs) - 1));
    [| lia].
  unfold answered. rewrite !fmap_app, !length_app, !length_fmap. done.
Qed.

(** X8. A quiz of [n >= 1] questions that is answered question by question
    (each answer a non-empty string, clicked once the previous delay has
    passed; any further clicks during the delay are ignored) ends after the
    [n]-th delay: the results are shown and exactly one result is passed to
    [addQuizResult], with the subject of the quiz, as total the number of
    questions and as score the number of answers equal to the correct
    answer of their question, which lies between 0 and the total. *)
Theorem quiz_answered_in_order s qs (rs : list (string * list string * Z))
    (last_round : string * list string * Z) :
  Forall (fun r => r.1.1 <> "") (rs ++ [last_round]) ->
  length (rs ++ [last_round]) = length qs ->
  let given := (rs ++ [last_round]).*1.*1 in
  let fin :=
    run (mjoin (answer_round <$> rs ++ [last_round])) (fresh_quiz s qs) in
  reported fin =
    [Build_QuizResult s (correct_answers given qs) (Z.of_nat (length qs))
       last_round.2] /\
  showResults fin = true /\
  userAnswers fin = Some <$> given /\
  timers fin = [] /\
  0 <= correct_answers given qs <= Z.of_nat (length qs).
Proof.
  intros Hne Hlen given fin.
  assert (Hfin : fin =
    {| subject := Some s; questions := qs;
       currentQuestionIndex := length rs;
       userAnswers := Some <$> given; selectedOption := None;
       showResults := true; timers := [];
       reported := [Build_QuizResult s (correct_answers given qs)
                      (Z.of_nat (length qs)) last_round.2] |}).
  { unfold fin. pose proof Hne as Hne'.
    apply Forall_app in Hne' as [Hrs Hlast%Forall_inv].
    rewrite length_app in Hlen. simpl in Hlen.
    rewrite fmap_app, join_app, quiz_run_app, answer_rounds_run
      by (done || lia).
    change (mjoin (answer_round <$> [last_round]))
      with (answer_round last_round ++ []).
    rewrite app_nil_r, answer_round_run by done.
    rewrite !length_fmap.
    destruct (Z.ltb_spec (Z.of_nat (length rs)) (Z.of_nat (length qs) - 1));
      [lia |].
    assert (Hgiven : rs.*1.*1 ++ [last_round.1.1] = given).
    { unfold given. by rewrite !fmap_app. }
    rewrite Hgiven, reduce_score_present, drop_0.
    - done.
    - unfold given. rewrite !length_fmap, length_app. simpl. lia. }
  rewrite Hfin. simpl. repeat split; try done;
    apply correct_answers_bounds.
Qed.

Lemma quiz_answered_in_order_witness :
  let q1 := {| question := "2 + 2?"; options := ["3"; "4"];
               correctAnswer := "4"; explanation := "Count." |} in
  let q2 := {| question := "3 * 3?"; options := ["9"; "6"];
               correctAnswer := "9"; explanation := "Multiply." |} in
  let fin :=
    run (mjoin (answer_round <$> [("4", ["3"], 10)] ++ [("6", [], 20)]))
        (fresh_quiz Math [q1; q2]) in
  reported fin = [Build_QuizResult Math 1 2 20].
Proof.
  intros q1 q2 fin.
  refine (proj1 (quiz_answered_in_order Math [q1; q2] [("4", ["3"], 10)]
                   ("6", [], 20) _ _)).
  - repeat constructor; discriminate.
  - reflexivity.
Defined.

End QuizFlowProperties.

(** ** The session list during an exchange *)

Section ChatSessionProperties.
Import Chat ChatSessions.

Lemma updateSession_other sid f ss i s :
  ss !! i = Some s -> id s <> sid -> updateSession sid f ss !! i = Some s.
Proof.
  intros Hs Hne. unfold updateSession.
  rewrite list_lookup_fmap_Some. exists s. split; [| done].
  by rewrite bool_decide_false.
Qed.

Lemma updateSession_ids sid f ss :
  (forall s, id (f s) = id s) ->
  id <$> updateSession sid f ss = id <$> ss.
Proof.
  intros Hid. unfold updateSession. rewrite <- list_fmap_compose.
  apply list_fmap_ext. intros _ s _. simpl. case_bool_decide; [apply Hid | done].
Qed.

Lemma updateSession_absent sid f ss :
  Forall (fun s => id s <> sid) ss -> updateSession sid f ss = ss.
Proof.
  induction 1 as [| s ss Hs Hss IH]; [done |]. simpl.
  rewrite bool_decide_false by done. by rewrite IH.
Qed.

Lemma updateSession_compose sid f g ss :
  (forall s, id (g s) = id s) ->
  updateSession sid f (updateSession sid g ss) =
  updateSession sid (fun s => f (g s)) ss.
Proof.
  intros Hg. unfold updateSession. rewrite <- list_fmap_compose.
  apply list_fmap_ext. intros _ s _. simpl.
  destruct (bool_decide (id s = sid)) eqn:Hs.
  - rewrite Hg, Hs. done.
  - by rewrite Hs.
Qed.

(** Every event changes the sessions by an update of the exchange's
    session that keeps its id, or not at all. *)
Lemma step_sessions sid e st :
  sessions (step sid e st) = sessions st \/
  exists f, (forall s, id (f s) = id s) /\
            sessions (step sid e st) = updateSession sid f (sessions st).
Proof.
  assert (Hreveal : forall next s, id (reveal next s) = id s).
  { intros next s. unfold reveal. destruct (last (messages s)); [| done].
    by case_match. }
  assert (Hfinal : forall srcs s, id (finalize srcs s) = id s).
  { intros srcs s. unfold finalize. by destruct (last (messages s)). }
  destruct e as [| chunk | srcs | message | title]; simpl.
  - destruct (frameRequested st); [| by left]. unfold animateStream.
    destruct (len (displayedText st) <? len (streamText st)); simpl;
      match goal with
      | |- context [if ?c then _ else _] => destruct c
      end; simpl.
    + right. eexists. split; [| reflexivity]. intros s. apply Hreveal.
    + right.
      exists (fun s => finalize (finalSources st) (reveal
                (slice0 (streamText st)
                   (len (displayedText st) +
                    1 `max` round_div_1_5
                              (len (streamText st) - len (displayedText st))))
                s)).
      split; [intros s; by rewrite Hfinal, Hreveal |].
      by rewrite updateSession_compose.
    + by left.
    + right. eexists. split; [| reflexivity]. intros s. apply Hfinal.
  - left. by destruct chunk.
  - by left.
  - right. eexists. split; [| reflexivity]. done.
  - right. eexists. split; [| reflexivity]. done.
Qed.

(** X9. The events of an exchange (frames, chunks, completion, failure,
    the generated title) never add, remove or reorder sessions, and never
    change a session other than the exchange's own; if that session is not
    in the list, for instance because it was deleted while the answer was
    streaming, the events leave the whole list as it is. *)
Theorem exchange_touches_only_its_session sid events st :
  id <$> sessions (run sid events st) = id <$> sessions st /\
  (forall i s, sessions st !! i = Some s -> id s <> sid ->
               sessions (run sid events st) !! i = Some s) /\
  (Forall (fun s => id s <> sid) (sessions st) ->
   sessions (run sid events st) = sessions st) /\
  sessions (run sid events (onDeleteSession sid st)) =
    sessions (onDeleteSession sid st).
Proof.
  assert (Hrun : forall st0,
    id <$> sessions (run sid events st0) = id <$> sessions st0 /\
    (forall i s, sessions st0 !! i = Some s -> id s <> sid ->
                 sessions (run sid events st0) !! i = Some s) /\
    (Forall (fun s => id s <> sid) (sessions st0) ->
     sessions (run sid events st0) = sessions st0)).
  { intros st0. induction events as [| e events IH] using rev_ind; [done |].
    destruct IH as (Hids & Hother & Habsent).
    rewrite run_snoc.
    destruct (step_sessions sid e (run sid events st0))
      as [Heq | (f & Hf & Heq)]; rewrite Heq; [done |].
    split; [by rewrite updateSession_ids |]. split.
    - intros i s Hs Hne. apply updateSession_other; [by apply Hother | done].
    - intros Hall. rewrite (Habsent Hall). by apply updateSession_absent. }
  destruct (Hrun st) as (H1 & H2 & H3).
  split; [done |]. split; [done |]. split; [done |].
  apply Hrun. simpl. apply Forall_forall.
  by intros s [Hs _]%list_elem_of_filter.
Qed.

Lemma exchange_touches_only_its_session_witness :
  let s1 := {| id := "a"; name := "One"; messages := []; createdAt := 1 |} in
  let s2 := {| id := "b"; name := "Two"; messages := []; createdAt := 2 |} in
  let st := handleSendMessage_begin "a" ["?"]%char None false [s1; s2] in
  sessions (run "a" [Chunk ["o"; "k"]%char; Frame; Resolve None; Frame] st)
    !! 1%nat = Some s2.
Proof.
  intros s1 s2 st.
  apply (proj1 (proj2 (exchange_touches_only_its_session "a"
                         [Chunk ["o"; "k"]%char; Frame; Resolve None; Frame]
                         st))).
  - reflexivity.
  - discriminate.
Defined.

End ChatSessionProperties.

(** ** Live transcripts *)

Section TranscriptProperties.
Import ChatSessions.
Variable blank : Chat.text -> bool.

Lemma heard_snoc ms m :
  heard (ms ++ [m]) =
  ((heard ms).1 ++ default [] (inputTranscription m),
   (heard ms).2 ++ default [] (outputTranscription m)).
Proof.
  unfold heard, Chat.text. rewrite !omap_app, !join_app. simpl.
  destruct (inputTranscription m), (outputTranscription m); simpl;
    by rewrite ?app_nil_r.
Qed.

Lemma onmessages_snoc ms m st :
  onmessages blank (ms ++ [m]) st = onmessage blank m (onmessages blank ms st).
Proof. unfold onmessages. by rewrite foldl_snoc. Qed.

Lemma onmessages_app ms1 ms2 st :
  onmessages blank (ms1 ++ ms2) st =
  onmessages blank ms2 (onmessages blank ms1 st).
Proof. unfold onmessages. by rewrite foldl_app. Qed.

(** Between two turn ends the pieces are appended to the buffers. *)
Lemma onmessages_body body st :
  Forall (fun m => turnComplete m = false) body ->
  onmessages blank body st =
  {| currentInputTranscription :=
       currentInputTranscription st ++ (heard body).1;
     currentOutputTranscription :=
       currentOutputTranscription st ++ (heard body).2;
     completedTurns := completedTurns st |}.
Proof.
  induction body as [| m body IH] using rev_ind; intros Hbody.
  - simpl. rewrite !app_nil_r. by destruct st.
  - apply Forall_app in Hbody as [Hbody Hm%Forall_inv].
    rewrite onmessages_snoc, IH by done.
    unfold onmessage. rewrite Hm, heard_snoc. simpl.
    destruct (inputTranscription m), (outputTranscription m); simpl;
      rewrite ?app_nil_r, ?app_assoc; reflexivity.
Qed.

Lemma onmessages_turn ms st :
  is_turn ms ->
  currentInputTranscription st = [] -> currentOutputTranscription st = [] ->
  onmessages blank ms st =
  {| currentInputTranscription := [];
     currentOutputTranscription := [];
     completedTurns :=
       completedTurns st ++
       filter (fun p => blank p.1 = false /\ blank p.2 = false) [heard ms] |}.
Proof.
  intros (body & m & -> & Hm & Hbody) Hin Hout.
  rewrite onmessages_snoc, onmessages_body by done.
  unfold onmessage. rewrite Hm, Hin, Hout, heard_snoc. simpl.
  f_equal.
  destruct (inputTranscription m) as [ti |],
           (outputTranscription m) as [to |]; simpl; rewrite ?app_nil_r;
    match goal with
    | |- context [negb (blank ?i) && negb (blank ?o)] =>
        destruct (blank i) eqn:Hbi, (blank o) eqn:Hbo; simpl
    end;
    first [ rewrite filter_cons_True by (simpl; by rewrite Hbi, Hbo); done
          | rewrite filter_cons_False
              by (simpl; rewrite ?Hbi, ?Hbo; intros []; done);
            by rewrite app_nil_r ].
Qed.

(** X10. In a live session, each turn that ends with the turn-complete
    signal is passed on as one exchange holding everything heard in that
    turn: the pieces of the input transcript and those of the output
    transcript, each joined in order of arrival.  A turn whose input or
    output is blank once trimmed is dropped.  After every turn both buffers
    are empty, so no text leaks from one turn into the next. *)
Theorem live_turns_delivered (turns : list (list ServerContent)) st :
  Forall is_turn turns ->
  currentInputTranscription st = [] -> currentOutputTranscription st = [] ->
  onmessages blank (mjoin turns) st =
  {| currentInputTranscription := [];
     currentOutputTranscription := [];
     completedTurns :=
       completedTurns st ++
       filter (fun p => blank p.1 = false /\ blank p.2 = false)
              (heard <$> turns) |}.
Proof.
  intros Hturns Hin Hout.
  induction turns as [| ms turns IH] using rev_ind.
  - simpl. rewrite app_nil_r. destruct st; simpl in *. by subst.
  - apply Forall_app in Hturns as [Hturns Hms%Forall_inv].
    rewrite join_app, onmessages_app, IH by done.
    simpl. rewrite app_nil_r, onmessages_turn by done. simpl.
    rewrite fmap_app, filter_app, (assoc_L (++)). done.
Qed.

End TranscriptProperties.

Lemma live_turns_delivered_witness :
  let blank (s : Chat.text) := bool_decide (s = []) in
  let piece i o c :=
    {| ChatSessions.outputTranscription := o;
       ChatSessions.inputTranscription := i;
       ChatSessions.turnComplete := c |} in
  let turn := [piece (Some ["h"]%char) None false;
               piece (Some ["i"]%char) (Some ["y"; "o"]%char) true] in
  ChatSessions.completedTurns
    (ChatSessions.onmessages blank (mjoin [turn])
       {| ChatSessions.currentInputTranscription := [];
          ChatSessions.currentOutputTranscription := [];
          ChatSessions.completedTurns := [] |})
  = [(["h"; "i"], ["y"; "o"])%char].
Proof.
  intros blank piece turn.
  rewrite (live_turns_delivered blank [turn]).
  - reflexivity.
  - repeat constructor.
    exists [piece (Some ["h"]%char) None false],
           (piece (Some ["i"]%char) (Some ["y"; "o"]%char) true).
    repeat constructor.
  - reflexivity.
  - reflexivity.
Defined.

(** ** The image history *)

Section HistoryProperties.
Import ImageGenerator.
Implicit Types (data history prev : list ImageGenerationResult).

Lemma newest_first_cons x data :
  newest_first (x :: data) <->
  Forall (fun y => createdAt y <= createdAt x) data /\ newest_first data.
Proof.
  unfold newest_first. split.
  - intros H. split.
    + apply Forall_forall. intros y Hy.
      apply list_elem_of_lookup in Hy as [j Hj].
      apply (H 0%nat (S j) x y); [lia | done | done].
    + intros i j a b Hij Ha Hb. apply (H (S i) (S j) a b); [lia | done | done].
  - intros [Hx Hdata] i j a b Hij Ha Hb.
    destruct i as [| i], j as [| j]; simpl in *; try lia.
    + assert (a = b) by congruence. subst. lia.
    + injection Ha as <-. rewrite Forall_forall in Hx. apply Hx.
      by eapply list_elem_of_lookup_2.
    + eapply Hdata; [| exact Ha | exact Hb]. lia.
Qed.

Lemma newest_first_take n data :
  newest_first data -> newest_first (take n data).
Proof.
  intros H i j a b Hij Ha Hb.
  apply lookup_take_Some in Ha as [Ha _].
  apply lookup_take_Some in Hb as [Hb _].
  by eapply H.
Qed.

Lemma addAllToHistory_take items prev :
  addAllToHistory items prev = take 20 (reverse items ++ take 20 prev) \/
  items = [].
Proof.
  destruct items as [| item items]; [by right |]. left.
  revert item prev. induction items as [| item' items IH] using rev_ind;
    intros item prev.
  - unfold addAllToHistory, addToHistory. simpl.
    destruct prev; [done |]. simpl. f_equal.
    by rewrite take_take.
  - change (item :: items ++ [item']) with ((item :: items) ++ [item']).
    unfold addAllToHistory in *. rewrite foldl_snoc, IH.
    rewrite reverse_snoc. unfold addToHistory. simpl. f_equal.
    by rewrite take_take.
Qed.

(** X11. The history that [handleSubmit] maintains never holds more than 20
    results: adding a result puts it first and keeps the 19 newest of the
    earlier ones.  After any number of additions it consists of the added
    results, latest first, followed by the earlier history, cut to 20
    entries; and if each result is at least as new as those before it, the
    history stays newest first. *)
Theorem addToHistory_bounded item items prev :
  (length (addToHistory item prev) <= 20)%nat /\
  addToHistory item prev = item :: take 19 prev /\
  addAllToHistory (items ++ [item]) prev =
    take 20 (item :: reverse items ++ take 20 prev) /\
  (newest_first (reverse (items ++ [item]) ++ prev) ->
   newest_first (addAllToHistory (items ++ [item]) prev)).
Proof.
  assert (Hall : addAllToHistory (items ++ [item]) prev =
                 take 20 (item :: reverse items ++ take 20 prev)).
  { destruct (addAllToHistory_take (items ++ [item]) prev) as [-> | Hnil].
    - by rewrite reverse_snoc.
    - by destruct items. }
  split; [unfold addToHistory; rewrite length_take; lia |].
  split; [done |]. split; [exact Hall |].
  intros Hnf. rewrite Hall. apply newest_first_take.
  rewrite reverse_snoc in Hnf. simpl in Hnf.
  intros i j a b Hij Ha Hb.
  apply (Hnf i j a b Hij).
  - destruct i as [| i]; [done |]. simpl in *.
    destruct (decide (i < length (reverse items))%nat).
    + rewrite lookup_app_l in Ha |- * by done. done.
    + rewrite lookup_app_r in Ha |- * by lia.
      by apply lookup_take_Some in Ha as [Ha _].
  - destruct j as [| j]; [done |]. simpl in *.
    destruct (decide (j < length (reverse items))%nat).
    + rewrite lookup_app_l in Hb |- * by done. done.
    + rewrite lookup_app_r in Hb |- * by lia.
      by apply lookup_take_Some in Hb as [Hb _].
Qed.

Lemma addToHistory_bounded_witness :
  let entry t := {| id := "i"; prompt := "p"; aspectRatio := "1:1";
                    numImages := 1; images := []; createdAt := t |} in
  newest_first (addAllToHistory ([entry 2] ++ [entry 3]) [entry 1]).
Proof.
  intros entry.
  apply (proj2 (proj2 (proj2 (addToHistory_bounded (entry 3) [entry 2]
                                [entry 1])))).
  intros [| [| [| i]]] [| [| [| j]]] a b Hij; simpl;
    intros [= <-] [= <-]; simpl; lia.
Defined.

(** X12. What the save effect leaves in local storage: for an empty history
    the stored item is removed and [setItem] is not called.  Otherwise, if
    [setItem] fails on the quota for the history and for the history
    without its last 1, ..., [k - 1] entries, and stores the history
    without its last [k] entries, then exactly these entries are stored:
    the save keeps the longest run of the newest entries that fits.  In
    every case the stored value is either what it was or the history
    without some of its last entries. *)
Theorem saveEffect_stores_newest setItem history st :
  (history = [] ->
   item (saveEffect setItem history st) = None /\
   setItemCalls (saveEffect setItem history st) = setItemCalls st) /\
  (forall k,
      history <> [] -> (k <= length history)%nat ->
      (forall j, (j < k)%nat ->
                 exists error, setItem (evicted j history) = Some error /\
                               isQuotaExceeded error = true) ->
      setItem (evicted k history) = None ->
      item (saveEffect setItem history st) = Some (evicted k history)) /\
  (history <> [] ->
   item (saveEffect setItem history st) = item st \/
   exists k, item (saveEffect setItem history st) = Some (evicted k history)).
Proof.
  split; [intros ->; done |].
  assert (Hsave : history <> [] ->
            saveEffect setItem history st =
            saveHistoryWithRetry setItem history st).
  { intros Hne. unfold saveEffect. destruct history; done. }
  destruct (saveHistoryWithRetry_run setItem history st)
    as (n & Hn & _ & Hquota & _ & Hlast). cbv zeta in *.
  split.
  - intros k Hne Hk Hfail Hok. rewrite (Hsave Hne).
    assert (n = k) as ->.
    { destruct (Nat.lt_trichotomy n k) as [Hlt | [Heq | Hgt]]; [| done |].
      - destruct (Hfail n Hlt) as (error & Herr & Hq).
        rewrite Herr in Hlast. destruct Hlast as [_ Hfull].
        specialize (Hfull Hq). lia.
      - destruct (Hquota k Hgt) as (error & Herr & _). congruence. }
    by rewrite Hok in Hlast.
  - intros Hne. rewrite (Hsave Hne).
    destruct (setItem (evicted n history)) as [error |].
    + left. by destruct Hlast.
    + right. by exists n.
Qed.

Lemma saveEffect_stores_newest_witness :
  let entry t := {| id := "i"; prompt := "p"; aspectRatio := "1:1";
                    numImages := 1; images := []; createdAt := t |} in
  let quota := {| isDOMException := true;
                  errorName := "QuotaExceededError" |} in
  let setItem data := if (length data <=? 1)%nat then None else Some quota in
  let st := {| item := None; setItemCalls := []; console := [] |} in
  item (saveEffect setItem [entry 3; entry 2; entry 1] st) = Some [entry 3].
Proof.
  intros entry quota setItem st.
  apply (proj1 (proj2 (saveEffect_stores_newest setItem
                         [entry 3; entry 2; entry 1] st)) 2%nat).
  - discriminate.
  - simpl. lia.
  - intros [| [| j]] Hj; try lia; exists quota; split; reflexivity.
  - reflexivity.
Defined.

End HistoryProperties.

(** ** Sorting *)

Section SortProperties.
Context {A : Type}.
Implicit Types (compareFn : A -> A -> Z) (l : list A).

Lemma insert_Permutation compareFn x l :
  JSArray.insert compareFn x l ≡ₚ x :: l.
Proof.
  induction l as [| y l IH]; simpl; [done |].
  destruct (compareFn x y <=? 0); [done |].
  rewrite IH. apply Permutation_swap.
Qed.

Lemma sort_Permutation compareFn l : JSArray.sort compareFn l ≡ₚ l.
Proof.
  induction l as [| x l IH]; simpl; [done |].
  by rewrite insert_Permutation, IH.
Qed.

Lemma insert_ordered compareFn x l :
  consistent compareFn -> ordered compareFn l ->
  ordered compareFn (JSArray.insert compareFn x l).
Proof.
  intros [Hsign Htrans] Hl. induction Hl as [| y l Hl IH Hy]; simpl.
  - repeat constructor.
  - destruct (Z.leb_spec (compareFn x y) 0) as [Hxy | Hxy].
    + constructor; [by constructor |]. constructor; [done |].
      eapply Forall_impl; [exact Hy |]. intros z Hz. by eapply Htrans.
    + constructor; [exact IH |].
      rewrite insert_Permutation. constructor; [| done].
      apply Hsign in Hxy. lia.
Qed.

Lemma sort_ordered compareFn l :
  consistent compareFn -> ordered compareFn (JSArray.sort compareFn l).
Proof.
  intros Hc. induction l as [| x l IH]; simpl; [constructor |].
  by apply insert_ordered.
Qed.

Lemma sort_ordered_id compareFn l :
  ordered compareFn l -> JSArray.sort compareFn l = l.
Proof.
  induction 1 as [| x l Hl IH Hx]; simpl; [done |].
  fold (JSArray.sort compareFn l). rewrite IH.
  destruct Hx as [| y l Hy _]; simpl; [done |].
  by destruct (Z.leb_spec (compareFn x y) 0); [| lia].
Qed.



Lemma filter_insert compareFn (P : A -> Prop) `{!forall x, Decision (P x)}
    x l :
  consistent compareFn -> ordered compareFn l ->
  filter P (JSArray.insert compareFn x l) =
  if decide (P x) then JSArray.insert compareFn x (filter P l)
  else filter P l.
Proof.
  intros [Hsign Htrans] Hl. induction Hl as [| y l Hl IH Hy]; simpl.
  - rewrite filter_cons, filter_nil. by case_decide.
  - destruct (Z.leb_spec (compareFn x y) 0) as [Hxy | Hxy].
    + rewrite (filter_cons _ x). case_decide; [| done].
      assert (Hall : Forall (fun z => compareFn x z <= 0) (y :: l)).
      { constructor; [done |]. eapply Forall_impl; [exact Hy |].
        intros z Hz. by eapply Htrans. }
      destruct (filter P (y :: l)) as [| z zs] eqn:Hf; [done |]. simpl.
      assert (Hz : z ∈ filter P (y :: l)) by (rewrite Hf; by left).
      apply list_elem_of_filter in Hz as [_ Hz].
      rewrite Forall_forall in Hall. apply Hall in Hz.
      by destruct (Z.leb_spec (compareFn x z) 0); [| lia].
    + rewrite !(filter_cons _ y), IH.
      destruct (decide (P x)), (decide (P y)); simpl; try done.
      by destruct (Z.leb_spec (compareFn x y) 0); [lia |].
Qed.

Lemma filter_sort compareFn (P : A -> Prop) `{!forall x, Decision (P x)} l :
  consistent compareFn ->
  filter P (JSArray.sort compareFn l) = JSArray.sort compareFn (filter P l).
Proof.
  intros Hc. induction l as [| x l IH]; [done |]. simpl.
  fold (JSArray.sort compareFn l).
  rewrite filter_insert by (done || by apply sort_ordered).
  rewrite filter_cons. case_decide; [| done]. simpl.
  fold (JSArray.sort compareFn (filter P l)). by rewrite IH.
Qed.

End SortProperties.

(** ** The history view of the image generator *)

Section HistoryViewProperties.
Import ImageGenerator HistoryView.

Lemma StronglySorted_lookup {A} (R : A -> A -> Prop) (l : list A) :
  StronglySorted R l <->
  forall i j x y, (i < j)%nat -> l !! i = Some x -> l !! j = Some y -> R x y.
Proof.
  split.
  - induction 1 as [| a l Hl IH Ha]; intros i j x y Hij Hi Hj.
    + by rewrite lookup_nil in Hi.
    + destruct j as [| j]; [lia |]. simpl in Hj.
      destruct i as [| i]; simpl in Hi.
      * injection Hi as <-. rewrite Forall_forall in Ha.
        apply Ha. by eapply list_elem_of_lookup_2.
      * apply (IH i j); [lia | done | done].
  - induction l as [| a l IH]; intros H; constructor.
    + apply IH. intros i j x y Hij Hi Hj.
      apply (H (S i) (S j)); [lia | done | done].
    + apply Forall_forall. intros y Hy.
      apply list_elem_of_lookup_1 in Hy as [j Hj].
      apply (H 0%nat (S j)); [lia | done | done].
Qed.

Lemma ordered_newest_first data :
  ordered (fun a b => createdAt b - createdAt a) data <-> newest_first data.
Proof.
  unfold ordered, newest_first. rewrite StronglySorted_lookup. split.
  - intros H i j x y Hij Hi Hj.
    destruct (decide (i = j)) as [-> | Hne].
    + rewrite Hi in Hj. injection Hj as <-. lia.
    + specialize (H i j x y ltac:(lia) Hi Hj). simpl in H. lia.
  - intros H i j x y Hij Hi Hj.
    specialize (H i j x y ltac:(lia) Hi Hj). lia.
Qed.

Lemma ordered_oldest_first data :
  ordered (fun a b => createdAt a - createdAt b) data <-> oldest_first data.
Proof.
  unfold ordered, oldest_first. rewrite StronglySorted_lookup. split.
  - intros H i j x y Hij Hi Hj.
    destruct (decide (i = j)) as [-> | Hne].
    + rewrite Hi in Hj. injection Hj as <-. lia.
    + specialize (H i j x y ltac:(lia) Hi Hj). simpl in H. lia.
  - intros H i j x y Hij Hi Hj.
    specialize (H i j x y ltac:(lia) Hi Hj). lia.
Qed.

Lemma filteredHistory_sort history historyFilterRatio historySortOrder :
  filteredHistory history historyFilterRatio historySortOrder =
  match historySortOrder with
  | newest => JSArray.sort (fun a b => createdAt b - createdAt a)
                           (of_ratio historyFilterRatio history)
  | oldest => JSArray.sort (fun a b => createdAt a - createdAt b)
                           (of_ratio historyFilterRatio history)
  end.
Proof. by destruct historySortOrder. Qed.

Lemma newest_consistent :
  consistent (fun a b : ImageGenerationResult => createdAt b - createdAt a).
Proof. split; intros; lia. Qed.

Lemma oldest_consistent :
  consistent (fun a b : ImageGenerationResult => createdAt a - createdAt b).
Proof. split; intros; lia. Qed.

Lemma newest_first_filter (P : ImageGenerationResult -> Prop)
    `{!forall x, Decision (P x)} data :
  newest_first data -> newest_first (filter P data).
Proof.
  induction data as [| x data IH]; [done |].
  rewrite newest_first_cons. intros [Hx Hdata].
  rewrite filter_cons. destruct (decide (P x)); [| by apply IH].
  apply newest_first_cons. split; [| by apply IH].
  apply Forall_forall. intros y [_ Hy]%list_elem_of_filter.
  rewrite Forall_forall in Hx. by apply Hx.
Qed.

(** X13.  The history view shows exactly the stored results of the chosen
    aspect ratio (all of them for ['All']), each as often as it is stored;
    under "newest" no shown result is older than a later one, under "oldest"
    none is newer; results created at the same time keep their stored order;
    and for a history that is stored newest first the "newest" view is the
    stored order itself. *)
Theorem filteredHistory_sorted_view history historyFilterRatio
    historySortOrder :
  filteredHistory history historyFilterRatio historySortOrder ≡ₚ
    of_ratio historyFilterRatio history /\
  (forall item,
      item ∈ filteredHistory history historyFilterRatio historySortOrder <->
      item ∈ history /\
      (historyFilterRatio = "All" \/ aspectRatio item = historyFilterRatio)) /\
  match historySortOrder with
  | newest =>
      newest_first (filteredHistory history historyFilterRatio newest)
  | oldest =>
      oldest_first (filteredHistory history historyFilterRatio oldest)
  end /\
  (forall t,
      created_at t
        (filteredHistory history historyFilterRatio historySortOrder) =
      created_at t (of_ratio historyFilterRatio history)) /\
  (newest_first history ->
   filteredHistory history historyFilterRatio newest =
   of_ratio historyFilterRatio history).
Proof.
  assert (Hperm : filteredHistory history historyFilterRatio historySortOrder
                  ≡ₚ of_ratio historyFilterRatio history).
  { rewrite filteredHistory_sort.
    destruct historySortOrder; apply sort_Permutation. }
  split; [exact Hperm |]. split; [| split; [| split]].
  - intros item. rewrite Hperm. unfold of_ratio.
    rewrite list_elem_of_filter. tauto.
  - destruct historySortOrder; rewrite filteredHistory_sort.
    + apply ordered_newest_first, sort_ordered, newest_consistent.
    + apply ordered_oldest_first, sort_ordered, oldest_consistent.
  - clear Hperm. intros t. rewrite filteredHistory_sort. unfold created_at.
    destruct historySortOrder.
    + induction (of_ratio historyFilterRatio history) as [| x l IH];
        [done |].
      simpl. fold (JSArray.sort (fun a b : ImageGenerationResult =>
                                   createdAt b - createdAt a) l).
      rewrite filter_cons, <- IH. clear IH.
      generalize (JSArray.sort (fun a b : ImageGenerationResult =>
                                  createdAt b - createdAt a) l).
      intros s. induction s as [| y s IHs]; [done |].
      simpl. destruct (Z.leb_spec (createdAt y - createdAt x) 0);
        [by rewrite filter_cons |].
      rewrite (filter_cons _ y), IHs, (filter_cons _ y).
      repeat case_decide; try done; lia.
    + induction (of_ratio historyFilterRatio history) as [| x l IH];
        [done |].
      simpl. fold (JSArray.sort (fun a b : ImageGenerationResult =>
                                   createdAt a - createdAt b) l).
      rewrite filter_cons, <- IH. clear IH.
      generalize (JSArray.sort (fun a b : ImageGenerationResult =>
                                  createdAt a - createdAt b) l).
      intros s. induction s as [| y s IHs]; [done |].
      simpl. destruct (Z.leb_spec (createdAt x - createdAt y) 0);
        [by rewrite filter_cons |].
      rewrite (filter_cons _ y), IHs, (filter_cons _ y).
      repeat case_decide; try done; lia.
  - intros Hnf. rewrite filteredHistory_sort. apply sort_ordered_id.
    apply ordered_newest_first. unfold of_ratio.
    by apply newest_first_filter.
Qed.

Lemma filteredHistory_sorted_view_witness :
  let entry r t := {| id := "i"; prompt := "p"; aspectRatio := r;
                      numImages := 1; images := []; createdAt := t |} in
  filteredHistory [entry "1:1" 3; entry "16:9" 2; entry "1:1" 1] "1:1"
                  newest =
  of_ratio "1:1" [entry "1:1" 3; entry "16:9" 2; entry "1:1" 1].
Proof.
  intros entry.
  apply (proj2 (proj2 (proj2 (proj2
           (filteredHistory_sorted_view
              [entry "1:1" 3; entry "16:9" 2; entry "1:1" 1] "1:1"
              newest))))).
  intros [| [| [| i]]] [| [| [| j]]] a b Hij; simpl;
    intros [= <-] [= <-]; simpl; lia.
Defined.

(** X14.  Deleting a result from the history removes it from the view and
    changes nothing else there: the view of the history after the deletion
    is the view before it without the results of that id, in the same
    order.  No result of the id is left in the history, the others stay in
    their order, and deleting an id that no result has changes nothing. *)
Theorem handleDeleteHistory_view itemId history historyFilterRatio
    historySortOrder :
  filteredHistory (handleDeleteHistory itemId history) historyFilterRatio
                  historySortOrder =
    handleDeleteHistory itemId
      (filteredHistory history historyFilterRatio historySortOrder) /\
  (forall item, item ∈ handleDeleteHistory itemId history <->
                item ∈ history /\ id item <> itemId) /\
  handleDeleteHistory itemId history `sublist_of` history /\
  (itemId ∉ map id history -> handleDeleteHistory itemId history = history).
Proof.
  split; [| split; [| split]].
  - rewrite !filteredHistory_sort. unfold handleDeleteHistory, of_ratio.
    destruct historySortOrder.
    + rewrite filter_sort by apply newest_consistent.
      f_equal. rewrite !list_filter_filter.
      apply list_filter_iff. tauto.
    + rewrite filter_sort by apply oldest_consistent.
      f_equal. rewrite !list_filter_filter.
      apply list_filter_iff. tauto.
  - intros item. unfold handleDeleteHistory.
    rewrite list_elem_of_filter. tauto.
  - apply sublist_filter.
  - intros Habs. unfold handleDeleteHistory.
    induction history as [| x history IH]; [done |].
    simpl in Habs. apply not_elem_of_cons in Habs as [Hx Habs].
    rewrite filter_cons. case_decide; [| done]. f_equal. by apply IH.
Qed.

Lemma handleDeleteHistory_view_witness :
  let entry i := {| id := i; prompt := "p"; aspectRatio := "1:1";
                    numImages := 1; images := []; createdAt := 1 |} in
  handleDeleteHistory "c" [entry "a"; entry "b"] = [entry "a"; entry "b"].
Proof.
  intros entry.
  apply (proj2 (proj2 (proj2
           (handleDeleteHistory_view "c" [entry "a"; entry "b"] "All"
                                     newest)))).
  exact (bool_decide_unpack ("c" ∉ ["a"; "b"]) I).
Defined.

End HistoryViewProperties.

(** ** The study planner *)

Section TodoProperties.
Import Todo.







Lemma toggle_absent id' tasks :
  id' ∉ map id tasks -> handleToggleTask id' tasks = tasks.
Proof.
  induction tasks as [| task tasks IH]; [done |]. simpl.
  rewrite not_elem_of_cons. intros [Hne Hnot].
  destruct (String.eqb_spec (id task) id') as [Heq | _]; [done |].
  f_equal. by apply IH.
Qed.

Lemma counts_total tasks :
  activeTasksCount tasks + completedTasksCount tasks = totalTasksCount tasks.
Proof.
  unfold activeTasksCount, completedTasksCount, totalTasksCount.
  induction tasks as [| task tasks IH]; [done |].
  rewrite !filter_cons. simpl length.
  destruct (completed task); simpl; repeat case_decide; try done;
    simpl length; lia.
Qed.

Lemma completedTasksCount_cons task tasks :
  completedTasksCount (task :: tasks) =
  (if completed task then 1 else 0) + completedTasksCount tasks.
Proof.
  unfold completedTasksCount. rewrite filter_cons.
  destruct (completed task); simpl; repeat case_decide; try done;
    simpl length; lia.
Qed.

Lemma toggle_completed_count id' tasks task :
  NoDup (map id tasks) -> task ∈ tasks -> id task = id' ->
  completedTasksCount (handleToggleTask id' tasks) =
  completedTasksCount tasks + (if completed task then -1 else 1).
Proof.
  induction tasks as [| x tasks IH]; intros Hnd Hin Hid.
  { by apply elem_of_nil in Hin. }
  simpl in Hnd. apply NoDup_cons in Hnd as [Hx Hnd].
  change (handleToggleTask id' (x :: tasks)) with
    ((if String.eqb (id x) id'
      then {| id := id x; text := text x; completed := negb (completed x);
              createdAt := createdAt x; priority := priority x;
              reminder := reminder x |}
      else x) :: handleToggleTask id' tasks).
  rewrite !completedTasksCount_cons.
  apply elem_of_cons in Hin as [-> | Hin].
  - rewrite Hid, String.eqb_refl. rewrite toggle_absent by (by rewrite <- Hid).
    simpl. destruct (completed x); simpl; lia.
  - destruct (String.eqb_spec (id x) id') as [Heq | _].
    + exfalso. apply Hx. rewrite Heq, <- Hid. by apply (list_elem_of_fmap_2 id).
    + rewrite IH by done. lia.
Qed.

(** X16.  The task handlers of the study planner.  Toggling a task twice
    gives back the list; toggling keeps the ids and their order and
    changes nothing when no task has the id; in a list without duplicate
    ids it moves exactly one task between the completed and the active
    count, whose sum is always the number of tasks.  Deleting removes every
    task of the id and keeps the others in their order.  Adding a task of
    blank text changes nothing; otherwise the new task comes first, is
    active, and the form is reset; deleting it again, when no older task
    has its id, gives back the old list. *)
Theorem todo_handlers trim id' tasks :
  handleToggleTask id' (handleToggleTask id' tasks) = tasks /\
  map id (handleToggleTask id' tasks) = map id tasks /\
  (id' ∉ map id tasks -> handleToggleTask id' tasks = tasks) /\
  activeTasksCount tasks + completedTasksCount tasks = totalTasksCount tasks /\
  (forall task,
      NoDup (map id tasks) -> task ∈ tasks -> id task = id' ->
      completedTasksCount (handleToggleTask id' tasks) =
        completedTasksCount tasks + (if completed task then -1 else 1) /\
      activeTasksCount (handleToggleTask id' tasks) =
        activeTasksCount tasks - (if completed task then -1 else 1)) /\
  (forall task, task ∈ handleDeleteTask id' tasks <->
                task ∈ tasks /\ id task <> id') /\
  handleDeleteTask id' tasks `sublist_of` tasks /\
  (forall now1 now2 text' priority',
      let st := {| tasks := tasks; newTaskText := text';
                   newTaskPriority := priority' |} in
      (trim text' = EmptyString -> handleAddTask trim now1 now2 st = st) /\
      (trim text' <> EmptyString ->
       exists task,
         handleAddTask trim now1 now2 st =
           {| tasks := task :: tasks; newTaskText := EmptyString;
              newTaskPriority := Medium |} /\
         completed task = false /\ text task = trim text' /\
         priority task = priority' /\ createdAt task = now2 /\
         (id task ∉ map id tasks ->
          handleDeleteTask (id task)
            (Todo.tasks (handleAddTask trim now1 now2 st)) = tasks))) /\
  (filteredTasks all tasks = tasks /\
   Z.of_nat (length (filteredTasks active tasks)) = activeTasksCount tasks /\
   Z.of_nat (length (filteredTasks completed_only tasks)) =
     completedTasksCount tasks /\
   forall filter' task,
     task ∈ filteredTasks filter' tasks <->
     task ∈ tasks /\
     match filter' with
     | all => True
     | active => completed task = false
     | completed_only => completed task = true
     end).
Proof.
  split; [| split; [| split; [| split; [| split; [| split; [| split;
    [| split]]]]]]].
  - induction tasks as [| [i t c ca p r] tasks IH]; [done |]. simpl.
    destruct (String.eqb_spec i id') as [Heq | Hne]; simpl.
    + rewrite Heq, String.eqb_refl. simpl. rewrite negb_involutive.
      f_equal. exact IH.
    + destruct (String.eqb_spec i id'); [done |]. f_equal. exact IH.
  - induction tasks as [| task tasks IH]; [done |]. simpl.
    rewrite IH. by destruct (String.eqb (id task) id').
  - apply toggle_absent.
  - apply counts_total.
  - intros task Hnd Hin Hid.
    assert (Hc := toggle_completed_count id' tasks task Hnd Hin Hid).
    split; [exact Hc |].
    pose proof (counts_total tasks) as H1.
    pose proof (counts_total (handleToggleTask id' tasks)) as H2.
    assert (Hlen : totalTasksCount (handleToggleTask id' tasks) =
                   totalTasksCount tasks).
    { unfold totalTasksCount, handleToggleTask. by rewrite length_map. }
    lia.
  - intros task. unfold handleDeleteTask. rewrite list_elem_of_filter. tauto.
  - apply sublist_filter.
  - intros now1 now2 text' priority' st. split.
    + intros Hblank. unfold handleAddTask. simpl. by rewrite Hblank.
    + intros Hne. unfold handleAddTask. simpl.
      destruct (String.eqb_spec (trim text') EmptyString) as [? | _];
        [done |].
      eexists. split; [reflexivity |]. simpl.
      repeat split. intros Hfresh.
      unfold handleDeleteTask. rewrite filter_cons. simpl.
      case_decide; [done |].
      clear -Hfresh. induction tasks as [| x tasks IH]; [done |].
      simpl in Hfresh. apply not_elem_of_cons in Hfresh as [Hx Hfresh].
      rewrite filter_cons. case_decide; [| done]. f_equal. by apply IH.
  - split; [| split; [done | split; [done |]]].
    + unfold filteredTasks. induction tasks as [| x tasks IH]; [done |].
      rewrite filter_cons. simpl. by f_equal.
    + intros filter' task. unfold filteredTasks.
      rewrite list_elem_of_filter.
      destruct filter', (completed task) eqn:Hc; simpl; rewrite ?Hc; simpl;
        intuition congruence.
Qed.

Lemma todo_handlers_witness :
  let task i c := {| id := i; text := "t"; completed := c;
                     createdAt := 1; priority := Low; reminder := None |} in
  completedTasksCount (handleToggleTask "a" [task "a" false; task "b" true]) =
  completedTasksCount [task "a" false; task "b" true] + 1.
Proof.
  intros task.
  refine (proj1 (proj1 (proj2 (proj2 (proj2 (proj2
            (todo_handlers (fun s => s) "a"
               [task "a" false; task "b" true])))))
            (task "a" false) _ _ _)).
  - exact (bool_decide_unpack (NoDup ["a"; "b"]) I).
  - by left.
  - reflexivity.
Defined.

(** X17.  The completion percentage of the planner is 0 when there are no
    tasks; for up to 100 tasks it is an integer between 0 and 100 that is
    closest to the exact percentage of completed tasks. *)
Theorem completionPercentage_nearest tasks :
  (tasks = [] -> completionPercentage tasks = Number.of_Z 0) /\
  (tasks <> [] -> Z.of_nat (length tasks) <= checked_total ->
   exists n,
     integer_of (completionPercentage tasks) = Some n /\
     nearest_percent n (completedTasksCount tasks) (totalTasksCount tasks) /\
     0 <= n <= 100).
Proof.
  split; [by intros -> |]. intros Hne Hlen.
  pose proof (counts_total tasks) as Hsum.
  assert (0 <= activeTasksCount tasks) by (unfold activeTasksCount; lia).
  assert (0 <= completedTasksCount tasks)
    by (unfold completedTasksCount; lia).
  assert (Hpos : 0 < totalTasksCount tasks).
  { unfold totalTasksCount. destruct tasks; [done |]. simpl length. lia. }
  destruct (percent_nearest (completedTasksCount tasks)
              (totalTasksCount tasks)) as (n & Hn & Hnear).
  { lia. } { unfold totalTasksCount in *. lia. }
  exists n. unfold completionPercentage.
  destruct (Z.eqb_spec (totalTasksCount tasks) 0) as [? | _]; [lia |].
  split; [exact Hn |]. split; [exact Hnear |].
  unfold nearest_percent in Hnear. nia.
Qed.

Lemma completionPercentage_nearest_witness :
  let task c := {| id := "i"; text := "t"; completed := c;
                   createdAt := 1; priority := Low; reminder := None |} in
  exists n,
    integer_of (completionPercentage [task true; task false; task false])
      = Some n /\
    nearest_percent n 1 3 /\ 0 <= n <= 100.
Proof.
  intros task.
  apply (proj2 (completionPercentage_nearest
                  [task true; task false; task false]));
    [done | vm_compute; discriminate].
Defined.

End TodoProperties.

(** ** The sidebar of the chat *)

Section SidebarProperties.
Import Chat ChatHistorySidebar.

Lemma StronglySorted_filter {A} (R : A -> A -> Prop) (P : A -> Prop)
    `{!forall x, Decision (P x)} (l : list A) :
  StronglySorted R l -> StronglySorted R (filter P l).
Proof.
  induction 1 as [| x l Hl IH Hx]; [constructor |].
  rewrite filter_cons. case_decide; [| done].
  constructor; [done |].
  apply Forall_forall. intros y [_ Hy]%list_elem_of_filter.
  rewrite Forall_forall in Hx. by apply Hx.
Qed.

Lemma filter_none {A} (P : A -> Prop) `{!forall x, Decision (P x)}
    (l : list A) :
  Forall (fun x => ~ P x) l -> filter P l = [].
Proof.
  induction 1 as [| x l Hx _ IH]; [done |].
  rewrite filter_cons. by case_decide.
Qed.

Lemma ordered_sessions_newest_first (l : list ChatSession) :
  ordered (fun a b => createdAt b - createdAt a) l <->
  sessions_newest_first l.
Proof.
  unfold ordered, sessions_newest_first. rewrite StronglySorted_lookup.
  split.
  - intros H i j x y Hij Hi Hj.
    destruct (decide (i = j)) as [-> | Hne].
    + rewrite Hi in Hj. injection Hj as <-. lia.
    + specialize (H i j x y ltac:(lia) Hi Hj). simpl in H. lia.
  - intros H i j x y Hij Hi Hj.
    specialize (H i j x y ltac:(lia) Hi Hj). lia.
Qed.

Lemma sessions_consistent :
  consistent (fun a b : ChatSession => createdAt b - createdAt a).
Proof. split; intros; lia. Qed.

Lemma filtered_ordered noQuery found sessions :
  ordered (fun a b => createdAt b - createdAt a)
          (filtered noQuery found sessions).
Proof.
  unfold filtered. destruct noQuery.
  - apply sort_ordered, sessions_consistent.
  - apply StronglySorted_filter, sort_ordered, sessions_consistent.
Qed.

Lemma foldl_push_groups t l g :
  foldl (push t) g l =
  {| Today := Today g ++ filter (fun s => t <= createdAt s) l;
     Yesterday :=
       Yesterday g ++
       filter (fun s => t - 86400000 <= createdAt s /\ createdAt s < t) l;
     Previous_7_Days :=
       Previous_7_Days g ++
       filter (fun s => t - 86400000 * 7 <= createdAt s /\
                        createdAt s < t - 86400000) l;
     Older := Older g ++
              filter (fun s => createdAt s < t - 86400000 * 7) l |}.
Proof.
  revert g. induction l as [| s l IH]; intros g.
  - simpl. rewrite !filter_nil, !app_nil_r. by destruct g.
  - simpl. rewrite IH. rewrite !(filter_cons _ s). unfold push.
    destruct (Z.geb_spec (createdAt s) t);
      [| destruct (Z.geb_spec (createdAt s) (t - 86400000));
         [| destruct (Z.geb_spec (createdAt s) (t - 86400000 * 7))]];
      simpl; repeat case_decide; try lia;
      by rewrite <- ?(assoc_L (++)).
Qed.

Lemma groups_join t (l : list ChatSession) :
  StronglySorted (fun a b => createdAt b - createdAt a <= 0) l ->
  filter (fun s => t <= createdAt s) l ++
  filter (fun s => t - 86400000 <= createdAt s /\ createdAt s < t) l ++
  filter (fun s => t - 86400000 * 7 <= createdAt s /\
                   createdAt s < t - 86400000) l ++
  filter (fun s => createdAt s < t - 86400000 * 7) l ++ [] = l.
Proof.
  induction 1 as [| x l Hl IH Hx]; [done |].
  rewrite !(filter_cons _ x).
  destruct (decide (t <= createdAt x)) as [H1 | H1].
  { repeat case_decide; try lia. simpl. by rewrite IH. }
  rewrite (filter_none (fun s => t <= createdAt s) l) in IH |- *
    by (eapply Forall_impl; [exact Hx | simpl; intros; lia]).
  destruct (decide (t - 86400000 <= createdAt x /\ createdAt x < t))
    as [H2 | H2].
  { repeat case_decide; try lia. simpl. simpl in IH. by rewrite IH. }
  rewrite (filter_none
             (fun s => t - 86400000 <= createdAt s /\ createdAt s < t) l)
    in IH |- *
    by (eapply Forall_impl; [exact Hx | simpl; intros; lia]).
  destruct (decide (t - 86400000 * 7 <= createdAt x /\
                    createdAt x < t - 86400000)) as [H3 | H3].
  { repeat case_decide; try lia. simpl. simpl in IH. by rewrite IH. }
  rewrite (filter_none
             (fun s => t - 86400000 * 7 <= createdAt s /\
                       createdAt s < t - 86400000) l) in IH |- *
    by (eapply Forall_impl; [exact Hx | simpl; intros; lia]).
  case_decide; [| lia]. simpl. simpl in IH. by rewrite IH.
Qed.

Lemma Forall_filter_self {A} (P : A -> Prop) `{!forall x, Decision (P x)}
    (l : list A) :
  Forall P (filter P l).
Proof. apply Forall_forall. by intros x [? _]%list_elem_of_filter. Qed.

(** X18.  The sidebar lists, group after group, exactly the sessions that
    pass the search (all of them when there is no query), each once per
    stored session, newest first across the groups.  "Today" holds the
    sessions created since the start of today, "Yesterday" those of the
    day before, "Previous 7 Days" those from seven days back up to
    yesterday, "Older" the rest; and the sidebar reports no match exactly
    when no group has a session. *)
Theorem groupedSessions_display noQuery found todayStart sessions :
  let groups := groupedSessions noQuery found todayStart sessions in
  displayed groups = filtered noQuery found sessions /\
  displayed groups ≡ₚ
    (if noQuery then sessions else filter (fun s => found s) sessions) /\
  sessions_newest_first (displayed groups) /\
  Forall (created_within todayStart None (Some 0)) (Today groups) /\
  Forall (created_within todayStart (Some 0) (Some 1)) (Yesterday groups) /\
  Forall (created_within todayStart (Some 1) (Some 7))
         (Previous_7_Days groups) /\
  Forall (created_within todayStart (Some 7) None) (Older groups) /\
  (hasFilteredSessions groups = false <-> displayed groups = []).
Proof.
  intros groups.
  assert (Hgroups := foldl_push_groups todayStart
                       (filtered noQuery found sessions)
                       {| Today := []; Yesterday := [];
                          Previous_7_Days := []; Older := [] |}).
  fold (groupedSessions noQuery found todayStart sessions) in Hgroups.
  fold groups in Hgroups. simpl in Hgroups.
  assert (Hdisp : displayed groups = filtered noQuery found sessions).
  { rewrite Hgroups. unfold displayed, entries. simpl.
    apply groups_join, filtered_ordered. }
  split; [exact Hdisp |]. split; [| split].
  - rewrite Hdisp. unfold filtered. destruct noQuery.
    + apply sort_Permutation.
    + by rewrite sort_Permutation.
  - rewrite Hdisp. apply ordered_sessions_newest_first, filtered_ordered.
  - rewrite Hgroups. simpl.
    repeat split;
      try (eapply Forall_impl; [apply Forall_filter_self |];
           unfold created_within; simpl; intros; lia).
    + unfold hasFilteredSessions, displayed, entries. simpl.
      destruct (filter _ _), (filter _ _), (filter _ _), (filter _ _);
        simpl; intros; done.
    + unfold hasFilteredSessions, displayed, entries. simpl.
      destruct (filter _ _), (filter _ _), (filter _ _), (filter _ _);
        simpl; intros; done.
Qed.

End SidebarProperties.

(** ** Feedback and live turns *)

Section ChatHandlerProperties.
Import Chat ChatHandlers.



Lemma turn_captured sid t st :
  QuizFlow.truthy (Some sid) = true ->
  turn (Some sid) st t =
  {| sessions :=
       updateSession sid
         (fun s => with_messages s (messages s ++ spoken [t]))
         (sessions st);
     activeSessionId := activeSessionId st |}.
Proof.
  intros Htr. unfold turn, onTurnComplete_timer, onTurnComplete.
  by rewrite Htr.
Qed.

Lemma spoken_cons t ts : spoken (t :: ts) = spoken [t] ++ spoken ts.
Proof. reflexivity. Qed.

(** X20.  Where the turns of a live session go.  The session that was
    active when the live session was started receives the voice messages
    of every completed turn, two per turn and in order, whichever session
    is shown by then; no other session changes, and if that session has
    been deleted the turns are dropped.  When no session was active at the
    start, every turn makes a session of its own, named "Live
    Conversation", holding the two messages of that turn only, put before
    the others and made the active one (given that the clock readings
    that name the sessions differ from each other and from the ids in
    use). *)
Theorem live_turns_sessions activeSessionId' ts st :
  (forall sid,
      activeSessionId' = Some sid -> sid <> EmptyString ->
      activeSessionId (turns activeSessionId' ts st) = activeSessionId st /\
      length (sessions (turns activeSessionId' ts st)) =
        length (sessions st) /\
      (forall i s,
          sessions st !! i = Some s ->
          sessions (turns activeSessionId' ts st) !! i =
            Some (if bool_decide (id s = sid)
                  then with_messages s (messages s ++ spoken ts)
                  else s)) /\
      (sid ∉ map id (sessions st) ->
       sessions (turns activeSessionId' ts st) = sessions st)) /\
  (QuizFlow.truthy activeSessionId' = false ->
   NoDup (map now1 ts) ->
   (forall t, t ∈ ts -> pretty (now1 t) ∉ map id (sessions st)) ->
   sessions (turns activeSessionId' ts st) =
     reverse (map live_session ts) ++ sessions st /\
   activeSessionId (turns activeSessionId' ts st) =
     match last ts with
     | Some t => Some (pretty (now1 t))
     | None => activeSessionId st
     end).
Proof.
  split.
  - intros sid -> Hsid.
    assert (Htr : QuizFlow.truthy (Some sid) = true).
    { unfold QuizFlow.truthy. by rewrite bool_decide_false. }
    assert (Hrun : turns (Some sid) ts st =
                   {| sessions :=
                        updateSession sid
                          (fun s => with_messages s (messages s ++ spoken ts))
                          (sessions st);
                      activeSessionId := activeSessionId st |}).
    { unfold turns. revert st. induction ts as [| t ts IH]; intros st.
      - simpl. destruct st as [ss a]. simpl. f_equal.
        rewrite <- (list_fmap_id ss) at 1. unfold updateSession.
        apply list_fmap_ext. intros _ s _. simpl.
        case_bool_decide; [| done]. unfold spoken. simpl.
        rewrite app_nil_r. by destruct s.
      - simpl. rewrite IH, turn_captured by done. simpl. f_equal.
        rewrite updateSession_compose by done.
        unfold updateSession. apply list_fmap_ext. intros _ s _. simpl.
        case_bool_decide; [| done]. unfold with_messages. simpl.
        by rewrite <- (assoc_L (++)). }
    rewrite Hrun. simpl. split; [done |].
    split; [by unfold updateSession; rewrite length_map |]. split.
    + intros i s Hs. unfold updateSession.
      by rewrite list_lookup_fmap, Hs.
    + intros Habs. apply updateSession_absent. apply Forall_forall.
      intros s Hs Heq. apply Habs. rewrite <- Heq.
      by apply (list_elem_of_fmap_2 id).
  - intros Htr. unfold turns. revert st.
    induction ts as [| t ts IH]; intros st Hnd Hfresh; [done |].
    apply NoDup_cons in Hnd as [Ht Hnd].
    assert (Hone : turn activeSessionId' st t =
                   {| sessions := live_session t :: sessions st;
                      activeSessionId := Some (pretty (now1 t)) |}).
    { unfold turn, onTurnComplete_timer, onTurnComplete. rewrite Htr. simpl.
      rewrite bool_decide_true by done. f_equal. f_equal.
      apply updateSession_absent. apply Forall_forall.
      intros s Hs Heq. apply (Hfresh t); [by left |].
      rewrite <- Heq. by apply (list_elem_of_fmap_2 id). }
    simpl foldl. rewrite Hone.
    destruct (IH {| sessions := live_session t :: sessions st;
                    activeSessionId := Some (pretty (now1 t)) |} Hnd)
      as [Hss Hact].
    { simpl. intros t' Ht'. apply not_elem_of_cons. split.
      - intros Heq%(inj pretty). apply Ht. rewrite <- Heq.
        by apply (list_elem_of_fmap_2 now1).
      - apply Hfresh. by right. }
    rewrite Hss, Hact. simpl. split.
    + by rewrite reverse_cons, <- (assoc_L (++)).
    + rewrite last_cons. by destruct (last ts).
Qed.

Lemma live_turns_sessions_witness :
  let st := {| sessions := [{| id := "s"; name := "n"; messages := [];
                               createdAt := 1 |}];
               activeSessionId := Some "s" |} in
  let ts := [{| now1 := 5; now2 := 5; input := []; output := [] |};
             {| now1 := 6; now2 := 7; input := []; output := [] |}] in
  length (sessions (turns (Some "s") ts st)) = 1%nat /\
  sessions (turns None ts st) = reverse (map live_session ts) ++ sessions st.
Proof.
  intros st ts. split.
  - refine (proj1 (proj2 (proj1 (live_turns_sessions (Some "s") ts st)
                            "s" eq_refl _))).
    discriminate.
  - refine (proj1 (proj2 (live_turns_sessions None ts st) eq_refl _ _)).
    + exact (bool_decide_unpack (NoDup [5; 6]) I).
    + intros t Ht.
      apply elem_of_cons in Ht as [-> | Ht];
        [| apply elem_of_cons in Ht as [-> | Ht]];
        [| | by apply elem_of_nil in Ht];
        (intros [Heq | []%elem_of_nil]%elem_of_cons;
         vm_compute in Heq; discriminate).
Defined.

End ChatHandlerProperties.
